(** * Kilat-Tutor: rate limiter, persistent cache and multi-agent orchestrator

  A shallow embedding of
    - [src/lib/ai/distributed-rate-limiter.ts]
    - [src/lib/cache/persistent-cache.ts]
    - [src/lib/orchestrator/multi-agent.ts]
  and the properties of the specification stated over it; then of the
  trace logger [src/unnamed/part_001], the job webhook of
  [src/app/api/cron/cleanup-traces/route.ts] with
  [src/lib/queue/qstash-client.ts], and the Upstash cache
  [src/unnamed/part_002], with further properties of the code. *)

From Stdlib Require Import ZArith QArith Qround Lia Lqa.
From Stdlib Require Import Ascii String.
From stdpp Require Import gmap strings list sorting pretty.

Local Open Scope string_scope.
Local Open Scope Z_scope.

#[local] Set Warnings "-clear-no-such-hyp".

(** ** JavaScript values used by all three files *)

Module JS.

(** [!x] and [x || 0] on a [number | null]: [null] and [0] are falsy. *)
Definition falsy (x : option Z) : bool :=
  match x with
  | None => true
  | Some n => n =? 0
  end.

Definition or0 (x : option Z) : Z :=
  match x with
  | None => 0
  | Some n => n
  end.

(** [Math.ceil (a / b)] and [Math.floor (a / b)] for a positive [b]. *)
Definition ceil_div (a b : Z) : Z := - ((- a) / b).
Definition floor_div (a b : Z) : Z := a / b.

(** A [number]: a double is a rational, or it is NaN or an infinity. *)
Inductive number :=
| Finite (q : Q)
| NotFinite.

(** [ToIntegerOrInfinity] on a finite number: toward zero. *)
Definition truncate (q : Q) : Z :=
  if Qle_bool 0 q then Qfloor q else Qceiling q.

(** A string is truthy when it is not empty. *)
Definition nonempty (s : string) : bool :=
  match s with
  | EmptyString => false
  | String _ _ => true
  end.

(** A thrown value, and [e instanceof Error ? e.message : 'Unknown error']. *)
Inductive Thrown :=
| ErrorObj (message : string)
| NonError.

Definition error_message (e : Thrown) : string :=
  match e with
  | ErrorObj m => m
  | NonError => "Unknown error"
  end.

(** *** Text

    A text is the sequence of its bytes.  The patterns of the three files
    are ASCII; a byte of 128 or more is neither a letter, a digit nor a
    blank of them, and [toLowerCase] leaves it as it is. *)

Definition code (c : ascii) : Z := Z.of_N (N_of_ascii c).

Definition is_upper (c : ascii) : bool := (65 <=? code c) && (code c <=? 90).
Definition is_lower (c : ascii) : bool := (97 <=? code c) && (code c <=? 122).
Definition is_digit (c : ascii) : bool := (48 <=? code c) && (code c <=? 57).

(** [\w] *)
Definition is_word (c : ascii) : bool :=
  is_upper c || is_lower c || is_digit c || (code c =? 95).

(** [\s] *)
Definition is_space (c : ascii) : bool :=
  ((9 <=? code c) && (code c <=? 13)) || (code c =? 32).

Definition lower_char (c : ascii) : ascii :=
  if is_upper c then ascii_of_N (N_of_ascii c + 32) else c.

Definition chars (s : string) : list ascii := list_ascii_of_string s.
Definition text (l : list ascii) : string := string_of_list_ascii l.

Definition toLowerCase (s : string) : string := text (map lower_char (chars s)).

(** [s.includes(sub)] *)
Definition includes (s sub : string) : bool :=
  match String.index 0 sub s with
  | Some _ => true
  | None => false
  end.

Fixpoint drop_blanks (l : list ascii) : list ascii :=
  match l with
  | [] => []
  | c :: l' => if is_space c then drop_blanks l' else l
  end.

(** [s.trim()] *)
Definition trim (s : string) : string :=
  text (rev (drop_blanks (rev (drop_blanks (chars s))))).

(** [s.substring(0, n)] and [s.slice(0, n)] *)
Definition prefix_of (n : nat) (s : string) : string := String.substring 0 n s.

(** [l.join(sep)] *)
Definition join (sep : string) (l : list string) : string := String.concat sep l.

Definition nl : string := String (ascii_of_N 10) EmptyString.

(** [s.split(sep)] for a one-character separator. *)
Fixpoint split_chars (sep : ascii) (cur : list ascii) (l : list ascii) : list string :=
  match l with
  | [] => [text (rev cur)]
  | c :: l' =>
      if Ascii.eqb c sep then text (rev cur) :: split_chars sep [] l'
      else split_chars sep (c :: cur) l'
  end.

Definition split (sep : ascii) (s : string) : list string :=
  split_chars sep [] (chars s).

(** *** Objects used as maps

    [Record<string, string>]: the entries in the order the properties were
    created; a write to a present key keeps its place.  Paths are not
    integer-like keys, which are the only ones JavaScript reorders. *)

Definition Files : Type := list (string * string).

Fixpoint files_get (fs : Files) (k : string) : option string :=
  match fs with
  | [] => None
  | (k', v) :: fs' => if String.eqb k' k then Some v else files_get fs' k
  end.

Fixpoint files_set (fs : Files) (k v : string) : Files :=
  match fs with
  | [] => [(k, v)]
  | (k', v') :: fs' =>
      if String.eqb k' k then (k', v) :: fs' else (k', v') :: files_set fs' k v
  end.

(** [Object.assign(target, src)] *)
Definition files_assign (target src : Files) : Files :=
  fold_left (λ acc kv, files_set acc kv.1 kv.2) src target.

Definition files_keys (fs : Files) : list string := map fst fs.

(** What a property holds in an object that took values from parsed JSON:
    a text, or a value that is no string ([null], a number, a boolean, an
    array, an object).  Calling [trim] on such a value throws a TypeError;
    [message] is its message. *)
Inductive Content :=
| Text (s : string)
| NotText (message : string).

Definition Entries : Type := list (string * Content).

Fixpoint entries_get (es : Entries) (k : string) : option Content :=
  match es with
  | [] => None
  | (k', v) :: es' => if String.eqb k' k then Some v else entries_get es' k
  end.

Fixpoint entries_set (es : Entries) (k : string) (v : Content) : Entries :=
  match es with
  | [] => [(k, v)]
  | (k', v') :: es' =>
      if String.eqb k' k then (k', v) :: es' else (k', v') :: entries_set es' k v
  end.

(** [Object.assign(target, src)] *)
Definition entries_assign (target src : Entries) : Entries :=
  fold_left (λ acc kv, entries_set acc kv.1 kv.2) src target.

Definition entries_keys (es : Entries) : list string := map fst es.

(** An object all of whose values are texts. *)
Definition texts (fs : Files) : Entries := map (λ kv, (kv.1, Text kv.2)) fs.

(** A text of ASCII characters only; on these the case conversions of the
    model are those of JavaScript character by character. *)
Definition ascii_only (s : string) : bool :=
  forallb (λ c, code c <? 128) (chars s).

End JS.

(** ** src/lib/ai/distributed-rate-limiter.ts *)

Module RateLimiter.

Inductive ProviderName := groq | pollinations | openrouter | default.

#[global] Instance ProviderName_eq_dec : EqDecision ProviderName.
Proof. solve_decision. Defined.

Record Limits := {
  maxRPM : Z;
  maxConcurrent : Z;
  windowMs : Z
}.

Definition PROVIDER_LIMITS (p : ProviderName) : Limits :=
  match p with
  | groq => {| maxRPM := 25; maxConcurrent := 3; windowMs := 60000 |}
  | pollinations => {| maxRPM := 50; maxConcurrent := 15; windowMs := 60000 |}
  | openrouter => {| maxRPM := 150; maxConcurrent := 10; windowMs := 60000 |}
  | default => {| maxRPM := 30; maxConcurrent := 5; windowMs := 60000 |}
  end.

Definition provider_name (p : ProviderName) : string :=
  match p with
  | groq => "groq"
  | pollinations => "pollinations"
  | openrouter => "openrouter"
  | default => "default"
  end.

Record RateLimitResult := {
  allowed : bool;
  remaining : Z;
  resetMs : Z
}.

(** *** The shared store

    A key holds an integer and, when one was set, the time (in ms) at which
    it expires.  An expired key reads as absent.  Every command takes the
    instant at which the store performs it. *)

Record RedisEntry := {
  value : Z;
  expireAt : option Z
}.

Abbreviation Redis := (gmap string RedisEntry).

Definition live (now : Z) (e : RedisEntry) : bool :=
  match expireAt e with
  | None => true
  | Some t => now <? t
  end.

Definition redis_get (now : Z) (k : string) (r : Redis) : option Z :=
  match r !! k with
  | Some e => if live now e then Some (value e) else None
  | None => None
  end.

(** [redis.set(k, v, { ex })] *)
Definition redis_set_ex (now : Z) (k : string) (v ex : Z) (r : Redis) : Redis :=
  <[k := {| value := v; expireAt := Some (now + ex * 1000) |}]> r.

(** [redis.incr(k)] and [redis.decr(k)]: a key that is absent counts from 0
    and gets no expiration; a present key keeps the one it has. *)
Definition redis_add (now : Z) (k : string) (d : Z) (r : Redis) : Redis :=
  match r !! k with
  | Some e =>
      if live now e
      then <[k := {| value := value e + d; expireAt := expireAt e |}]> r
      else <[k := {| value := d; expireAt := None |}]> r
  | None => <[k := {| value := d; expireAt := None |}]> r
  end.

Definition redis_incr (now : Z) (k : string) (r : Redis) : Redis :=
  redis_add now k 1 r.

Definition redis_decr (now : Z) (k : string) (r : Redis) : Redis :=
  redis_add now k (-1) r.

Definition redis_del (k : string) (r : Redis) : Redis := delete k r.

(** [redis.expire(k, seconds)] *)
Definition redis_expire (now : Z) (k : string) (secs : Z) (r : Redis) : Redis :=
  match r !! k with
  | Some e =>
      if live now e
      then <[k := {| value := value e; expireAt := Some (now + secs * 1000) |}]> r
      else r
  | None => r
  end.

Inductive Field := count_f | window_f | concurrent_f.

Definition field_name (f : Field) : string :=
  match f with
  | count_f => "count"
  | window_f => "window"
  | concurrent_f => "concurrent"
  end.

(** [`ratelimit:${provider}:${field}`] *)
Definition key (p : ProviderName) (f : Field) : string :=
  "ratelimit:" +:+ provider_name p +:+ ":" +:+ field_name f.

(** *** The course of a call

    A call awaits the store several times.  Between two awaits the clock
    moves on, a key can run out, and an awaited command may reject.  A
    [Course] holds what one call meets: whether [getRedis()] returns a
    client, the instant at which the store performs each awaited batch of
    commands, what each [Date.now()] returns, and the fate of each command.
    The commands of one [Promise.all] are all sent, and performed at one
    instant; the batch rejects when one of them does.  What another call
    writes between two awaits is not part of a course: where a property
    depends on it, the steps of the call are functions of their own, as for
    [releaseSlot] below. *)

Inductive Fate :=
| Answers
| Lost
| Fails.

(** [Lost]: the store performs the command, but no reply arrives and the
    promise rejects.  [Fails]: the command is not performed. *)
Definition performed (f : Fate) : bool :=
  match f with
  | Fails => false
  | _ => true
  end.

Definition rejects (f : Fate) : bool :=
  match f with
  | Answers => false
  | _ => true
  end.

Definition perform (f : Fate) (cmd : Redis → Redis) (r : Redis) : Redis :=
  if performed f then cmd r else r.

(** [readAt], [readOk]: the GETs.  [seenAt], [startAt], [refusedAt]: what
    [Date.now()] returns in the window test of line 155, for the new window
    of line 156 and for the refusal of line 169.  [writeAt], [write1],
    [write2]: the two SETs or the two INCRs, and the DECR or DEL of
    [releaseSlot].  [ttlAt], [ttl]: the EXPIRE.  [lastAt]: [Date.now()] of
    line 191. *)
Record Course := {
  configured : bool;
  readAt : Z;
  readOk : bool;
  seenAt : Z;
  startAt : Z;
  refusedAt : Z;
  writeAt : Z;
  write1 : Fate;
  write2 : Fate;
  ttlAt : Z;
  ttl : Fate;
  lastAt : Z
}.

(** A call that no other call overlaps, at one instant of the clock: the
    store answers every command when [reachable], and there is no client
    when not. *)
Definition atOnce (now : Z) (reachable : bool) : Course :=
  {| configured := reachable;
     readAt := now; readOk := true;
     seenAt := now; startAt := now; refusedAt := now;
     writeAt := now; write1 := Answers; write2 := Answers;
     ttlAt := now; ttl := Answers; lastAt := now |}.

(** *** checkRedisLimit

    [None] for the result: the promise rejects.  The parameter [now] is not
    read: line 156 shadows it and the other lines call [Date.now()]. *)

Definition fresh_window (limits : Limits) : RateLimitResult :=
  {| allowed := true; remaining := maxRPM limits - 1; resetMs := windowMs limits |}.

(** The test of line 155: the window read at [readAt] is unset, or has
    expired by [seenAt]. *)
Definition redis_window_over (redis : Redis) (provider : ProviderName)
    (limits : Limits) (readAt seenAt : Z) : bool :=
  let windowStart := redis_get readAt (key provider window_f) redis in
  JS.falsy windowStart || (windowMs limits <=? seenAt - JS.or0 windowStart).

Definition checkRedisLimit (redis : Redis) (provider : ProviderName)
    (limits : Limits) (now : Z) (c : Course) : Redis * option RateLimitResult :=
  let countKey := key provider count_f in
  let windowKey := key provider window_f in
  let concurrentKey := key provider concurrent_f in
  if negb (readOk c) then (redis, None)
  else
    let windowStart := redis_get (readAt c) windowKey redis in
    let currentCount := redis_get (readAt c) countKey redis in
    let concurrent := redis_get (readAt c) concurrentKey redis in
    let currentConcurrent := JS.or0 concurrent in
    if redis_window_over redis provider limits (readAt c) (seenAt c) then
      let now := startAt c in
      let ex := JS.ceil_div (windowMs limits) 1000 in
      let redis1 :=
        perform (write2 c) (redis_set_ex (writeAt c) countKey 1 ex)
          (perform (write1 c) (redis_set_ex (writeAt c) windowKey now ex) redis) in
      if rejects (write1 c) || rejects (write2 c) then (redis1, None)
      else (redis1, Some (fresh_window limits))
    else
      let count := JS.or0 currentCount in
      if maxRPM limits <=? count then
        (redis,
         Some {| allowed := false; remaining := 0;
                 resetMs := windowMs limits - (refusedAt c - JS.or0 windowStart) |})
      else if maxConcurrent limits <=? currentConcurrent then
        (redis,
         Some {| allowed := false; remaining := maxRPM limits - count;
                 resetMs := 1000 |})
      else
        let redis1 :=
          perform (write2 c) (redis_incr (writeAt c) concurrentKey)
            (perform (write1 c) (redis_incr (writeAt c) countKey) redis) in
        if rejects (write1 c) || rejects (write2 c) then (redis1, None)
        else
          let redis2 := perform (ttl c) (redis_expire (ttlAt c) concurrentKey 300) redis1 in
          if rejects (ttl c) then (redis2, None)
          else
            (redis2,
             Some {| allowed := true; remaining := maxRPM limits - count - 1;
                     resetMs := windowMs limits - (lastAt c - JS.or0 windowStart) |}).

(** *** The per-instance fallback *)

Record WindowState := {
  count : Z;
  windowStart : Z
}.

Record Limiter := {
  redis : Redis;
  localCounts : gmap string WindowState;
  localConcurrent : gmap string Z
}.

Definition empty_limiter : Limiter :=
  {| redis := ∅; localCounts := ∅; localConcurrent := ∅ |}.

(** The test of line 209. *)
Definition local_window_over (st : Limiter) (provider : ProviderName)
    (limits : Limits) (now : Z) : bool :=
  match localCounts st !! provider_name provider with
  | None => true
  | Some state => windowMs limits <=? now - windowStart state
  end.

Definition instanceAdjustedLimit (limits : Limits) : Z :=
  Z.max 5 (JS.floor_div (maxRPM limits) 5).

Definition instanceAdjustedConcurrent (limits : Limits) : Z :=
  Z.max 2 (JS.floor_div (maxConcurrent limits) 3).

Definition checkLocalLimit (st : Limiter) (provider : ProviderName)
    (limits : Limits) (now : Z) : Limiter * RateLimitResult :=
  let k := provider_name provider in
  let concurrent := JS.or0 (localConcurrent st !! k) in
  match localCounts st !! k with
  | Some state =>
      if windowMs limits <=? now - windowStart state then
        ({| redis := redis st;
            localCounts := <[k := {| count := 1; windowStart := now |}]> (localCounts st);
            localConcurrent := localConcurrent st |},
         fresh_window limits)
      else if instanceAdjustedLimit limits <=? count state then
        (st,
         {| allowed := false; remaining := 0;
            resetMs := windowMs limits - (now - windowStart state) |})
      else if instanceAdjustedConcurrent limits <=? concurrent then
        (st,
         {| allowed := false;
            remaining := instanceAdjustedLimit limits - count state;
            resetMs := 500 |})
      else
        ({| redis := redis st;
            localCounts :=
              <[k := {| count := count state + 1; windowStart := windowStart state |}]>
                (localCounts st);
            localConcurrent := <[k := concurrent + 1]> (localConcurrent st) |},
         {| allowed := true;
            remaining := instanceAdjustedLimit limits - (count state + 1);
            resetMs := windowMs limits - (now - windowStart state) |})
  | None =>
      ({| redis := redis st;
          localCounts := <[k := {| count := 1; windowStart := now |}]> (localCounts st);
          localConcurrent := localConcurrent st |},
       fresh_window limits)
  end.

(** *** checkLimit and releaseSlot

    [now] is the reading of line 113.  When there is no client, or a
    command of [checkRedisLimit] rejects, the local limiter answers, at
    [now]; what the store has performed by then stays performed. *)

Definition with_redis (st : Limiter) (r : Redis) : Limiter :=
  {| redis := r; localCounts := localCounts st;
     localConcurrent := localConcurrent st |}.

Definition checkLimit (st : Limiter) (provider : ProviderName)
    (now : Z) (c : Course) : Limiter * RateLimitResult :=
  let limits := PROVIDER_LIMITS provider in
  if configured c then
    let out := checkRedisLimit (redis st) provider limits now c in
    match out.2 with
    | Some result => (with_redis st out.1, result)
    | None => checkLocalLimit (with_redis st out.1) provider limits now
    end
  else checkLocalLimit st provider limits now.

(** [releaseSlot] awaits the GET of line 249 and then the DECR or the DEL:
    two steps of the store, with whatever reaches the store in between. *)
Definition releaseRead (r : Redis) (provider : ProviderName) (at_ : Z) : option Z :=
  redis_get at_ (key provider concurrent_f) r.

Definition releaseWrite (current : option Z) (r : Redis) (provider : ProviderName)
    (at_ : Z) (f : Fate) : Redis :=
  let concurrentKey := key provider concurrent_f in
  match current with
  | Some n =>
      if 0 <? n then perform f (redis_decr at_ concurrentKey) r
      else perform f (redis_del concurrentKey) r
  | None => r
  end.

(** The [try] block with nothing in between its two steps; a rejection is
    caught and ignored. *)
Definition releaseRedis (r : Redis) (provider : ProviderName) (c : Course) : Redis :=
  if readOk c then
    releaseWrite (releaseRead r provider (readAt c)) r provider (writeAt c) (write1 c)
  else r.

(** Lines 262-265.  The queue of the class has no producer, so
    [processQueue] finds it empty and returns at once. *)
Definition releaseLocal (st : Limiter) (provider : ProviderName) : Limiter :=
  let k := provider_name provider in
  let concurrent := JS.or0 (localConcurrent st !! k) in
  {| redis := redis st;
     localCounts := localCounts st;
     localConcurrent :=
       if 0 <? concurrent then <[k := concurrent - 1]> (localConcurrent st)
       else localConcurrent st |}.

Definition releaseSlot (st : Limiter) (provider : ProviderName) (c : Course)
  : Limiter :=
  let r := if configured c then releaseRedis (redis st) provider c else redis st in
  releaseLocal (with_redis st r) provider.

(** Two [releaseSlot] of one provider that overlap, on a store that
    answers: the GET of both is performed before the DECR or DEL of either. *)
Definition releaseSlotOverlapping (st : Limiter) (provider : ProviderName)
    (c1 c2 : Course) : Limiter :=
  let current1 := releaseRead (redis st) provider (readAt c1) in
  let current2 := releaseRead (redis st) provider (readAt c2) in
  let r1 := releaseWrite current1 (redis st) provider (writeAt c1) (write1 c1) in
  let r2 := releaseWrite current2 r1 provider (writeAt c2) (write1 c2) in
  releaseLocal (releaseLocal (with_redis st r2) provider) provider.

(** *** Sequences of operations

    Calls that do not overlap: each is over before the next begins and is
    taken at one instant of the clock, with the store answering all of its
    commands or, when not [reachable], none. *)

Inductive Op :=
| CheckLimit (provider : ProviderName) (now : Z) (reachable : bool)
| ReleaseSlot (provider : ProviderName) (now : Z) (reachable : bool).

(** What a sequence shows to its callers: the answer of each [checkLimit]
    and the return of each [releaseSlot]. *)
Inductive Event :=
| Checked (provider : ProviderName) (res : RateLimitResult)
| Released (provider : ProviderName).

Definition step (st : Limiter) (o : Op) : Limiter * Event :=
  match o with
  | CheckLimit p now up =>
      let '(st', res) := checkLimit st p now (atOnce now up) in (st', Checked p res)
  | ReleaseSlot p now up => (releaseSlot st p (atOnce now up), Released p)
  end.

Fixpoint run (st : Limiter) (ops : list Op) : Limiter * list Event :=
  match ops with
  | [] => (st, [])
  | o :: ops' =>
      let '(st1, e) := step st o in
      let '(st2, es) := run st1 ops' in
      (st2, e :: es)
  end.

Definition is_admission (p : ProviderName) (e : Event) : bool :=
  match e with
  | Checked q res => bool_decide (q = p) && allowed res
  | Released _ => false
  end.

Definition is_release (p : ProviderName) (e : Event) : bool :=
  match e with
  | Checked _ _ => false
  | Released q => bool_decide (q = p)
  end.

Definition admitted (p : ProviderName) (es : list Event) : Z :=
  Z.of_nat (length (filter (λ e, is_admission p e = true) es)).

Definition released (p : ProviderName) (es : list Event) : Z :=
  Z.of_nat (length (filter (λ e, is_release p e = true) es)).

(** Calls that were admitted and have not been released yet. *)
Definition in_flight (p : ProviderName) (es : list Event) : Z :=
  admitted p es - released p es.

(** *** What the properties speak of *)

(** The concurrency counter of a provider as the shared store and the
    instance hold it, and as a call at [now] reads it. *)
Definition sharedCounter (st : Limiter) (p : ProviderName) : option Z :=
  value <$> redis st !! key p concurrent_f.

Definition localCounter (st : Limiter) (p : ProviderName) : option Z :=
  localConcurrent st !! provider_name p.

Definition sharedConcurrent (st : Limiter) (p : ProviderName) (now : Z) : Z :=
  JS.or0 (redis_get now (key p concurrent_f) (redis st)).

Definition localConcurrentOf (st : Limiter) (p : ProviderName) : Z :=
  JS.or0 (localCounter st p).

Definition counters_nonneg (st : Limiter) : Prop :=
  ∀ p, (∀ v, sharedCounter st p = Some v → 0 ≤ v)
       ∧ (∀ v, localCounter st p = Some v → 0 ≤ v).

(** The window and the request count of a provider as a call at [now]
    reads them from the shared store. *)
Definition sharedWindow (st : Limiter) (p : ProviderName) (now : Z) : option Z :=
  redis_get now (key p window_f) (redis st).

Definition sharedCount (st : Limiter) (p : ProviderName) (now : Z) : option Z :=
  redis_get now (key p count_f) (redis st).

(** An operation of a sequence that goes on while the window that provider
    [p] started at [t0] is open and the shared store is reachable. *)
Definition within_window (p : ProviderName) (t0 : Z) (o : Op) : bool :=
  match o with
  | CheckLimit q now up =>
      if decide (q = p) then up && (now - t0 <? windowMs (PROVIDER_LIMITS p))
      else true
  | ReleaseSlot _ _ _ => true
  end.

(** The branch a [checkLimit] at [now] takes first: a new window. *)
Definition window_over (st : Limiter) (p : ProviderName) (now : Z)
    (reachable : bool) : bool :=
  if reachable then redis_window_over (redis st) p (PROVIDER_LIMITS p) now now
  else local_window_over st p (PROVIDER_LIMITS p) now.

(** A new window, then [n] more calls one ms apart, then a call when the
    window is over, with no release in between. *)
Definition burst (p : ProviderName) (up : bool) (n : nat) : list Op :=
  CheckLimit p 1000 up
  :: map (λ i, CheckLimit p (1001 + Z.of_nat i) up) (seq 0 n)
  ++ [CheckLimit p (1000 + windowMs (PROVIDER_LIMITS p)) up].

(** The value stored at a key, and held by the instance, is not negative. *)
Definition nonneg_at (r : Redis) (k : string) : Prop :=
  ∀ e, r !! k = Some e → 0 ≤ value e.

Definition local_nonneg_at (m : gmap string Z) (k : string) : Prop :=
  ∀ v, m !! k = Some v → 0 ≤ v.

(** The window [p] started at [w] is in the store with count [c]. *)
Definition window_at (r : Redis) (p : ProviderName) (w c : Z) : Prop :=
  let ttl := windowMs (PROVIDER_LIMITS p) in
  r !! key p window_f = Some {| value := w; expireAt := Some (w + ttl) |}
  ∧ r !! key p count_f = Some {| value := c; expireAt := Some (w + ttl) |}.

(** One call in each of [n] successive windows, with no release. *)
Definition oneCallPerWindow (p : ProviderName) (up : bool) (n : nat) : list Op :=
  map (λ i, CheckLimit p (1000 + Z.of_nat i * windowMs (PROVIDER_LIMITS p)) up) (seq 0 n).

(** [n] calls one ms apart, each released before the next. *)
Definition callsInTurn (p : ProviderName) (t0 : Z) (n : nat) : list Op :=
  flat_map (λ i, [CheckLimit p (t0 + 1 + Z.of_nat i) true;
                  ReleaseSlot p (t0 + 1 + Z.of_nat i) true]) (seq 0 n).

(** *** getStatus and waitForSlot *)

Record ProviderStatus := {
  status_count : Z;
  status_concurrent : Z;
  status_limit : Z
}.

(** [Object.keys(PROVIDER_LIMITS)] without ['default']. *)
Definition reportedProviders : list ProviderName := [groq; pollinations; openrouter].

Definition providerStatus (st : Limiter) (provider : ProviderName) (now : Z)
    (reachable : bool) : ProviderStatus :=
  let limits := PROVIDER_LIMITS provider in
  if reachable then
    {| status_count := JS.or0 (redis_get now (key provider count_f) (redis st));
       status_concurrent := JS.or0 (redis_get now (key provider concurrent_f) (redis st));
       status_limit := maxRPM limits |}
  else
    {| status_count :=
         JS.or0 (count <$> localCounts st !! provider_name provider);
       status_concurrent := JS.or0 (localConcurrent st !! provider_name provider);
       status_limit := maxRPM limits |}.

Definition getStatus (st : Limiter) (now : Z) (reachable : bool)
  : list (ProviderName * ProviderStatus) :=
  map (λ provider, (provider, providerStatus st provider now reachable))
    reportedProviders.

(** How [waitForSlot] ends: its promise resolves, at the attempt whose
    [checkLimit] took the [attempt]-th reading of the clock, or rejects with
    the timeout error; [StillWaiting] is the loop cut short by the bound on
    its turns. *)
Inductive WaitOutcome :=
| Resolved (attempt : nat)
| Rejected (at_ : Z)
| StillWaiting.

(** [Math.min(result.resetMs, 5000, timeoutMs - (Date.now() - startTime))] *)
Definition waitTime (result : RateLimitResult) (timeoutMs elapsed : Z) : Z :=
  Z.min (Z.min (resetMs result) 5000) (timeoutMs - elapsed).

Record Waited := {
  limiter : Limiter;
  timers : list Z;
  outcome : WaitOutcome
}.

(** The loop of [waitForSlot], for at most [turns] turns.  [clock n] is what
    the [n]-th reading of [Date.now()] by the loop returns; a turn takes
    three readings: in [checkLimit] (line 113), in the timeout test and in
    the wait time.  [course n] is the course of the [checkLimit] that reads
    [clock n].  [timers] lists the delays given to [setTimeout], the first
    one first. *)
Fixpoint waitLoop (turns : nat) (clock : nat → Z) (course : nat → Course)
    (n : nat) (st : Limiter) (provider : ProviderName) (startTime timeoutMs : Z)
  : Waited :=
  match turns with
  | O => {| limiter := st; timers := []; outcome := StillWaiting |}
  | S turns' =>
      let '(st', result) := checkLimit st provider (clock n) (course n) in
      if allowed result then
        {| limiter := st'; timers := []; outcome := Resolved n |}
      else if timeoutMs <? clock (S n) - startTime then
        {| limiter := st'; timers := []; outcome := Rejected (clock (S n)) |}
      else
        let delay := waitTime result timeoutMs (clock (S (S n)) - startTime) in
        let rest :=
          waitLoop turns' clock course (S (S (S n))) st' provider startTime
            timeoutMs in
        {| limiter := limiter rest; timers := delay :: timers rest;
           outcome := outcome rest |}
  end.

Definition waitForSlot (turns : nat) (clock : nat → Z) (course : nat → Course)
    (st : Limiter) (provider : ProviderName) (timeoutMs : Z) : Waited :=
  waitLoop turns clock course 1 st provider (clock O) timeoutMs.

(** Once its GETs were answered no command of the call rejects: the call
    is answered by the shared store alone or by the local limiter alone. *)
Definition undivided (c : Course) : bool :=
  negb (configured c) || negb (readOk c)
  || (negb (rejects (write1 c)) && negb (rejects (write2 c))
      && negb (rejects (ttl c))).

(** Every attempt at one instant, the one its [checkLimit] reads. *)
Definition attemptsAtOnce (clock : nat → Z) (reachable : bool) (n : nat) : Course :=
  atOnce (clock n) reachable.

(** The clock moves on by at least one ms from the timeout test of a turn
    to the timeout test of the next: a timer lies between them. *)
Definition clock_advances (clock : nat → Z) : Prop :=
  ∀ i : nat, clock (3 * i + 2)%nat + 1 ≤ clock (3 * (i + 1) + 2)%nat.

(** A clock that is read every [d] ms from [t0]. *)
Definition steady_clock (t0 d : Z) (n : nat) : Z := t0 + d * Z.of_nat n.

(** Two limiters hold the same for provider [p]. *)
Definition same_for (p : ProviderName) (st st' : Limiter) : Prop :=
  (∀ f, redis st' !! key p f = redis st !! key p f)
  ∧ localCounts st' !! provider_name p = localCounts st !! provider_name p
  ∧ localConcurrent st' !! provider_name p = localConcurrent st !! provider_name p.

(** An operation of a sequence that goes on while the window that the
    local limiter started for [p] at [t0] is open. *)
Definition within_local_window (p : ProviderName) (t0 : Z) (o : Op) : bool :=
  match o with
  | CheckLimit q now up =>
      if decide (q = p) then negb up && (now - t0 <? windowMs (PROVIDER_LIMITS p))
      else true
  | ReleaseSlot _ _ _ => true
  end.

Definition op_provider (o : Op) : ProviderName :=
  match o with
  | CheckLimit q _ _ => q
  | ReleaseSlot q _ _ => q
  end.

(** The local window [p] started at [w] holds count [c]. *)
Definition local_window_at (st : Limiter) (p : ProviderName) (w c : Z) : Prop :=
  localCounts st !! provider_name p = Some {| count := c; windowStart := w |}.

End RateLimiter.

(** ** src/lib/cache/persistent-cache.ts *)

Module PersistentCache.

Record CachedResponse := {
  jobId : string;
  outputContent : string;
  files : option JS.Files;
  completedAt : Z;
  similarity : Q
}.

(** *** Prompt normalization *)

Definition blank : ascii := ascii_of_N 32.

(** [.replace(/[^\w\s]/g, ' ')] *)
Definition strip_punctuation (l : list ascii) : list ascii :=
  map (λ c, if JS.is_word c || JS.is_space c then c else blank) l.

(** [.replace(/\s+/g, ' ')]; [after_blank] says that the run of blanks the
    scan is in has already been replaced. *)
Fixpoint collapse_blanks (after_blank : bool) (l : list ascii) : list ascii :=
  match l with
  | [] => []
  | c :: l' =>
      if JS.is_space c then
        if after_blank then collapse_blanks true l'
        else blank :: collapse_blanks true l'
      else c :: collapse_blanks false l'
  end.

Definition normalizePrompt (text : string) : string :=
  JS.prefix_of 200
    (JS.trim
       (JS.text
          (collapse_blanks false
             (strip_punctuation (JS.chars (JS.toLowerCase text)))))).

Definition stopWords : list string :=
  [ "a"; "an"; "the"; "is"; "are"; "was"; "were"; "be"; "been";
    "being"; "have"; "has"; "had"; "do"; "does"; "did"; "will";
    "would"; "could"; "should"; "may"; "might"; "must"; "shall";
    "can"; "dengan"; "dan"; "yang"; "untuk"; "di"; "ke"; "dari";
    "saya"; "mau"; "buatkan"; "tolong"; "buat"; "bikin" ].

Definition keep_word (word : string) : bool :=
  (2 <? Z.of_nat (String.length word)) && negb (bool_decide (word ∈ stopWords)).

Definition tokenize (text : string) : gset string :=
  list_to_set (filter (λ w, keep_word w = true) (JS.split blank (normalizePrompt text))).

(** *** Jaccard similarity; the quotient of the two sizes is a rational. *)

Definition jaccardSimilarity (setA setB : gset string) : Q :=
  if (size setA =? 0)%nat || (size setB =? 0)%nat then 0%Q
  else
    let intersection := length (filter (λ x, x ∈ setB) (elements setA)) in
    let union := size (list_to_set (elements setA ++ elements setB) : gset string) in
    (inject_Z (Z.of_nat intersection) / inject_Z (Z.of_nat union))%Q.

(** *** The job queue

    A row of [job_queue], with [completed_at] in ms since the epoch. *)

Record Job := {
  id : string;
  status : string;
  input_message : option string;
  output_content : option string;
  job_files : option JS.Files;
  completed_at : option Z
}.

Inductive SupabaseClient :=
| QueryFails
| Table (rows : list Job).

Definition HOUR_MS : Z := 3600000.

(** *** The cutoff of the query

    [Date] works on the local time of the host.  [LocalTZA_utc t] is the
    offset of local time from UTC, in ms, at the UTC time [t] and
    [LocalTZA_local t] the offset at the local time [t] (ECMAScript's
    [LocalTZA(t, true)] and [LocalTZA(t, false)]).  [minus a b] is [a - b] as
    the host computes it in doubles, for a whole [a]. *)
Record Host := {
  LocalTZA_utc : Z → Z;
  LocalTZA_local : Z → Z;
  minus : Z → Q → Q
}.

(** [getHours()] of the local time [t]. *)
Definition HourFromTime (t : Z) : Z := (t / HOUR_MS) mod 24.

(** The largest time value of a [Date]; beyond it the date is invalid. *)
Definition MAX_TIME : Z := 8640000000000000.

(** The local time of [new Date()] at [now] after
    [setHours(getHours() - maxAgeHours)]: the day, the minutes, the seconds
    and the ms stay, the hour becomes the difference cut to a whole number. *)
Definition localCutoff (host : Host) (now : Z) (maxAgeHours : Q) : Z :=
  let t := now + LocalTZA_utc host now in
  let hour := JS.truncate (minus host (HourFromTime t) maxAgeHours) in
  t - HourFromTime t * HOUR_MS + hour * HOUR_MS.

(** Lines 92-93 and the [toISOString()] of line 100.  [None]: the date is
    invalid and [toISOString] throws. *)
Definition cutoffDate (host : Host) (now : Z) (maxAgeHours : JS.number) : option Z :=
  match maxAgeHours with
  | JS.NotFinite => None
  | JS.Finite h =>
      let date := localCutoff host now h in
      let u := date - LocalTZA_local host date in
      if Z.abs u <=? MAX_TIME then Some u else None
  end.

Definition completed_since (cutoff : Z) (j : Job) : bool :=
  String.eqb (status j) "completed"
  && match completed_at j with
     | Some t => cutoff <=? t
     | None => false
     end
  && match output_content j with
     | Some _ => true
     | None => false
     end.

Definition newer_first (a b : Job) : Prop :=
  JS.or0 (completed_at b) <= JS.or0 (completed_at a).

#[global] Instance newer_first_dec a b : Decision (newer_first a b).
Proof. unfold newer_first. apply _. Defined.

Definition SCAN_LIMIT : nat := 100.

(** The query of lines 96-103. *)
Definition recent_completed (cutoff : Z) (rows : list Job) : list Job :=
  take SCAN_LIMIT (merge_sort newer_first (filter (λ j, completed_since cutoff j = true) rows)).

Definition Qlt_bool (x y : Q) : bool := negb (Qle_bool y x).

Definition job_similarity (inputTokens : gset string) (job : Job) : option Q :=
  match input_message job with
  | Some msg =>
      if JS.nonempty msg then Some (jaccardSimilarity inputTokens (tokenize msg))
      else None
  | None => None
  end.

(** One turn of the loop of lines 116-132 on [(bestMatch, bestScore)]. *)
Definition scan (inputTokens : gset string) (threshold : Q)
    (best : option CachedResponse * Q) (job : Job) : option CachedResponse * Q :=
  match job_similarity inputTokens job with
  | Some similarity =>
      if Qle_bool threshold similarity && Qlt_bool best.2 similarity then
        (Some {| jobId := id job;
                 outputContent := default "" (output_content job);
                 files := job_files job;
                 completedAt := JS.or0 (completed_at job);
                 similarity := similarity |},
         similarity)
      else best
  | None => best
  end.

Definition bestOf (inputTokens : gset string) (threshold : Q) (jobs : list Job)
  : option CachedResponse :=
  (fold_left (scan inputTokens threshold) jobs (None, 0%Q)).1.

(** Whatever throws inside [findCachedResponse] is caught there, and [null]
    is returned. *)
Definition findCachedResponse (prompt : string) (supabase : SupabaseClient)
    (host : Host) (now : Z) (maxAgeHours : JS.number) (threshold : Q)
  : option CachedResponse :=
  match cutoffDate host now maxAgeHours with
  | None => None
  | Some cutoff =>
      match supabase with
      | QueryFails => None
      | Table rows =>
          match recent_completed cutoff rows with
          | [] => None
          | jobs => bestOf (tokenize prompt) threshold jobs
          end
      end
  end.

(** [hasCachedResponse]: the lookup with its defaults of 72 hours and 0.7. *)
Definition hasCachedResponse (prompt : string) (supabase : SupabaseClient)
    (host : Host) (now : Z) : bool :=
  match findCachedResponse prompt supabase host now (JS.Finite 72) (7 # 10) with
  | Some _ => true
  | None => false
  end.

(** *** What the properties speak of *)

(** A host on UTC whose differences are exact. *)
Definition utc : Host :=
  {| LocalTZA_utc := λ _, 0; LocalTZA_local := λ _, 0;
     minus := λ a b, (inject_Z a - b)%Q |}.

(** The jobs the query of a call returns: none when its cutoff is no date. *)
Definition queried (host : Host) (now : Z) (maxAgeHours : JS.number)
    (rows : list Job) : list Job :=
  match cutoffDate host now maxAgeHours with
  | Some cutoff => recent_completed cutoff rows
  | None => []
  end.

(** The offset of local time is the same at the call and at the cutoff. *)
Definition steady_zone (host : Host) (now : Z) (maxAgeHours : Q) : Prop :=
  LocalTZA_local host (localCutoff host now maxAgeHours) = LocalTZA_utc host now.

(** The difference [getHours() - maxAgeHours], as the host computes it,
    lies between the whole numbers around the exact difference; so it does
    in doubles when [maxAgeHours] is below 2^53 in size. *)
Definition rounded (host : Host) (now : Z) (maxAgeHours : Q) : Prop :=
  let hours := HourFromTime (now + LocalTZA_utc host now) in
  (inject_Z (hours - Qceiling maxAgeHours) <= minus host hours maxAgeHours)%Q
  ∧ (minus host hours maxAgeHours <= inject_Z (hours - Qfloor maxAgeHours))%Q.

(** The record the loop keeps for [job] at similarity [s]. *)
Definition hit (job : Job) (s : Q) : CachedResponse :=
  {| jobId := id job;
     outputContent := default "" (output_content job);
     files := job_files job;
     completedAt := JS.or0 (completed_at job);
     similarity := s |}.

(** A similarity the loop accepts: at least the threshold, and above the
    initial [bestScore] of 0. *)
Definition accepted (threshold s : Q) : Prop := (threshold <= s)%Q ∧ (0 < s)%Q.

#[global] Instance newer_first_total : Total newer_first.
Proof. intros a b. unfold newer_first. lia. Qed.

#[global] Instance newer_first_trans : Transitive newer_first.
Proof. intros a b c. unfold newer_first. lia. Qed.

(** What the loop holds after the jobs [seen]. *)
Definition best_of_seen (tokens : gset string) (threshold : Q) (seen : list Job)
    (best : option CachedResponse * Q) : Prop :=
  match best.1 with
  | None =>
      best.2 = 0%Q
      ∧ ∀ j s, j ∈ seen → job_similarity tokens j = Some s → ¬ accepted threshold s
  | Some r =>
      similarity r = best.2
      ∧ ∃ j, j ∈ seen ∧ r = hit j best.2
             ∧ job_similarity tokens j = Some best.2
             ∧ accepted threshold best.2
             ∧ ∀ j' s, j' ∈ seen → job_similarity tokens j' = Some s → (s <= best.2)%Q
  end.

(** A queue in which a hundred newer jobs stand before the one that asks
    for the same thing as the prompt. *)
Definition filler (i : nat) : Job :=
  {| id := "job-" +:+ pretty i;
     status := "completed";
     input_message := Some "landing page portfolio";
     output_content := Some "Halo!";
     job_files := Some [("/App.tsx", "export default function App() {}")];
     completed_at := Some (1000000 + Z.of_nat i) |}.

Definition first_job : Job :=
  {| id := "job-first";
     status := "completed";
     input_message := Some "todo app react";
     output_content := Some "Halo!";
     job_files := Some [("/App.tsx", "export default function Todo() {}")];
     completed_at := Some 999999 |}.

Definition crowded_queue : list Job := first_job :: map filler (seq 0 100).

(** A character of a token: a lower-case letter, a digit or an underscore. *)
Definition token_char (c : ascii) : bool := JS.is_word c && negb (JS.is_upper c).

(** What the loop holds after the jobs [seen], with the place of the job
    it kept: every job read before that one has a smaller similarity. *)
Definition first_of_best (tokens : gset string) (threshold : Q) (seen : list Job)
    (best : option CachedResponse * Q) : Prop :=
  (∀ j s, j ∈ seen → job_similarity tokens j = Some s →
          (threshold <= s)%Q → (s <= best.2)%Q)
  ∧ match best.1 with
    | None => True
    | Some r =>
        (threshold <= best.2)%Q
        ∧ ∃ before j after,
            seen = (before ++ j :: after)%list
            ∧ r = hit j best.2
            ∧ ∀ j' s, j' ∈ before → job_similarity tokens j' = Some s →
                      (s < best.2)%Q
    end.

(** Two jobs that ask for the same thing, the second completed later. *)
Definition twin (name : string) (t : Z) : Job :=
  {| id := name;
     status := "completed";
     input_message := Some "todo app react";
     output_content := Some ("answer of " +:+ name);
     job_files := None;
     completed_at := Some t |}.

End PersistentCache.

(** ** src/lib/orchestrator/multi-agent.ts *)

Module Orchestrator.

Import JS.

(** *** Types *)

Inductive Priority := high | medium | low.

Module SubTask.
Record t := {
  id : string;
  agent : string;
  description : string;
  dependencies : list string;
  priority : Priority
}.
End SubTask.

Module TaskPlan.
Record t := {
  projectName : string;
  summary : string;
  subTasks : list SubTask.t;
  parallelGroups : list (list string)
}.
End TaskPlan.

Module AgentResult.
Record t := {
  taskId : string;
  agent : string;
  success : bool;
  output : string;
  files : option Files;
  duration : Z
}.
End AgentResult.

Module OrchestratorResult.
Record t := {
  success : bool;
  projectName : string;
  summary : string;
  files : Files;
  agentResults : list AgentResult.t;
  totalDuration : Z
}.
End OrchestratorResult.

(** *** Code that can throw

    [Try A] is a computation that returns an [A] or throws; [let? x := m in k]
    runs [k] when [m] returned and passes the thrown value on otherwise. *)

Definition Try (A : Type) : Type := Thrown + A.

Definition try_bind {A B : Type} (m : Try A) (k : A → Try B) : Try B :=
  match m with
  | inl e => inl e
  | inr a => k a
  end.

Notation "'let?' x := m 'in' k" := (try_bind m (λ x, k))
  (at level 10, x pattern, m at level 100, k at level 200).

(** *** The collaborators

    What lies outside the three files: the generation service behind
    [aiMandor.call], the caches, quota and analytics, the progress callback,
    the final verifier, and the timers the calls race against. *)

(** The fixed points at which [onProgress] is called. *)
Inductive Milestone :=
| CachedResult
| Decomposing
| Executing
| GroupStart (i : nat)
| Verifying
| Merging.

(** The course of one [executeAgent]: the checks before its [try] block
    throw, or the generation call returns a text, or a call inside the [try]
    block throws. *)
Inductive AgentRun :=
| Refused (e : Thrown)
| Answered (text : string) (elapsed : Z)
| Failed (e : Thrown) (elapsed : Z).

(** [{ files, verified, attempts }] of [verifyAndFix]. *)
Record Healed := {
  fixedFiles : Files;
  verified : bool;
  attempts : nat
}.

(** What [JSON.parse] finds in the reply of the merge specialist: no JSON;
    an object whose [files] is absent or falsy; or a truthy [files], of which
    [Object.assign] copies the own properties, whatever they hold: those of
    an object, and none of a number or of [true].  The names of these
    properties are taken not to be integer-like, as the paths are; so a
    [files] that is an array or a string, whose properties are its indices,
    is left out. *)
Inductive Resolution :=
| BadJSON
| NoFiles
| Resolved (files : Entries).

(** [cachedResult.response] of the in-process and the semantic cache. *)
Record CachedEntry := {
  cached_projectName : option string;
  cached_summary : option string;
  cached_files : option Files
}.

Record FinalVerification := {
  verified_files : Files;
  greeting : string
}.

Record World := {
  enableLogging : bool;
  clock : Z;
  elapsed : Z;
  onProgress : option (Milestone → option Thrown);
  (** lines 1291-1429 *)
  extractFiles : string → Files;
  (** persistent, in-process and semantic cache *)
  host : PersistentCache.Host;
  createClient : Try PersistentCache.SupabaseClient;
  responseCache_findSimilar : string → Try (option CachedEntry);
  semanticCache_findSimilar : string → Try (option CachedEntry);
  responseCache_set : string → OrchestratorResult.t → Try unit;
  trackSessionStart : Try unit;
  (** decomposition *)
  callDecompose : string → Try string;
  safeParseJSON : string → option TaskPlan.t;
  (** agents and the 60 s timer *)
  agentRun : SubTask.t → list AgentResult.t → AgentRun;
  agentInTime : SubTask.t → list AgentResult.t → bool;
  (** verification and the 45 s timer *)
  verifyInTime : list AgentResult.t → bool;
  callVerify : AgentResult.t → SubTask.t → Try string;
  verifyAndFix : Files → Try Healed;
  (** merge specialist *)
  MERGE_SPECIALIST_PROMPT : string;
  callMergeSpecialist : string → Try string;
  parseResolution : string → Resolution;
  finalVerify : Files → string → Try FinalVerification
}.

(** [if (onProgress) await onProgress(...)] *)
Definition progress (w : World) (m : Milestone) : Try unit :=
  match onProgress w with
  | Some callback =>
      match callback m with
      | Some e => inl e
      | None => inr ()
      end
  | None => inr ()
  end.

(** *** decompose *)

Definition open_brace : ascii := ascii_of_N 123.
Definition close_brace : ascii := ascii_of_N 125.

Fixpoint drop_until (c : ascii) (l : list ascii) : list ascii :=
  match l with
  | [] => []
  | x :: l' => if Ascii.eqb x c then l else drop_until c l'
  end.

(** [s.match(/\{[\s\S]*\}/)]: from the first opening brace to the last
    closing brace after it. *)
Definition match_braces (s : string) : option string :=
  match rev (drop_until close_brace (rev (drop_until open_brace (chars s)))) with
  | [] => None
  | l => Some (text l)
  end.

Definition decompose (w : World) (userRequest : string) : Try TaskPlan.t :=
  let? result := callDecompose w userRequest in
  match match_braces result with
  | None => inl (ErrorObj "Failed to parse task decomposition")
  | Some jsonMatch =>
      match safeParseJSON w jsonMatch with
      | None => inl (ErrorObj "Failed to parse task decomposition JSON")
      | Some plan => inr plan
      end
  end.

(** *** executeAgent and executeParallel *)

Definition AGENT_TIMEOUT : Z := 60000.

Definition executeAgent (w : World) (task : SubTask.t)
    (previousResults : list AgentResult.t) : Try AgentResult.t :=
  match agentRun w task previousResults with
  | Refused e => inl e
  | Answered result d =>
      inr {| AgentResult.taskId := SubTask.id task;
             AgentResult.agent := SubTask.agent task;
             AgentResult.success := true;
             AgentResult.output := result;
             AgentResult.files := Some (extractFiles w result);
             AgentResult.duration := d |}
  | Failed e d =>
      inr {| AgentResult.taskId := SubTask.id task;
             AgentResult.agent := SubTask.agent task;
             AgentResult.success := false;
             AgentResult.output := error_message e;
             AgentResult.files := None;
             AgentResult.duration := d |}
  end.

(** The result the [catch] of lines 962-973 builds. *)
Definition failedResult (task : SubTask.t) (error : Thrown) : AgentResult.t :=
  {| AgentResult.taskId := SubTask.id task;
     AgentResult.agent := SubTask.agent task;
     AgentResult.success := false;
     AgentResult.output := "Error: " +:+ error_message error;
     AgentResult.files := Some [];
     AgentResult.duration := AGENT_TIMEOUT |}.

Definition timeoutError (task : SubTask.t) : Thrown :=
  ErrorObj ("Agent " +:+ SubTask.agent task +:+ " timeout after 60s").

(** [Promise.race([executeAgent(...), timeoutPromise])] *)
Definition raceAgent (w : World) (task : SubTask.t)
    (allResults : list AgentResult.t) : Try AgentResult.t :=
  if agentInTime w task allResults then executeAgent w task allResults
  else inl (timeoutError task).

(** The body of the [map] of lines 952-974. *)
Definition runTask (w : World) (allResults : list AgentResult.t)
    (task : SubTask.t) : AgentResult.t :=
  match raceAgent w task allResults with
  | inr r => r
  | inl error => failedResult task error
  end.

Definition tasksToRun (plan : TaskPlan.t) (group : list string) : list SubTask.t :=
  filter (λ t, SubTask.id t ∈ group) (TaskPlan.subTasks plan).

(** [Promise.all] keeps the order of [tasksToRun]. *)
Definition groupResults (w : World) (plan : TaskPlan.t)
    (allResults : list AgentResult.t) (group : list string) : list AgentResult.t :=
  map (runTask w allResults) (tasksToRun plan group).

Fixpoint executeGroups (w : World) (plan : TaskPlan.t) (i : nat)
    (groups : list (list string)) (allResults : list AgentResult.t)
  : Try (list AgentResult.t) :=
  match groups with
  | [] => inr allResults
  | group :: groups' =>
      let? _ := progress w (GroupStart i) in
      executeGroups w plan (S i) groups'
        (allResults ++ groupResults w plan allResults group)
  end.

Definition executeParallel (w : World) (plan : TaskPlan.t) : Try (list AgentResult.t) :=
  executeGroups w plan 0 (TaskPlan.parallelGroups plan) [].


(** *** verifyChain *)

Definition isCodingAgent (r : AgentResult.t) : bool :=
  bool_decide (AgentResult.agent r ∈ ["frontend"; "backend"; "database"; "design"]).

(** [Object.entries(fixedFiles).map(...).join('\n\n')] *)
Definition regenerateOutput (fixedFiles : Files) : string :=
  join (nl +:+ nl) (map (λ pc, "// " +:+ pc.1 +:+ nl +:+ pc.2) fixedFiles).

Definition withVerified (result : AgentResult.t) (verifiedOutput : string)
    (verifiedFiles : Files) : AgentResult.t :=
  {| AgentResult.taskId := AgentResult.taskId result;
     AgentResult.agent := AgentResult.agent result +:+ "+verified";
     AgentResult.success := AgentResult.success result;
     AgentResult.output := verifiedOutput;
     AgentResult.files := Some verifiedFiles;
     AgentResult.duration := AgentResult.duration result |}.

(** The body of the [map] of lines 1470-1558. *)
Definition verifyOne (w : World) (plan : TaskPlan.t) (result : AgentResult.t)
  : AgentResult.t :=
  match find (λ t, String.eqb (SubTask.id t) (AgentResult.taskId result))
             (TaskPlan.subTasks plan) with
  | None => result
  | Some task =>
      match callVerify w result task with
      | inl _ => result
      | inr verifiedOutput =>
          let verifiedFiles := extractFiles w verifiedOutput in
          if bool_decide (AgentResult.agent result ∈ ["frontend"; "backend"])
             && (0 <? Z.of_nat (length (files_keys verifiedFiles))) then
            match verifyAndFix w verifiedFiles with
            | inr healed =>
                if verified healed then
                  withVerified result (regenerateOutput (fixedFiles healed))
                    (fixedFiles healed)
                else withVerified result verifiedOutput (fixedFiles healed)
            | inl _ => withVerified result verifiedOutput verifiedFiles
            end
          else withVerified result verifiedOutput verifiedFiles
      end
  end.

Definition doVerifyChain (w : World) (plan : TaskPlan.t)
    (results : list AgentResult.t) : list AgentResult.t :=
  let tasksToVerify := filter (λ r, isCodingAgent r = true) results in
  let skippedTasks := filter (λ r, isCodingAgent r = false) results in
  skippedTasks ++ map (verifyOne w plan) tasksToVerify.

(** The race against the 45 s timer; the [catch] returns the results as
    they came in. *)
Definition verifyChain (w : World) (plan : TaskPlan.t)
    (results : list AgentResult.t) : list AgentResult.t :=
  if verifyInTime w results then doVerifyChain w plan results else results.

(** *** merge *)

Record Conflict := {
  filename : string;
  sources : list AgentResult.t
}.

Definition forbiddenPaths : list string :=
  ["prisma/"; "server/"; "api/"; ".env"; "docker"; "/migrations/"; "schema.prisma"].

Definition isForbidden (filename : string) : bool :=
  existsb (λ fp, includes (toLowerCase filename) fp) forbiddenPaths.

(** Lines 1593-1598: push the result on the first conflict of that file,
    or record a new conflict. *)
Fixpoint noteConflict (conflicts : list Conflict) (filename0 : string)
    (result : AgentResult.t) : list Conflict :=
  match conflicts with
  | [] => [{| filename := filename0; sources := [result] |}]
  | c :: conflicts' =>
      if String.eqb (filename c) filename0 then
        {| filename := filename c; sources := sources c ++ [result] |} :: conflicts'
      else c :: noteConflict conflicts' filename0 result
  end.

(** The body of the inner loop, lines 1581-1601. *)
Definition mergeEntry (result : AgentResult.t)
    (acc : Files * list Conflict) (entry : string * string)
  : Files * list Conflict :=
  let '(allFiles, conflicts) := acc in
  let '(filename0, content) := entry in
  if isForbidden filename0 then acc
  else
    let conflicts' :=
      match files_get allFiles filename0 with
      | Some existing =>
          if nonempty existing && negb (String.eqb existing content)
          then noteConflict conflicts filename0 result
          else conflicts
      | None => conflicts
      end in
    (files_set allFiles filename0 content, conflicts').

Definition mergeResult (acc : Files * list Conflict) (result : AgentResult.t)
  : Files * list Conflict :=
  match AgentResult.files result with
  | Some fs => fold_left (mergeEntry result) fs acc
  | None => acc
  end.

(** The loop of lines 1579-1603: the union and the conflicts it records. *)
Definition collect (results : list AgentResult.t) : Files * list Conflict :=
  fold_left mergeResult results ([], []).

Definition conflictSummary (conflicts : list Conflict) : string :=
  join nl
    (map (λ c, "File: " +:+ filename c +:+ " (" +:+ pretty (length (sources c))
               +:+ " versions from: "
               +:+ join ", " (map AgentResult.agent (sources c)) +:+ ")")
         conflicts).

Definition filePreviews (allFiles : Files) : string :=
  join (nl +:+ nl)
    (map (λ fc, "--- " +:+ fc.1 +:+ " ---" +:+ nl +:+ prefix_of 500 fc.2 +:+ "...")
         allFiles).

Definition mergePrompt (w : World) (allFiles : Files) (conflicts : list Conflict)
  : string :=
  MERGE_SPECIALIST_PROMPT w +:+ nl +:+ nl
  +:+ "Conflicts detected:" +:+ nl +:+ conflictSummary conflicts +:+ nl +:+ nl
  +:+ "Current files:" +:+ nl +:+ filePreviews allFiles +:+ nl +:+ nl
  +:+ "Return resolved files as JSON.".

(** Lines 1632-1644: what the reply changes in the union. *)
Definition applyResolution (w : World) (allFiles : Entries) (reply : string) : Entries :=
  match match_braces reply with
  | Some jsonMatch =>
      match parseResolution w jsonMatch with
      | Resolved files => entries_assign allFiles files
      | NoFiles => allFiles
      | BadJSON => allFiles
      end
  | None => allFiles
  end.

Definition toUpperCase (s : string) : string :=
  text (map (λ c, if is_lower c then ascii_of_N (N_of_ascii c - 32) else c) (chars s)).

Definition combinedOutput (results : list AgentResult.t) : string :=
  join (nl +:+ nl +:+ "---" +:+ nl +:+ nl)
    (map (λ r, "## " +:+ toUpperCase (AgentResult.agent r) +:+ nl +:+ nl
               +:+ AgentResult.output r)
         (filter (λ r, AgentResult.success r = true) results)).

(** What [merge] returns, [files], together with the conflicts it recorded
    and the prompts of the specialist calls it issued.  The files are
    declared as texts; after [Object.assign] with the reply of the
    specialist they hold whatever the reply held. *)
Record Merged := {
  files : Entries;
  conflicts : list Conflict;
  specialistCalls : list string
}.

Definition merge (w : World) (plan : TaskPlan.t) (results : list AgentResult.t)
  : Merged :=
  let '(allFiles, conflicts0) := collect results in
  let '(resolvedFiles, calls) :=
    if (0 <? Z.of_nat (length conflicts0)) && enableLogging w then
      let prompt := mergePrompt w allFiles conflicts0 in
      match callMergeSpecialist w prompt with
      | inr resolution => (applyResolution w (texts allFiles) resolution, [prompt])
      | inl _ => (texts allFiles, [prompt])
      end
    else (texts allFiles, []) in
  let finalFiles :=
    match entries_keys resolvedFiles with
    | [] => entries_set resolvedFiles "output.md" (Text (combinedOutput results))
    | _ => resolvedFiles
    end in
  {| files := finalFiles; conflicts := conflicts0; specialistCalls := calls |}.

(** *** orchestrate *)

Fixpoint drop_digits (l : list ascii) : list ascii :=
  match l with
  | [] => []
  | c :: l' => if is_digit c then drop_digits l' else l
  end.

(** [/^stem\d+\.json$/i.test(filename)] for a lower-case [stem]. *)
Definition numberedJson (stem filename : string) : bool :=
  let l := chars (toLowerCase filename) in
  let rest := drop (String.length stem) l in
  let tail := drop_digits rest in
  String.eqb (text (take (String.length stem) l)) stem
  && (length tail <? length rest)%nat
  && String.eqb (text tail) ".json".

(** [path.split('/').pop() || path] *)
Definition baseName (path : string) : string :=
  let name := List.last (split (ascii_of_N 47) path) "" in
  if nonempty name then name else path.

Definition isPlaceholder (trimmed : string) : bool :=
  bool_decide (trimmed ∈ ["..."; "// TODO"; "/* TODO */"]).


(** The junk file filter of lines 307-320.  The name is tested first; then
    [content.trim()] throws on a content that is no string, and the error
    leaves the loop. *)
Fixpoint cleanFiles (files : Entries) : Try Files :=
  match files with
  | [] => inr []
  | (path, content) :: rest =>
      if numberedJson "file" (baseName path) || numberedJson "data" (baseName path)
      then cleanFiles rest
      else
        match content with
        | NotText message => inl (ErrorObj message)
        | Text content =>
            let trimmed := trim content in
            if isPlaceholder trimmed || (String.length trimmed =? 0)%nat
            then cleanFiles rest
            else
              let? cleanedFiles := cleanFiles rest in
              inr ((path, content) :: cleanedFiles)
        end
  end.

(** [x || fallback] on an optional string. *)
Definition orElse (x : option string) (fallback : string) : string :=
  match x with
  | Some s => if nonempty s then s else fallback
  | None => fallback
  end.

Definition cachedResult (w : World) (projectName summary : string) (files : Files)
  : OrchestratorResult.t :=
  {| OrchestratorResult.success := true;
     OrchestratorResult.projectName := projectName;
     OrchestratorResult.summary := summary;
     OrchestratorResult.files := files;
     OrchestratorResult.agentResults := [];
     OrchestratorResult.totalDuration := elapsed w |}.

(** Lines 171-191.  Whatever throws inside the block is caught there and
    the lookup goes on with the in-process cache. *)
Definition persistentLookup (w : World) (userRequest : string)
  : option OrchestratorResult.t :=
  match createClient w with
  | inl _ => None
  | inr supabase =>
      match PersistentCache.findCachedResponse userRequest supabase (host w) (clock w)
              (Finite 72) (7 # 10) with
      | Some persistentResult =>
          match PersistentCache.files persistentResult with
          | Some files =>
              match progress w CachedResult with
              | inr _ =>
                  Some (cachedResult w "cached-project"
                          (orElse (Some (PersistentCache.outputContent persistentResult))
                                  "Cached response from previous request")
                          files)
              | inl _ => None
              end
          | None => None
          end
      | None => None
      end
  end.

(** The steps of lines 284-374, after the three caches missed. *)
Definition generate (w : World) (userRequest : string) : Try OrchestratorResult.t :=
  let? _ := trackSessionStart w in
  let? _ := progress w Decomposing in
  let? plan := decompose w userRequest in
  let? _ := progress w Executing in
  let? workerResults := executeParallel w plan in
  let? _ := progress w Verifying in
  let verifiedResults := verifyChain w plan workerResults in
  let? _ := progress w Merging in
  let merged := merge w plan verifiedResults in
  let? cleanedFiles := cleanFiles (files merged) in
  let? verificationResult := finalVerify w cleanedFiles userRequest in
  let finalResult :=
    {| OrchestratorResult.success := true;
       OrchestratorResult.projectName := TaskPlan.projectName plan;
       OrchestratorResult.summary := greeting verificationResult;
       OrchestratorResult.files := verified_files verificationResult;
       OrchestratorResult.agentResults := verifiedResults;
       OrchestratorResult.totalDuration := elapsed w |} in
  let? _ := responseCache_set w userRequest finalResult in
  inr finalResult.

(** The [try] block of [orchestrate].  The trace logger catches its own
    errors, and the knowledge-base and auto-agent steps catch theirs; they
    change prompts only and are left out. *)
Definition orchestrateTry (w : World) (userRequest : string) : Try OrchestratorResult.t :=
  match persistentLookup w userRequest with
  | Some cached => inr cached
  | None =>
      let? similar := responseCache_findSimilar w userRequest in
      match similar with
      | Some c =>
          let? _ := progress w CachedResult in
          inr (cachedResult w (orElse (cached_projectName c) "cached-project")
                 (orElse (cached_summary c) "Cached response")
                 (default [] (cached_files c)))
      | None =>
          let? semantic := semanticCache_findSimilar w userRequest in
          match semantic with
          | Some c =>
              inr (cachedResult w (orElse (cached_projectName c) "cached-project")
                     (orElse (cached_summary c) "Cached response (semantic match)")
                     (default [] (cached_files c)))
          | None => generate w userRequest
          end
      end
  end.

(** The object the [catch] of lines 376-393 returns. *)
Definition errorResult (w : World) (error : Thrown) : OrchestratorResult.t :=
  {| OrchestratorResult.success := false;
     OrchestratorResult.projectName := "error";
     OrchestratorResult.summary := error_message error;
     OrchestratorResult.files := [];
     OrchestratorResult.agentResults := [];
     OrchestratorResult.totalDuration := elapsed w |}.

Definition orchestrate (w : World) (userRequest : string) : OrchestratorResult.t :=
  match orchestrateTry w userRequest with
  | inr result => result
  | inl error => errorResult w error
  end.

(** *** What the properties speak of *)

(** The plan invariant: every id of a group is the id of a task, every
    task is in exactly one group, and the dependencies of a task are all in
    groups before its own. *)
Definition groupsOf (plan : TaskPlan.t) (id : string) : list (list string) :=
  filter (λ g, id ∈ g) (TaskPlan.parallelGroups plan).

Definition groupIndex (plan : TaskPlan.t) (id : string) : option nat :=
  fst <$> list_find (λ g, id ∈ g) (TaskPlan.parallelGroups plan).

Definition dependenciesEarlier (plan : TaskPlan.t) (t : SubTask.t) : bool :=
  match groupIndex plan (SubTask.id t) with
  | Some i =>
      forallb
        (λ d, existsb (λ g, bool_decide (d ∈ g)) (take i (TaskPlan.parallelGroups plan)))
        (SubTask.dependencies t)
  | None => false
  end.

Definition planInvariant (plan : TaskPlan.t) : bool :=
  forallb
    (λ g, forallb (λ id, bool_decide (id ∈ map SubTask.id (TaskPlan.subTasks plan))) g)
    (TaskPlan.parallelGroups plan)
  && forallb (λ t, (length (groupsOf plan (SubTask.id t)) =? 1)%nat)
       (TaskPlan.subTasks plan)
  && forallb (dependenciesEarlier plan) (TaskPlan.subTasks plan).

(** The results of the groups when no progress callback throws. *)
Fixpoint resultsOfGroups (w : World) (plan : TaskPlan.t)
    (groups : list (list string)) (allResults : list AgentResult.t)
  : list AgentResult.t :=
  match groups with
  | [] => allResults
  | group :: groups' =>
      resultsOfGroups w plan groups'
        (allResults ++ groupResults w plan allResults group)
  end.


(** The ids of the tasks, group after group, and inside a group in the
    order of the task list. *)
Definition scheduledIds (plan : TaskPlan.t) : list string :=
  flat_map (λ g, map SubTask.id (tasksToRun plan g)) (TaskPlan.parallelGroups plan).

(** What the results write at path [f], in the order the loop of [merge]
    meets it: the result and its content. *)
Definition entriesAt (f : string) (result : AgentResult.t)
  : list (AgentResult.t * string) :=
  match AgentResult.files result with
  | Some fs => map (λ e, (result, e.2)) (filter (λ e, e.1 = f) fs)
  | None => []
  end.

Definition contributions (f : string) (results : list AgentResult.t)
  : list (AgentResult.t * string) :=
  flat_map (entriesAt f) results.

(** The content held at a path and the results that overwrote a different,
    non-empty content there. *)
Definition overwrite (st : option string * list AgentResult.t)
    (rc : AgentResult.t * string) : option string * list AgentResult.t :=
  (Some rc.2,
   match st.1 with
   | Some held =>
       if nonempty held && negb (String.eqb held rc.2) then (st.2 ++ [rc.1])%list
       else st.2
   | None => st.2
   end).

Definition sourcesAt (conflicts : list Conflict) (f : string) : list AgentResult.t :=
  match find (λ c, String.eqb (filename c) f) conflicts with
  | Some c => sources c
  | None => []
  end.

(** No progress callback of [executeParallel] throws. *)
Definition quiet (w : World) : Prop := ∀ i, progress w (GroupStart i) = inr ().

(** What the loop of [merge] holds for path [f]. *)
Definition heldAt (acc : Files * list Conflict) (f : string)
  : option string * list AgentResult.t :=
  (files_get acc.1 f, sourcesAt acc.2 f).



(** *** Worlds to run the code in *)

Definition offline : Thrown := ErrorObj "fetch failed".

(** A world whose caches miss, that decomposes every request into [plan]
    and whose agents run as [run] says, in time when [inTime] says so; no
    verification, no specialist; the final verifier hands the files back. *)
Definition worldOf (logging : bool) (plan : option TaskPlan.t)
    (run : SubTask.t → AgentRun) (inTime : SubTask.t → bool) : World :=
  {| enableLogging := logging;
     clock := 1000000;
     elapsed := 1500;
     onProgress := None;
     extractFiles := λ _, [];
     host := PersistentCache.utc;
     createClient := inr (PersistentCache.Table []);
     responseCache_findSimilar := λ _, inr None;
     semanticCache_findSimilar := λ _, inr None;
     responseCache_set := λ _ _, inr ();
     trackSessionStart := inr ();
     callDecompose := λ _, inr "{}";
     safeParseJSON := λ _, plan;
     agentRun := λ t _, run t;
     agentInTime := λ t _, inTime t;
     verifyInTime := λ _, true;
     callVerify := λ _ _, inl offline;
     verifyAndFix := λ _, inl offline;
     MERGE_SPECIALIST_PROMPT := "You are the Code Merger for WebContainer applications.";
     callMergeSpecialist := λ _, inl offline;
     parseResolution := λ _, BadJSON;
     finalVerify := λ files _, inr {| verified_files := files; greeting := "Halo!" |} |}.

(** A world like that whose job queue holds [rows]. *)
Definition cacheWorld (rows : list PersistentCache.Job) : World :=
  {| enableLogging := false;
     clock := 1000000;
     elapsed := 1500;
     onProgress := None;
     extractFiles := λ _, [];
     host := PersistentCache.utc;
     createClient := inr (PersistentCache.Table rows);
     responseCache_findSimilar := λ _, inr None;
     semanticCache_findSimilar := λ _, inr None;
     responseCache_set := λ _ _, inr ();
     trackSessionStart := inr ();
     callDecompose := λ _, inl offline;
     safeParseJSON := λ _, None;
     agentRun := λ _ _, Refused offline;
     agentInTime := λ _ _, true;
     verifyInTime := λ _, true;
     callVerify := λ _ _, inl offline;
     verifyAndFix := λ _, inl offline;
     MERGE_SPECIALIST_PROMPT := "You are the Code Merger for WebContainer applications.";
     callMergeSpecialist := λ _, inl offline;
     parseResolution := λ _, BadJSON;
     finalVerify := λ files _, inr {| verified_files := files; greeting := "Halo!" |} |}.

Definition task (id agent : string) (deps : list string) : SubTask.t :=
  {| SubTask.id := id; SubTask.agent := agent; SubTask.description := "build " +:+ id;
     SubTask.dependencies := deps; SubTask.priority := high |}.

(** A successful result of task [taskId] that holds [files]. *)
Definition resultOf (taskId agent : string) (files : Files) : AgentResult.t :=
  {| AgentResult.taskId := taskId; AgentResult.agent := agent;
     AgentResult.success := true; AgentResult.output := "Halo!";
     AgentResult.files := Some files; AgentResult.duration := 1200 |}.

(** Two versions of one file, and an empty one. *)
Definition appOne : AgentResult.t :=
  resultOf "frontend-1" "frontend"
    [("/App.tsx", "export default function App() { return 1 }")].

Definition appTwo : AgentResult.t :=
  resultOf "frontend-2" "frontend"
    [("/App.tsx", "export default function App() { return 2 }")].

Definition appEmpty : AgentResult.t :=
  resultOf "frontend-1" "frontend" [("/App.tsx", "")].

(** The plan of the end-to-end scenario: a design task, then two frontend
    tasks that depend on it. *)
Definition todoPlan : TaskPlan.t :=
  {| TaskPlan.projectName := "todo-app";
     TaskPlan.summary := "A todo app";
     TaskPlan.subTasks :=
       [task "design" "design" []; task "frontend-1" "frontend" ["design"];
        task "frontend-2" "frontend" ["design"]];
     TaskPlan.parallelGroups := [["design"]; ["frontend-1"; "frontend-2"]] |}.

(** A plan whose task list names the page before the data it depends on. *)
Definition pageDataPlan : TaskPlan.t :=
  {| TaskPlan.projectName := "dashboard";
     TaskPlan.summary := "A dashboard";
     TaskPlan.subTasks := [task "page" "frontend" ["data"]; task "data" "backend" []];
     TaskPlan.parallelGroups := [["data"]; ["page"]] |}.







End Orchestrator.

(** ** The trace logger (src/unnamed/part_001) *)

Module TraceLogger.

(** A value of a [details] object, and whether it is truthy. *)
Inductive Value :=
| VUndefined
| VBool (b : bool)
| VNum (n : Z)
| VStr (s : string).

Definition truthy (v : Value) : bool :=
  match v with
  | VUndefined => false
  | VBool b => b
  | VNum n => negb (n =? 0)
  | VStr s => JS.nonempty s
  end.

Definition Details : Type := list (string * Value).

Fixpoint field (d : Details) (k : string) : Value :=
  match d with
  | [] => VUndefined
  | (k', v) :: d' => if String.eqb k' k then v else field d' k
  end.

(** [details?.waited] *)
Definition details_waited (details : option Details) : bool :=
  match details with
  | Some d => truthy (field d "waited")
  | None => false
  end.

Record TraceStep := {
  timestamp : Z;
  step : string;
  result : string;
  details : option Details;
  duration_ms : option Z
}.

Inductive Mode := fast | planning.

Record TraceContext := {
  id : string;
  job_id : string;
  session_id : option string;
  user_id : option string;
  agent_type : string;
  mode : Mode;
  prompt_preview : string;
  steps : list TraceStep;
  start_time : Z;
  cache_hits : nat;
  cache_misses : nat;
  rate_limit_waits : nat
}.

Inductive Status := success | error.

Definition status_name (s : Status) : string :=
  match s with
  | success => "success"
  | error => "error"
  end.

Record Summary := {
  summary_file_count : option Z;
  summary_error_message : option string
}.

(** What the logger sends to the table [request_traces]. *)
Record Inserted := {
  ins_id : string;
  ins_job_id : string;
  ins_prompt_preview : string
}.

Record Updated := {
  upd_id : string;
  upd_steps : list TraceStep;
  upd_status : Status;
  upd_total_duration_ms : Z;
  upd_file_count : Z;
  upd_cache_hits : nat;
  upd_cache_misses : nat;
  upd_rate_limit_waits : nat;
  upd_error_message : option string
}.

Inductive Write :=
| Insert (row : Inserted)
| Update (row : Updated).

(** The module state: [activeTraces], and the writes sent so far, the
    first one first.  A write that fails is caught and logged; it changes
    nothing here. *)
Record Logger := {
  activeTraces : gmap string TraceContext;
  sent : list Write
}.

Definition empty_logger : Logger := {| activeTraces := ∅; sent := [] |}.

Definition START : string := "start".
Definition RATE_LIMIT : string := "rate_limit".
Definition COMPLETE : string := "complete".
Definition ERROR : string := "error".

Definition is_cache_step (stepName : string) : bool := String.prefix "cache_" stepName.

Definition pushStep (context : TraceContext) (s : TraceStep) : TraceContext :=
  {| id := id context;
     job_id := job_id context;
     session_id := session_id context;
     user_id := user_id context;
     agent_type := agent_type context;
     mode := mode context;
     prompt_preview := prompt_preview context;
     steps := steps context ++ [s];
     start_time := start_time context;
     cache_hits :=
       if is_cache_step (step s) && String.eqb (result s) "hit"
       then S (cache_hits context) else cache_hits context;
     cache_misses :=
       if is_cache_step (step s) && String.eqb (result s) "hit"
       then cache_misses context
       else if is_cache_step (step s) && String.eqb (result s) "miss"
       then S (cache_misses context) else cache_misses context;
     rate_limit_waits :=
       if String.eqb (step s) RATE_LIMIT && details_waited (details s)
       then S (rate_limit_waits context) else rate_limit_waits context |}.

Definition addStep (st : Logger) (traceId stepName resultName : string)
    (details0 : option Details) (durationMs : option Z) (now : Z) : Logger :=
  match activeTraces st !! traceId with
  | None => st
  | Some context =>
      let traceStep :=
        {| timestamp := now; step := stepName; result := resultName;
           details := details0; duration_ms := durationMs |} in
      {| activeTraces := <[traceId := pushStep context traceStep]> (activeTraces st);
         sent := sent st |}
  end.

(** [traceId] is what [crypto.randomUUID()] returns; [configured] says
    whether the database client exists.  [now] is the reading of the clock
    that becomes [start_time]; the start step is stamped at that reading
    too, the two readings being taken in the same turn. *)
Definition startTrace (st : Logger) (traceId jobId : string)
    (sessionId userId : option string) (agentType : string) (mode0 : Mode)
    (prompt : string) (now : Z) (configured : bool) : Logger * string :=
  let context :=
    {| id := traceId; job_id := jobId; session_id := sessionId; user_id := userId;
       agent_type := agentType; mode := mode0;
       prompt_preview := JS.prefix_of 200 prompt;
       steps := []; start_time := now;
       cache_hits := 0; cache_misses := 0; rate_limit_waits := 0 |} in
  let st1 :=
    {| activeTraces := <[traceId := context]> (activeTraces st); sent := sent st |} in
  let st2 :=
    addStep st1 traceId START "initiated"
      (Some [("agent", VStr agentType);
             ("mode", VStr (match mode0 with fast => "fast" | planning => "planning" end));
             ("prompt_length", VNum (Z.of_nat (String.length prompt)))])
      None now in
  let st3 :=
    if configured then
      {| activeTraces := activeTraces st2;
         sent := sent st2 ++ [Insert {| ins_id := traceId; ins_job_id := jobId;
                                        ins_prompt_preview := JS.prefix_of 200 prompt |}] |}
    else st2 in
  (st3, traceId).

Definition endTrace (st : Logger) (traceId : string) (status : Status)
    (summary : option Summary) (now : Z) (configured : bool) : Logger :=
  match activeTraces st !! traceId with
  | None => st
  | Some context =>
      let totalDuration := now - start_time context in
      let st1 :=
        addStep st traceId
          (match status with success => COMPLETE | error => ERROR end)
          (status_name status)
          (Some [("total_ms", VNum totalDuration);
                 ("files", match summary ≫= summary_file_count with
                           | Some n => VNum n
                           | None => VUndefined
                           end);
                 ("error", match summary ≫= summary_error_message with
                           | Some m => VStr m
                           | None => VUndefined
                           end)])
          None now in
      (* [context] is the object held in the map: it has the new step *)
      let written :=
        match activeTraces st1 !! traceId with
        | Some context1 =>
            [Update {| upd_id := traceId;
                       upd_steps := steps context1;
                       upd_status := status;
                       upd_total_duration_ms := totalDuration;
                       upd_file_count := JS.or0 (summary ≫= summary_file_count);
                       upd_cache_hits := cache_hits context1;
                       upd_cache_misses := cache_misses context1;
                       upd_rate_limit_waits := rate_limit_waits context1;
                       upd_error_message := summary ≫= summary_error_message |}]
        | None => []
        end in
      {| activeTraces := delete traceId (activeTraces st1);
         sent := if configured then sent st1 ++ written else sent st1 |}
  end.

Definition getTrace (st : Logger) (traceId : string) : option TraceContext :=
  activeTraces st !! traceId.

(** *** Sequences of calls *)

Inductive Call :=
| StartTrace (traceId jobId : string) (sessionId userId : option string)
    (agentType : string) (mode0 : Mode) (prompt : string) (now : Z) (configured : bool)
| AddStep (traceId stepName resultName : string) (details0 : option Details)
    (durationMs : option Z) (now : Z)
| EndTrace (traceId : string) (status : Status) (summary : option Summary)
    (now : Z) (configured : bool).

Definition call (st : Logger) (c : Call) : Logger :=
  match c with
  | StartTrace traceId jobId sessionId userId agentType mode0 prompt now configured =>
      (startTrace st traceId jobId sessionId userId agentType mode0 prompt now
         configured).1
  | AddStep traceId stepName resultName details0 durationMs now =>
      addStep st traceId stepName resultName details0 durationMs now
  | EndTrace traceId status summary now configured =>
      endTrace st traceId status summary now configured
  end.

Definition calls (st : Logger) (cs : list Call) : Logger := fold_left call cs st.

Definition call_trace (c : Call) : string :=
  match c with
  | StartTrace traceId _ _ _ _ _ _ _ _ => traceId
  | AddStep traceId _ _ _ _ _ => traceId
  | EndTrace traceId _ _ _ _ => traceId
  end.

(** *** What the properties speak of *)

Definition is_hit (s : TraceStep) : bool :=
  is_cache_step (step s) && String.eqb (result s) "hit".

Definition is_miss (s : TraceStep) : bool :=
  is_cache_step (step s) && String.eqb (result s) "miss".

Definition is_wait (s : TraceStep) : bool :=
  String.eqb (step s) RATE_LIMIT && details_waited (details s).

Definition count (P : TraceStep → bool) (l : list TraceStep) : nat :=
  length (filter (λ s, P s = true) l).

(** The counters of a trace say what its steps say, and the first step is
    the start step. *)
Definition counted (l : list TraceStep) (hits misses waits : nat) : Prop :=
  hits = count is_hit l ∧ misses = count is_miss l ∧ waits = count is_wait l
  ∧ ∃ first rest, l = first :: rest ∧ step first = START ∧ result first = "initiated".

Definition context_ok (traceId : string) (c : TraceContext) : Prop :=
  id c = traceId
  ∧ counted (steps c) (cache_hits c) (cache_misses c) (rate_limit_waits c).

Definition write_ok (wr : Write) : Prop :=
  match wr with
  | Insert _ => True
  | Update u =>
      counted (upd_steps u) (upd_cache_hits u) (upd_cache_misses u)
        (upd_rate_limit_waits u)
      ∧ ∃ l s, upd_steps u = (l ++ [s])%list
               ∧ step s = match upd_status u with success => COMPLETE | error => ERROR end
               ∧ result s = status_name (upd_status u)
  end.

Definition logger_ok (st : Logger) : Prop :=
  (∀ traceId c, activeTraces st !! traceId = Some c → context_ok traceId c)
  ∧ Forall write_ok (sent st).

End TraceLogger.

(** ** The job webhook (src/app/api/cron/cleanup-traces/route.ts, third
       part: /api/kilat/process-job) and src/lib/queue/qstash-client.ts *)

Module ProcessJob.

Import JS.

Inductive JobStatus := processing | completed | failed.

(** The fields of a call of [jobQueue.updateJob]. *)
Record JobUpdate := {
  status : option JobStatus;
  progress : option Z;
  currentStep : option string;
  outputContent : option string;
  files : option Files;
  errorMessage : option string
}.

Record Payload := {
  jobId : string;
  message : string;
  mode : TraceLogger.Mode;
  selectedModel : string;
  sessionId : option string;
  userId : string;
  agentType : string
}.

(** The [NextRequest]: the upstash-signature header and the body. *)
Record Request := {
  signature : option string;
  body : string
}.

Record Response := {
  code : Z;
  success : bool;
  error : option string;
  responseJobId : option string
}.

(** What lies outside the two files.  The loaders of context, memory and
    attachments catch what they throw and only build [conversationContext];
    [orchestrateCalls] are the calls that [orchestrate] and [executeFast]
    make on the trace logger, for the traces they start themselves.
    [world] is the world [orchestrate] runs in; its progress callback is the
    closure [onProgress] of [executePlanningMode] (lines 856-861), which
    throws when its update of the job queue does.  [progressReports] is what
    that closure has written to the job queue when [orchestrate] returns:
    for each of its calls whose update returned, in order, the progress as
    the closure scales it, [20 + Math.floor(progress * 0.7)], and the step. *)
Record Platform := {
  initializeApps : option Thrown;
  signingKeyConfigured : bool;
  receiverVerify : string → string → Orchestrator.Try bool;
  parsePayload : string → Orchestrator.Try Payload;
  updateJob : string → JobUpdate → option Thrown;
  world : Orchestrator.World;
  orchestrateCalls : list TraceLogger.Call;
  progressReports : list (Z * string);
  conversationContext : string;
  chat : string → string → Orchestrator.Try string;
  research : string → Orchestrator.Try (option string * option string);
  mockup : string → Orchestrator.Try (option string);
  text2image : string → Orchestrator.Try (option (option string * string));
  executeFast : string → string → Orchestrator.Try (option string * option Files);
  randomUUID : string;
  traceConfigured : bool;
  startedAt : Z;
  stepAt : Z;
  endedAt : Z
}.

(** [verifyQStashSignature] *)
Definition verifyQStashSignature (p : Platform) (signature0 body0 : string) : bool :=
  if negb (signingKeyConfigured p) then true
  else
    match receiverVerify p signature0 body0 with
    | inr isValid => isValid
    | inl _ => false
    end.

(** The module state of the route and of the logger, and the updates of
    the job queue that returned, the first one first. *)
Record State := {
  initialized : bool;
  logger : TraceLogger.Logger;
  updates : list (string * JobUpdate)
}.

(** Code that reads and writes the state and can throw. *)
Definition M (A : Type) : Type := State → State * (Thrown + A).

Definition ret {A : Type} (a : A) : M A := λ st, (st, inr a).

Definition throw {A : Type} (e : Thrown) : M A := λ st, (st, inl e).

Definition bind {A B : Type} (m : M A) (k : A → M B) : M B :=
  λ st,
    match m st with
    | (st', inr a) => k a st'
    | (st', inl e) => (st', inl e)
    end.

(** [try { m } catch (error) { handler error }] *)
Definition catch {A : Type} (m : M A) (handler : Thrown → M A) : M A :=
  λ st,
    match m st with
    | (st', inr a) => (st', inr a)
    | (st', inl e) => handler e st'
    end.

Notation "'do' x <- m ; k" := (bind m (λ x, k))
  (at level 10, x pattern, m at level 100, k at level 200).
Notation "m ;; k" := (bind m (λ _, k)) (at level 100, k at level 200, right associativity).

Definition noUpdate : JobUpdate :=
  {| status := None; progress := None; currentStep := None; outputContent := None;
     files := None; errorMessage := None |}.

Definition sendUpdate (p : Platform) (jobId0 : string) (u : JobUpdate) : M unit :=
  λ st,
    match updateJob p jobId0 u with
    | Some e => (st, inl e)
    | None =>
        ({| initialized := initialized st; logger := logger st;
            updates := updates st ++ [(jobId0, u)] |}, inr ())
    end.

Definition traced (f : TraceLogger.Logger → TraceLogger.Logger) : M unit :=
  λ st,
    ({| initialized := initialized st; logger := f (logger st);
        updates := updates st |}, inr ()).

Definition lift {A : Type} (m : Orchestrator.Try A) : M A :=
  λ st, (st, m).

Definition AI_CALL : string := "ai_call".

(** [x || fallback] on a string. *)
Definition orText (x fallback : string) : string :=
  if nonempty x then x else fallback.

Definition progressUpdate (n : Z) (text0 : string) : JobUpdate :=
  {| status := None; progress := Some n; currentStep := Some text0;
     outputContent := None; files := None; errorMessage := None |}.

(** The updates of the closure [onProgress] that returned. *)
Definition reported (jobId0 : string) (reports : list (Z * string)) : M unit :=
  λ st,
    ({| initialized := initialized st; logger := logger st;
        updates :=
          updates st ++ map (λ r, (jobId0, progressUpdate r.1 r.2)) reports |},
     inr ()).

(** [executePlanningMode].  The summary and the files of [orchestrate] are
    returned whatever its [success] says. *)
Definition executePlanningMode (p : Platform) (jobId0 message0 traceId : string)
  : M (string * option Files) :=
  sendUpdate p jobId0 (progressUpdate 20 "🤖 Planning mode: Decomposing task...") ;;
  traced (λ l, TraceLogger.addStep l traceId AI_CALL "planning-start" None None (stepAt p)) ;;
  traced (λ l, TraceLogger.calls l (orchestrateCalls p)) ;;
  reported jobId0 (progressReports p) ;;
  let result := Orchestrator.orchestrate (world p) message0 in
  sendUpdate p jobId0 (progressUpdate 90 "🤖 Planning mode complete!") ;;
  ret (orText (Orchestrator.OrchestratorResult.summary result) "",
       Some (Orchestrator.OrchestratorResult.files result)).

Definition mockupText (message0 url : string) : string :=
  "# 🎨 UI Mockup Generated!" +:+ nl +:+ nl +:+ "**Prompt:** " +:+ message0 +:+ nl +:+ nl
  +:+ "![Generated Mockup](" +:+ url +:+ ")".

Definition imageText (message0 model url : string) : string :=
  "# 🖼️ Image Generated!" +:+ nl +:+ nl +:+ "**Prompt:** " +:+ message0 +:+ nl +:+ nl
  +:+ "**Model:** " +:+ model +:+ nl +:+ nl +:+ "![Generated Image](" +:+ url +:+ ")".

(** [executeFastMode]: the route is chosen by [agentType]. *)
Definition executeFastMode (p : Platform) (jobId0 message0 agentType0 traceId : string)
  : M (string * option Files) :=
  sendUpdate p jobId0
    (progressUpdate 30
       ("⚡ Fast mode: Processing with " +:+ orText agentType0 "code" +:+ "...")) ;;
  do out <-
    (if String.eqb agentType0 "chat" then
       traced (λ l, TraceLogger.addStep l traceId AI_CALL "chat-fast" None None (stepAt p)) ;;
       do text0 <- lift (chat p (conversationContext p) message0) ;
       ret (text0, None)
     else if String.eqb agentType0 "research" then
       traced (λ l, TraceLogger.addStep l traceId AI_CALL "research-fast" None None (stepAt p)) ;;
       do found <- lift (research p message0) ;
       ret (orText (default "" found.1) "Research complete!",
            match found.2 with
            | Some citations => Some [("citations.json", citations)]
            | None => None
            end)
     else if String.eqb agentType0 "imagegen" then
       traced (λ l, TraceLogger.addStep l traceId AI_CALL "imagegen-fast" None None (stepAt p)) ;;
       do url <- lift (mockup p message0) ;
       ret (mockupText message0 (orText (default "" url) ""), None)
     else if String.eqb agentType0 "kilatimage" then
       traced (λ l, TraceLogger.addStep l traceId AI_CALL "kilatimage-fast" None None (stepAt p)) ;;
       do image <- lift (text2image p message0) ;
       ret (match image with
            | Some (model, url) => imageText message0 (orText (default "" model) "flux") url
            | None => "❌ Image generation failed."
            end, None)
     else
       traced (λ l, TraceLogger.addStep l traceId AI_CALL "codegen-fast" None None (stepAt p)) ;;
       traced (λ l, TraceLogger.calls l (orchestrateCalls p)) ;;
       do codeResult <- lift (executeFast p message0 (conversationContext p)) ;
       ret (orText (default "" codeResult.1) "", codeResult.2)) ;
  sendUpdate p jobId0 (progressUpdate 90 "⚡ Fast mode complete!") ;;
  ret out.

(** [error instanceof Error ? error.message : fallback] *)
Definition messageOr (e : Thrown) (fallback : string) : string :=
  match e with
  | ErrorObj m => m
  | NonError => fallback
  end.

(** [processJob].  The steps that save the answer to the session memory
    and record the execution catch what they throw and write neither to the
    job queue nor to the logger. *)
Definition processJob (p : Platform) (job : Payload) : M unit :=
  let traceId := randomUUID p in
  traced (λ l,
    (TraceLogger.startTrace l traceId (jobId job) (sessionId job)
       (Some (orText (userId job) ""))
       (orText (agentType job) "unknown") (mode job)
       (prefix_of 200 (message job)) (startedAt p) (traceConfigured p)).1) ;;
  catch
    (sendUpdate p (jobId job)
       {| status := Some processing; progress := Some 10;
          currentStep :=
            Some (match mode job with
                  | TraceLogger.fast => "⚡ Fast mode: Direct execution..."
                  | TraceLogger.planning => "Analyzing request..."
                  end);
          outputContent := None; files := None; errorMessage := None |} ;;
     do out <-
       (match mode job with
        | TraceLogger.fast =>
            executeFastMode p (jobId job) (message job) (agentType job) traceId
        | TraceLogger.planning =>
            executePlanningMode p (jobId job) (message job) traceId
        end) ;
     sendUpdate p (jobId job)
       {| status := Some completed; progress := Some 100;
          currentStep := Some "✅ Complete!";
          outputContent := Some out.1; files := out.2; errorMessage := None |} ;;
     traced (λ l,
       TraceLogger.endTrace l traceId TraceLogger.success
         (Some {| TraceLogger.summary_file_count :=
                    Some (match out.2 with
                          | Some fs => Z.of_nat (length (files_keys fs))
                          | None => 0
                          end);
                  TraceLogger.summary_error_message := None |})
         (endedAt p) (traceConfigured p)))
    (λ error0,
       sendUpdate p (jobId job)
         {| status := Some failed; progress := None;
            currentStep := Some "❌ Failed";
            outputContent := None; files := None;
            errorMessage := Some (messageOr error0 "Unknown error") |} ;;
       traced (λ l,
         TraceLogger.endTrace l traceId TraceLogger.error
           (Some {| TraceLogger.summary_file_count := None;
                    TraceLogger.summary_error_message :=
                      Some (messageOr error0 "Unknown error") |})
           (endedAt p) (traceConfigured p)) ;;
       throw error0).

(** [ensureInitialized] *)
Definition ensureInitialized (p : Platform) : M unit :=
  λ st,
    if initialized st then (st, inr ())
    else
      match initializeApps p with
      | Some e => (st, inl e)
      | None =>
          ({| initialized := true; logger := logger st; updates := updates st |},
           inr ())
      end.

Definition respond (code0 : Z) (error0 : string) : Response :=
  {| code := code0; success := false; error := Some error0; responseJobId := None |}.

(** The [catch] of [POST].  [bodyUsed] says whether the body of the
    request was read before: a second [request.text()] rejects, so the id
    of the job is only found when it was not. *)
Definition failedResponse (p : Platform) (request : Request) (bodyUsed : bool)
    (error0 : Thrown) : State → State * Response :=
  λ st,
    let found :=
      if bodyUsed then None
      else
        match parsePayload p (body request) with
        | inr payload => if nonempty (jobId payload) then Some (jobId payload) else None
        | inl _ => None
        end in
    let st' :=
      match found with
      | Some jobId0 =>
          (sendUpdate p jobId0
             {| status := Some failed; progress := None; currentStep := None;
                outputContent := None; files := None;
                errorMessage := Some (messageOr error0 "QStash processing failed") |}
             st).1
      | None => st
      end in
    (st', respond 500 (messageOr error0 "Processing failed")).

Definition POST (p : Platform) (request : Request) : State → State * Response :=
  λ st,
    match ensureInitialized p st with
    | (st0, inl e) => failedResponse p request false e st0
    | (st0, inr _) =>
        match signature request with
        | None => (st0, respond 401 "Missing signature")
        | Some signature0 =>
            if negb (nonempty signature0) then (st0, respond 401 "Missing signature")
            else if negb (verifyQStashSignature p signature0 (body request)) then
              (st0, respond 403 "Invalid signature")
            else
              match parsePayload p (body request) with
              | inl e => failedResponse p request true e st0
              | inr payload =>
                  match processJob p payload st0 with
                  | (st1, inr _) =>
                      (st1, {| code := 200; success := true; error := None;
                               responseJobId := Some (jobId payload) |})
                  | (st1, inl e) => failedResponse p request true e st1
                  end
              end
        end
    end.

(** *** What the properties speak of *)

(** The statuses written for a job, in order. *)
Definition statuses (jobId0 : string) (us : list (string * JobUpdate))
  : list JobStatus :=
  omap (λ ju, if String.eqb ju.1 jobId0 then status ju.2 else None) us.

Definition job_queue_returns (p : Platform) : Prop :=
  ∀ jobId0 u, updateJob p jobId0 u = None.

Definition fresh_state : State :=
  {| initialized := false; logger := TraceLogger.empty_logger; updates := [] |}.

(** A platform whose generation services are out of reach and whose job
    queue returns; the signing keys are [configured] or not, and the
    receiver finds a signature [valid] or not. *)
Definition platformOf (configured : bool) (valid : bool) (w : Orchestrator.World)
  : Platform :=
  {| initializeApps := None;
     signingKeyConfigured := configured;
     receiverVerify := λ _ _, inr valid;
     parsePayload := λ text0,
       inr {| jobId := "job-1"; message := text0; mode := TraceLogger.planning;
              selectedModel := "auto"; sessionId := None; userId := "user-1";
              agentType := "codegen" |};
     updateJob := λ _ _, None;
     world := w;
     orchestrateCalls := [];
     progressReports := [];
     conversationContext := "";
     chat := λ _ _, inl Orchestrator.offline;
     research := λ _, inl Orchestrator.offline;
     mockup := λ _, inl Orchestrator.offline;
     text2image := λ _, inl Orchestrator.offline;
     executeFast := λ _ _, inl Orchestrator.offline;
     randomUUID := "trace-1";
     traceConfigured := true;
     startedAt := 1000;
     stepAt := 1001;
     endedAt := 2000 |}.

(** The platform [p] in a run where the closure [onProgress] has written
    [reports]. *)
Definition reporting (p : Platform) (reports : list (Z * string)) : Platform :=
  {| initializeApps := initializeApps p;
     signingKeyConfigured := signingKeyConfigured p;
     receiverVerify := receiverVerify p;
     parsePayload := parsePayload p;
     updateJob := updateJob p;
     world := world p;
     orchestrateCalls := orchestrateCalls p;
     progressReports := reports;
     conversationContext := conversationContext p;
     chat := chat p;
     research := research p;
     mockup := mockup p;
     text2image := text2image p;
     executeFast := executeFast p;
     randomUUID := randomUUID p;
     traceConfigured := traceConfigured p;
     startedAt := startedAt p;
     stepAt := stepAt p;
     endedAt := endedAt p |}.

End ProcessJob.

(** ** The Upstash cache (src/unnamed/part_002) *)

Module RedisCache.

(** What the module writes: tiers as strings, limits and usage as numbers,
    the state of a rate-limit window as an object with the numbers [count]
    and [windowStart].  A read can give other values: a boolean, and
    [VOther], which is a fraction, an array or an object that has neither a
    [count] nor a [windowStart]. *)
Inductive Value :=
| VStr (s : string)
| VNum (n : Z)
| VBool (b : bool)
| VState (count windowStart : Z)
| VOther.

Definition truthy (v : Value) : bool :=
  match v with
  | VStr s => JS.nonempty s
  | VNum n => negb (n =? 0)
  | VBool b => b
  | VState _ _ => true
  | VOther => true
  end.

Record Entry := {
  value : Value;
  expireAt : option Z
}.

Abbreviation Store := (gmap string Entry).

Definition live (now : Z) (e : Entry) : bool :=
  match expireAt e with
  | None => true
  | Some t => now <? t
  end.

(** The client, [@upstash/redis], is not part of these sources.  It sends a
    string as it is and any other value as its JSON text, and it parses what
    it reads: the text of a number or of an object gives that number or
    object back, while a string that was written comes back as whatever its
    text parses to.  [parse s] is what the client returns for the stored
    string [s]; [None] is [null]. *)
Section Client.

Variable parse : string → option Value.

Definition reply (v : Value) : option Value :=
  match v with
  | VStr s => parse s
  | _ => Some v
  end.

Definition redis_get (now : Z) (k : string) (r : Store) : option Value :=
  match r !! k with
  | Some e => if live now e then reply (value e) else None
  | None => None
  end.

(** [redis.set(k, v, { ex })]; the server refuses an expiry that is not
    positive, and the call throws. *)
Definition redis_set_ex (now : Z) (k : string) (v : Value) (ex : Z) (r : Store)
  : option Store :=
  if 0 <? ex then Some (<[k := {| value := v; expireAt := Some (now + ex * 1000) |}]> r)
  else None.

(** [redis.incrby(k, n)]: a missing key counts from 0 and gets no expiry;
    a key that holds no number makes the call throw. *)
Definition redis_incrby (now : Z) (k : string) (n : Z) (r : Store) : option Store :=
  match r !! k with
  | Some e =>
      if live now e then
        match value e with
        | VNum m => Some (<[k := {| value := VNum (m + n); expireAt := expireAt e |}]> r)
        | _ => None
        end
      else Some (<[k := {| value := VNum n; expireAt := None |}]> r)
  | None => Some (<[k := {| value := VNum n; expireAt := None |}]> r)
  end.

Definition redis_expire (now : Z) (k : string) (secs : Z) (r : Store) : Store :=
  match r !! k with
  | Some e =>
      if live now e
      then <[k := {| value := value e; expireAt := Some (now + secs * 1000) |}]> r
      else r
  | None => r
  end.

Definition TTL_USER_TIER : Z := 300.
Definition TTL_TIER_LIMITS : Z := 600.
Definition TTL_COST_LIMITS : Z := 600.
Definition TTL_DAILY_USAGE : Z := 120.

Definition tierKey (userId : string) : string := "tier:" +:+ userId.
Definition limitsKey (tier category : string) : string :=
  "limits:" +:+ tier +:+ ":" +:+ category.
Definition costLimitsKey (tier category : string) : string :=
  "costlimits:" +:+ tier +:+ ":" +:+ category.
Definition rateLimitKey (provider : string) : string := "ratelimit:" +:+ provider.
Definition usageKey (userId category : string) : string :=
  "usage:" +:+ userId +:+ ":" +:+ category.

(** In each function [reachable] says whether the calls of the client
    return; when they throw, the [catch] answers. *)

Definition getCachedUserTier (r : Store) (userId : string) (now : Z)
    (reachable : bool) : option Value :=
  if reachable then redis_get now (tierKey userId) r else None.

Definition setCachedUserTier (r : Store) (userId tier : string) (now : Z)
    (reachable : bool) : Store :=
  if reachable then
    default r (redis_set_ex now (tierKey userId) (VStr tier) TTL_USER_TIER r)
  else r.

Definition getCachedTierLimits (r : Store) (tier category : string) (now : Z)
    (reachable : bool) : option Value :=
  if reachable then redis_get now (limitsKey tier category) r else None.

Definition setCachedTierLimits (r : Store) (tier category : string) (limit : Z)
    (now : Z) (reachable : bool) : Store :=
  if reachable then
    default r (redis_set_ex now (limitsKey tier category) (VNum limit) TTL_TIER_LIMITS r)
  else r.

Definition getCachedCostLimits (r : Store) (tier category : string) (now : Z)
    (reachable : bool) : option Value :=
  if reachable then redis_get now (costLimitsKey tier category) r else None.

Definition setCachedCostLimits (r : Store) (tier category : string) (limit : Z)
    (now : Z) (reachable : bool) : Store :=
  if reachable then
    default r (redis_set_ex now (costLimitsKey tier category) (VNum limit)
                 TTL_COST_LIMITS r)
  else r.

Definition getRateLimitState (r : Store) (provider : string) (now : Z)
    (reachable : bool) : option Value :=
  if reachable then redis_get now (rateLimitKey provider) r else None.

(** [incrementRateLimit] awaits a GET and then a SET: two steps of the
    store, with whatever reaches the store in between (the comment of line
    134 names MULTI, the code does not use it). *)

(** Line 135: what [current] holds. *)
Definition rateLimitRead (r : Store) (provider : string) (readAt : Z) : option Value :=
  redis_get readAt (rateLimitKey provider) r.

(** Lines 137-151: the SET that follows from [current], if any, and the
    answer.  [now] is the reading of line 132.  A truthy [current] that is
    no window state has no [windowStart] and no [count]: both tests fail on
    [undefined], and the SET of line 148 is sent with an expiry that is not
    a number, which the server refuses as it does one that is not positive;
    the call throws and the [catch] answers. *)
Definition newWindow (windowMs now : Z) : option (Value * Z) * bool :=
  (Some (VState 1 now, JS.ceil_div windowMs 1000), true).

Definition rateLimitWrite (current : option Value) (provider : string)
    (limit windowMs now : Z) : option (Value * Z) * bool :=
  match current with
  | None => newWindow windowMs now
  | Some (VState count0 windowStart0) =>
      if windowMs <? now - windowStart0 then newWindow windowMs now
      else if limit <=? count0 then (None, false)
      else
        (Some (VState (count0 + 1) windowStart0,
               JS.ceil_div (windowMs - (now - windowStart0)) 1000), true)
  | Some v => if truthy v then (None, true) else newWindow windowMs now
  end.

(** The SET as the store performs it at [writeAt], when it does; when the
    call throws, the [catch] lets the request through. *)
Definition rateLimitStore (r : Store) (provider : string) (w : option (Value * Z))
    (writeAt : Z) (performed : bool) : Store :=
  match w with
  | Some (v, ex) =>
      if performed then default r (redis_set_ex writeAt (rateLimitKey provider) v ex r)
      else r
  | None => r
  end.

(** [reachable]: the GET is answered.  [readAt], [writeAt]: the instants at
    which the store performs the GET and the SET.  [written]: the store
    performs the SET; whether its reply arrives or the call throws, the
    answer is the same, since the function fails open. *)
Record Course := {
  reachable : bool;
  readAt : Z;
  writeAt : Z;
  written : bool
}.

Definition atOnce (now : Z) : Course :=
  {| reachable := true; readAt := now; writeAt := now; written := true |}.

Definition unreachable : Course :=
  {| reachable := false; readAt := 0; writeAt := 0; written := false |}.

Definition incrementRateLimit (r : Store) (provider : string) (limit windowMs : Z)
    (now : Z) (c : Course) : Store * bool :=
  if negb (reachable c) then (r, true)
  else
    let current := rateLimitRead r provider (readAt c) in
    let out := rateLimitWrite current provider limit windowMs now in
    (rateLimitStore r provider out.1 (writeAt c) (written c), out.2).

(** Two calls for one provider that overlap, their GETs answered: the GET
    of both is performed before the SET of either. *)
Definition incrementRateLimitOverlapping (r : Store) (provider : string)
    (limit windowMs : Z) (now1 now2 : Z) (c1 c2 : Course) : Store * (bool * bool) :=
  let current1 := rateLimitRead r provider (readAt c1) in
  let current2 := rateLimitRead r provider (readAt c2) in
  let out1 := rateLimitWrite current1 provider limit windowMs now1 in
  let out2 := rateLimitWrite current2 provider limit windowMs now2 in
  let r1 := rateLimitStore r provider out1.1 (writeAt c1) (written c1) in
  (rateLimitStore r1 provider out2.1 (writeAt c2) (written c2), (out1.2, out2.2)).

Definition getCachedDailyUsage (r : Store) (userId category : string) (now : Z)
    (reachable : bool) : option Value :=
  if reachable then redis_get now (usageKey userId category) r else None.

Definition setCachedDailyUsage (r : Store) (userId category : string) (count0 : Z)
    (now : Z) (reachable : bool) : Store :=
  if reachable then
    default r (redis_set_ex now (usageKey userId category) (VNum count0)
                 TTL_DAILY_USAGE r)
  else r.

Definition incrementCachedDailyUsage (r : Store) (userId category : string)
    (increment : Z) (now : Z) (reachable : bool) : Store :=
  if reachable then
    match redis_incrby now (usageKey userId category) increment r with
    | Some r' => redis_expire now (usageKey userId category) TTL_DAILY_USAGE r'
    | None => r
    end
  else r.

(** *** What the properties speak of *)

(** Calls of [incrementRateLimit] for one provider that do not overlap,
    each at one instant, at the times [ts], the store answering: the store
    after them and how many were let through. *)
Fixpoint attempts (r : Store) (provider : string) (limit windowMs : Z)
    (ts : list Z) : Store * Z :=
  match ts with
  | [] => (r, 0)
  | t :: ts' =>
      let '(r1, ok) := incrementRateLimit r provider limit windowMs t (atOnce t) in
      let '(r2, n) := attempts r1 provider limit windowMs ts' in
      (r2, (if ok then 1 else 0) + n)
  end.

End Client.

(** A client that hands strings back as they are stored. *)
Definition verbatim (s : string) : option Value := Some (VStr s).

(** The window of [provider] that began at [w] holds count [c] and lasts
    at least until [w + windowMs]. *)
Definition window_open (r : Store) (provider : string) (windowMs w c : Z) : Prop :=
  ∃ t, r !! rateLimitKey provider
       = Some {| value := VState c w; expireAt := Some t |}
       ∧ w + windowMs ≤ t.

(** Increments of the usage counter at the times [ts], one each. *)
Definition increments (r : Store) (userId category : string) (ts : list Z) : Store :=
  fold_left (λ r0 t, incrementCachedDailyUsage r0 userId category 1 t true) ts r.

(** Every time of [ts] is less than [gap] after the one before it,
    [t0] being the one before the first. *)
Fixpoint paced (gap t0 : Z) (ts : list Z) : Prop :=
  match ts with
  | [] => True
  | t :: ts' => t0 ≤ t ∧ t < t0 + gap ∧ paced gap t ts'
  end.

End RedisCache.

(** * Properties *)

(** ** The rate limiter *)

Module RateLimiterSpec.

Import RateLimiter.

(** *** Keys of the shared store *)

Lemma key_inj p q f g : key p f = key q g → p = q ∧ f = g.
Proof. destruct p, q, f, g; intros H; try done; vm_compute in H; discriminate. Qed.

Lemma key_ne_field p q f g : f ≠ g → key p f ≠ key q g.
Proof. intros Hne H. apply key_inj in H. tauto. Qed.

Lemma key_ne_provider p q f g : p ≠ q → key p f ≠ key q g.
Proof. intros Hne H. apply key_inj in H. tauto. Qed.

(** *** Reading after writing *)

Lemma lookup_set_ex_ne now k k' v ex (r : Redis) :
  k ≠ k' → redis_set_ex now k v ex r !! k' = r !! k'.
Proof. intros Hne. unfold redis_set_ex. by rewrite lookup_insert_ne. Qed.

Lemma lookup_add_ne now k k' d (r : Redis) :
  k ≠ k' → redis_add now k d r !! k' = r !! k'.
Proof.
  intros Hne. unfold redis_add.
  destruct (r !! k) as [e|]; [destruct (live now e)|]; by rewrite lookup_insert_ne.
Qed.

Lemma lookup_expire_ne now k k' secs (r : Redis) :
  k ≠ k' → redis_expire now k secs r !! k' = r !! k'.
Proof.
  intros Hne. unfold redis_expire.
  destruct (r !! k) as [e|]; [destruct (live now e)|]; try done.
  by rewrite lookup_insert_ne.
Qed.

Lemma lookup_del_ne k k' (r : Redis) : k ≠ k' → redis_del k r !! k' = r !! k'.
Proof. intros Hne. unfold redis_del. by rewrite lookup_delete_ne. Qed.

Lemma lookup_perform_ne f (cmd : Redis → Redis) (r : Redis) k :
  (∀ r', cmd r' !! k = r' !! k) → perform f cmd r !! k = r !! k.
Proof. intros H. unfold perform. destruct (performed f); [apply H | done]. Qed.

(** What [releaseSlot] does to the store stays within the concurrency key
    of its provider. *)
Lemma releaseWrite_other current r p t f k :
  k ≠ key p concurrent_f → releaseWrite current r p t f !! k = r !! k.
Proof.
  intros Hne. unfold releaseWrite. destruct current as [n|]; [|done].
  destruct (0 <? n); apply lookup_perform_ne; intros r'.
  - unfold redis_decr. by rewrite lookup_add_ne.
  - by rewrite lookup_del_ne.
Qed.

Lemma releaseRedis_other r p c k :
  k ≠ key p concurrent_f → releaseRedis r p c !! k = r !! k.
Proof.
  intros Hne. unfold releaseRedis.
  destruct (readOk c); [by apply releaseWrite_other | done].
Qed.

(** *** A call at one instant *)

Lemma checkRedisLimit_atOnce r p limits now arg :
  checkRedisLimit r p limits arg (atOnce now true)
  = if redis_window_over r p limits now now then
      (redis_set_ex now (key p count_f) 1 (JS.ceil_div (windowMs limits) 1000)
         (redis_set_ex now (key p window_f) now (JS.ceil_div (windowMs limits) 1000) r),
       Some (fresh_window limits))
    else if maxRPM limits <=? JS.or0 (redis_get now (key p count_f) r) then
      (r, Some {| allowed := false; remaining := 0;
                  resetMs := windowMs limits
                             - (now - JS.or0 (redis_get now (key p window_f) r)) |})
    else if maxConcurrent limits <=? JS.or0 (redis_get now (key p concurrent_f) r) then
      (r, Some {| allowed := false;
                  remaining := maxRPM limits - JS.or0 (redis_get now (key p count_f) r);
                  resetMs := 1000 |})
    else
      (redis_expire now (key p concurrent_f) 300
         (redis_incr now (key p concurrent_f) (redis_incr now (key p count_f) r)),
       Some {| allowed := true;
               remaining := maxRPM limits - JS.or0 (redis_get now (key p count_f) r) - 1;
               resetMs := windowMs limits
                          - (now - JS.or0 (redis_get now (key p window_f) r)) |}).
Proof. reflexivity. Qed.

(** At one instant the store answers, so the local limiter is not asked. *)
Lemma checkRedisLimit_atOnce_answers r p limits now arg :
  ∃ res, (checkRedisLimit r p limits arg (atOnce now true)).2 = Some res.
Proof.
  rewrite checkRedisLimit_atOnce.
  destruct (redis_window_over r p limits now now); [by eexists|].
  destruct (maxRPM limits <=? _); [by eexists|].
  destruct (maxConcurrent limits <=? _); by eexists.
Qed.

Lemma checkLimit_shared st p now :
  ∃ res,
    (checkRedisLimit (redis st) p (PROVIDER_LIMITS p) now (atOnce now true)).2 = Some res
    ∧ checkLimit st p now (atOnce now true)
      = (with_redis st
           (checkRedisLimit (redis st) p (PROVIDER_LIMITS p) now (atOnce now true)).1,
         res).
Proof.
  destruct (checkRedisLimit_atOnce_answers (redis st) p (PROVIDER_LIMITS p) now now)
    as [res Hres].
  exists res. split; [done|]. unfold checkLimit. cbn [atOnce configured].
  cbv zeta. by rewrite Hres.
Qed.

Lemma checkLimit_local st p now :
  checkLimit st p now (atOnce now false) = checkLocalLimit st p (PROVIDER_LIMITS p) now.
Proof. reflexivity. Qed.

Lemma releaseRedis_atOnce r p now :
  releaseRedis r p (atOnce now true)
  = match redis_get now (key p concurrent_f) r with
    | Some current =>
        if 0 <? current then redis_decr now (key p concurrent_f) r
        else redis_del (key p concurrent_f) r
    | None => r
    end.
Proof.
  unfold releaseRedis, releaseWrite, releaseRead. cbn.
  destruct (redis_get now (key p concurrent_f) r) as [n|]; [|done].
  by destruct (0 <? n).
Qed.

Lemma releaseSlot_redis st p now up :
  redis (releaseSlot st p (atOnce now up))
  = if up then releaseRedis (redis st) p (atOnce now true) else redis st.
Proof. by destruct up. Qed.

(** *** The concurrency counter in calls that do not overlap

    Taken one after another, each at one instant, the operations keep both
    counters at zero or above. *)

Lemma add_nonneg now k k' d (r : Redis) :
  0 ≤ d → nonneg_at r k' → nonneg_at (redis_add now k d r) k'.
Proof.
  intros Hd Hr e. destruct (decide (k = k')) as [->|Hne].
  - unfold redis_add. destruct (r !! k') as [e0|] eqn:Hk.
    + destruct (live now e0); rewrite lookup_insert_eq; intros [= <-]; simpl;
        [specialize (Hr e0 Hk); lia | done].
    + rewrite lookup_insert_eq. by intros [= <-].
  - rewrite lookup_add_ne by done. apply Hr.
Qed.

Lemma decr_nonneg now k k' c (r : Redis) :
  redis_get now k r = Some c → 0 < c →
  nonneg_at r k' → nonneg_at (redis_decr now k r) k'.
Proof.
  intros Hget Hc Hr e. unfold redis_decr. destruct (decide (k = k')) as [->|Hne].
  - unfold redis_get in Hget. unfold redis_add.
    destruct (r !! k') as [e0|] eqn:Hk; [|done].
    destruct (live now e0); [|done]. injection Hget as <-.
    rewrite lookup_insert_eq. intros [= <-]. simpl. lia.
  - rewrite lookup_add_ne by done. apply Hr.
Qed.

Lemma expire_nonneg now k k' secs (r : Redis) :
  nonneg_at r k' → nonneg_at (redis_expire now k secs r) k'.
Proof.
  intros Hr e. destruct (decide (k = k')) as [->|Hne].
  - unfold redis_expire. destruct (r !! k') as [e0|] eqn:Hk.
    + destruct (live now e0).
      * rewrite lookup_insert_eq. intros [= <-]. simpl. by apply Hr.
      * rewrite Hk. intros [= <-]. by apply Hr.
    + by rewrite Hk.
  - rewrite lookup_expire_ne by done. apply Hr.
Qed.

Lemma del_nonneg k k' (r : Redis) : nonneg_at r k' → nonneg_at (redis_del k r) k'.
Proof.
  intros Hr e. unfold redis_del. destruct (decide (k = k')) as [->|Hne].
  - by rewrite lookup_delete_eq.
  - rewrite lookup_delete_ne by done. apply Hr.
Qed.

Lemma perform_nonneg f (cmd : Redis → Redis) (r : Redis) k :
  (∀ r', nonneg_at r' k → nonneg_at (cmd r') k) →
  nonneg_at r k → nonneg_at (perform f cmd r) k.
Proof. intros H Hr. unfold perform. destruct (performed f); [by apply H | done]. Qed.

(** Whatever its course, [checkRedisLimit] adds to the counter or leaves it. *)
Lemma checkRedisLimit_nonneg r p limits now c q :
  nonneg_at r (key q concurrent_f) →
  nonneg_at (checkRedisLimit r p limits now c).1 (key q concurrent_f).
Proof.
  intros Hr. unfold checkRedisLimit.
  destruct (readOk c); [|done]. cbn [negb].
  destruct (redis_window_over r p limits (readAt c) (seenAt c)).
  - assert (nonneg_at
              (perform (write2 c)
                 (redis_set_ex (writeAt c) (key p count_f) 1
                    (JS.ceil_div (windowMs limits) 1000))
                 (perform (write1 c)
                    (redis_set_ex (writeAt c) (key p window_f) (startAt c)
                       (JS.ceil_div (windowMs limits) 1000)) r))
              (key q concurrent_f)) as H.
    { do 2 (apply perform_nonneg;
            [intros r' Hr' e; rewrite lookup_set_ex_ne by (by apply key_ne_field);
             apply Hr'|]).
      done. }
    by destruct (rejects (write1 c) || rejects (write2 c)).
  - destruct (maxRPM limits <=? _); [done|].
    destruct (maxConcurrent limits <=? _); [done|].
    assert (nonneg_at
              (perform (write2 c) (redis_incr (writeAt c) (key p concurrent_f))
                 (perform (write1 c) (redis_incr (writeAt c) (key p count_f)) r))
              (key q concurrent_f)) as H.
    { do 2 (apply perform_nonneg;
            [intros r' Hr'; unfold redis_incr; apply add_nonneg; [lia | done]|]).
      done. }
    destruct (rejects (write1 c) || rejects (write2 c)); [done|].
    destruct (rejects (ttl c)); cbn [fst];
      (apply perform_nonneg; [intros r' Hr'; by apply expire_nonneg | done]).
Qed.

Lemma releaseRedis_nonneg r p now q :
  nonneg_at r (key q concurrent_f) →
  nonneg_at (releaseRedis r p (atOnce now true)) (key q concurrent_f).
Proof.
  intros Hr. rewrite releaseRedis_atOnce.
  destruct (redis_get now (key p concurrent_f) r) as [c|] eqn:Hget; [|done].
  destruct (Z.ltb_spec 0 c).
  - by eapply decr_nonneg.
  - by apply del_nonneg.
Qed.

Lemma checkLocalLimit_nonneg st p limits now k :
  local_nonneg_at (localConcurrent st) k →
  local_nonneg_at (localConcurrent (checkLocalLimit st p limits now).1) k.
Proof.
  intros Hm. unfold checkLocalLimit.
  destruct (localCounts st !! provider_name p) as [state|]; [|done].
  destruct (windowMs limits <=? _); [done|].
  destruct (instanceAdjustedLimit limits <=? _); [done|].
  destruct (instanceAdjustedConcurrent limits <=? _); [done|]. simpl.
  intros v. destruct (decide (provider_name p = k)) as [<-|Hne].
  - rewrite lookup_insert_eq. intros [= <-].
    destruct (localConcurrent st !! provider_name p) as [c|] eqn:Hc; simpl; [|lia].
    specialize (Hm _ Hc). lia.
  - rewrite lookup_insert_ne by done. apply Hm.
Qed.

Lemma checkLocalLimit_redis st p limits now :
  redis (checkLocalLimit st p limits now).1 = redis st.
Proof.
  unfold checkLocalLimit.
  destruct (localCounts st !! provider_name p) as [state|]; [|done].
  destruct (windowMs limits <=? _); [done|].
  destruct (instanceAdjustedLimit limits <=? _); [done|].
  by destruct (instanceAdjustedConcurrent limits <=? _).
Qed.

(** The store after a [checkLimit] is the store [checkRedisLimit] leaves. *)
Lemma checkLimit_redis st p now c :
  redis (checkLimit st p now c).1
  = if configured c then (checkRedisLimit (redis st) p (PROVIDER_LIMITS p) now c).1
    else redis st.
Proof.
  unfold checkLimit. destruct (configured c); [|apply checkLocalLimit_redis].
  cbv zeta.
  destruct (checkRedisLimit (redis st) p (PROVIDER_LIMITS p) now c).2; [done|].
  by rewrite checkLocalLimit_redis.
Qed.

(** Whatever its course, a [checkLimit] keeps both counters at zero or above. *)
Lemma checkLimit_nonneg st p now c q :
  nonneg_at (redis st) (key q concurrent_f) →
  local_nonneg_at (localConcurrent st) (provider_name q) →
  nonneg_at (redis (checkLimit st p now c).1) (key q concurrent_f)
  ∧ local_nonneg_at (localConcurrent (checkLimit st p now c).1) (provider_name q).
Proof.
  intros Hr Hl. split.
  - rewrite checkLimit_redis. destruct (configured c); [|done].
    by apply checkRedisLimit_nonneg.
  - unfold checkLimit. destruct (configured c); [|by apply checkLocalLimit_nonneg].
    cbv zeta.
    destruct (checkRedisLimit (redis st) p (PROVIDER_LIMITS p) now c).2; [done|].
    by apply checkLocalLimit_nonneg.
Qed.

Lemma releaseLocal_nonneg st p k :
  local_nonneg_at (localConcurrent st) k →
  local_nonneg_at (localConcurrent (releaseLocal st p)) k.
Proof.
  intros Hm. unfold releaseLocal. simpl.
  destruct (Z.ltb_spec 0 (JS.or0 (localConcurrent st !! provider_name p))); [|done].
  intros v. destruct (decide (provider_name p = k)) as [<-|Hne].
  - rewrite lookup_insert_eq. intros [= <-]. lia.
  - rewrite lookup_insert_ne by done. apply Hm.
Qed.

Lemma releaseSlot_local_nonneg st p c k :
  local_nonneg_at (localConcurrent st) k →
  local_nonneg_at (localConcurrent (releaseSlot st p c)) k.
Proof. intros Hm. unfold releaseSlot. by apply releaseLocal_nonneg. Qed.

Lemma counters_nonneg_at st :
  counters_nonneg st ↔
  ∀ q, nonneg_at (redis st) (key q concurrent_f)
       ∧ local_nonneg_at (localConcurrent st) (provider_name q).
Proof.
  unfold counters_nonneg, sharedCounter, localCounter, nonneg_at, local_nonneg_at.
  split; intros H q; destruct (H q) as [Hr Hl]; (split; [|done]).
  - intros e He. apply Hr. by rewrite He.
  - intros v. destruct (redis st !! key q concurrent_f) as [e|]; [|done].
    intros [= <-]. by apply Hr.
Qed.

Lemma step_check st p now up :
  step st (CheckLimit p now up)
  = ((checkLimit st p now (atOnce now up)).1,
     Checked p (checkLimit st p now (atOnce now up)).2).
Proof. simpl. by destruct (checkLimit st p now (atOnce now up)). Qed.

Lemma step_nonneg st o : counters_nonneg st → counters_nonneg (step st o).1.
Proof.
  rewrite !counters_nonneg_at. intros H q. destruct (H q) as [Hr Hl].
  destruct o as [p now up|p now up].
  - rewrite step_check. cbn [fst]. by apply checkLimit_nonneg.
  - cbn [step fst]. split.
    + rewrite releaseSlot_redis. destruct up; [by apply releaseRedis_nonneg | done].
    + by apply releaseSlot_local_nonneg.
Qed.

Lemma run_nonneg ops : ∀ st, counters_nonneg st → counters_nonneg (run st ops).1.
Proof.
  induction ops as [|o ops IH]; intros st Hst; [done|]. simpl.
  destruct (step st o) as [st1 e] eqn:E1.
  destruct (run st1 ops) as [st2 es] eqn:E2. simpl.
  change st2 with (st2, es).1. rewrite <- E2. apply IH.
  change st1 with (st1, e).1. rewrite <- E1. by apply step_nonneg.
Qed.

Lemma empty_limiter_nonneg : counters_nonneg empty_limiter.
Proof. intros p. split; intros v; unfold sharedCounter, localCounter; simpl;
  by rewrite lookup_empty. Qed.

(** *** The concurrency counter when a release is overtaken

    Between the GET of [releaseSlot] and its DECR the key can run out, or
    another release can take the counter down. *)

Lemma releaseSlot_shared st p c :
  configured c = true → readOk c = true → performed (write1 c) = true →
  redis (releaseSlot st p c)
  = match redis_get (readAt c) (key p concurrent_f) (redis st) with
    | Some n =>
        if 0 <? n then redis_decr (writeAt c) (key p concurrent_f) (redis st)
        else redis_del (key p concurrent_f) (redis st)
    | None => redis st
    end.
Proof.
  intros Hc Hr Hw. unfold releaseSlot, releaseRedis, releaseWrite, releaseRead, perform.
  rewrite Hc, Hr, Hw. cbn [releaseLocal with_redis redis].
  destruct (redis_get (readAt c) (key p concurrent_f) (redis st)) as [n|]; [|done].
  by destruct (0 <? n).
Qed.

(** C9. The counter of the shared store can become negative.  [releaseSlot]
    reads the counter and then, after an await, decrements it.  When the
    counter holds 1 and its key runs out between the two (the key lives 300
    seconds from the last admission), the DECR finds no key and leaves -1,
    with no expiry.  When two releases overlap on a counter that holds 1,
    both read 1 and both decrement: -1 again.  In both cases the next call
    reads -1 as the number of calls in flight. *)
Theorem release_leaves_counter_negative (st : Limiter) (p : ProviderName)
    (ex : option Z) (c c' : Course) :
  redis st !! key p concurrent_f = Some {| value := 1; expireAt := ex |} →
  configured c = true → readOk c = true → performed (write1 c) = true →
  live (readAt c) {| value := 1; expireAt := ex |} = true →
  performed (write1 c') = true →
  live (readAt c') {| value := 1; expireAt := ex |} = true →
  (live (writeAt c) {| value := 1; expireAt := ex |} = false →
   sharedCounter (releaseSlot st p c) p = Some (-1)
   ∧ ∀ t, sharedConcurrent (releaseSlot st p c) p t = -1)
  ∧ (live (writeAt c) {| value := 1; expireAt := ex |} = true →
     live (writeAt c') {| value := 1; expireAt := ex |} = true →
     sharedCounter (releaseSlotOverlapping st p c c') p = Some (-1)
     ∧ sharedConcurrent (releaseSlotOverlapping st p c c') p (writeAt c') = -1).
Proof.
  intros Hheld Hc Hr Hw Hlive Hw' Hlive'.
  assert (∀ t, live t {| value := 1; expireAt := ex |} = true →
               redis_get t (key p concurrent_f) (redis st) = Some 1) as Hread.
  { intros t Ht. unfold redis_get. by rewrite Hheld, Ht. }
  split.
  - intros Hout. unfold sharedCounter, sharedConcurrent.
    rewrite (releaseSlot_shared _ _ _ Hc Hr Hw), (Hread _ Hlive). cbn [Z.ltb Z.compare].
    unfold redis_decr, redis_add. rewrite Hheld, Hout.
    split; [by rewrite lookup_insert_eq|].
    intros t. unfold redis_get. by rewrite lookup_insert_eq.
  - intros Hin Hin'. unfold sharedCounter, sharedConcurrent, releaseSlotOverlapping.
    cbn [releaseLocal with_redis redis].
    unfold releaseRead. rewrite (Hread _ Hlive), (Hread _ Hlive').
    unfold releaseWrite, perform. rewrite Hw, Hw'. cbn [Z.ltb Z.compare].
    unfold redis_decr.
    assert (redis_add (writeAt c) (key p concurrent_f) (-1) (redis st)
            = <[key p concurrent_f := {| value := 0; expireAt := ex |}]> (redis st)) as ->.
    { unfold redis_add. by rewrite Hheld, Hin. }
    assert (live (writeAt c') {| value := 0; expireAt := ex |} = true) as Hin0
      by exact Hin'.
    unfold redis_add. rewrite lookup_insert_eq, Hin0. cbn [value RateLimiter.expireAt].
    split; [by rewrite lookup_insert_eq|].
    unfold redis_get. rewrite lookup_insert_eq.
    change (live (writeAt c') {| value := 0 + -1; expireAt := ex |})
      with (live (writeAt c') {| value := 1; expireAt := ex |}).
    by rewrite Hin'.
Qed.

(** The counter of groq after one call admitted at 1001 holds 1 until
    301001.  A release whose GET is performed at 301000 and whose DECR at
    301001 leaves -1; so do two releases at 2000 that overlap. *)
Lemma release_leaves_counter_negative_witness :
  let st := (run empty_limiter [CheckLimit groq 1000 true; CheckLimit groq 1001 true]).1 in
  let late :=
    {| configured := true; readAt := 301000; readOk := true; seenAt := 301000;
       startAt := 301000; refusedAt := 301000;
       writeAt := 301001; write1 := Answers; write2 := Answers;
       ttlAt := 301001; ttl := Answers; lastAt := 301001 |} in
  sharedCounter st groq = Some 1
  ∧ sharedCounter (releaseSlot st groq late) groq = Some (-1)
  ∧ sharedCounter (releaseSlotOverlapping st groq (atOnce 2000 true) (atOnce 2000 true))
      groq = Some (-1).
Proof.
  cbv zeta. split; [vm_compute; reflexivity|]. split.
  - apply (release_leaves_counter_negative
             (run empty_limiter [CheckLimit groq 1000 true; CheckLimit groq 1001 true]).1
             groq (Some 301001)
             {| configured := true; readAt := 301000; readOk := true; seenAt := 301000;
                startAt := 301000; refusedAt := 301000;
                writeAt := 301001; write1 := Answers; write2 := Answers;
                ttlAt := 301001; ttl := Answers; lastAt := 301001 |}
             (atOnce 2000 true));
      vm_compute; reflexivity.
  - apply (release_leaves_counter_negative
             (run empty_limiter [CheckLimit groq 1000 true; CheckLimit groq 1001 true]).1
             groq (Some 301001) (atOnce 2000 true) (atOnce 2000 true));
      vm_compute; reflexivity.
Defined.

(** *** One window of the shared store *)

(** Every provider has a window of one minute, and the keys of a window
    live as long as the window. *)
Lemma window_ttl p :
  JS.ceil_div (windowMs (PROVIDER_LIMITS p)) 1000 * 1000 = windowMs (PROVIDER_LIMITS p).
Proof. by destruct p. Qed.

Lemma checkRedisLimit_other r q limits now c k :
  (∀ f, k ≠ key q f) → (checkRedisLimit r q limits now c).1 !! k = r !! k.
Proof.
  intros Hk. unfold checkRedisLimit.
  destruct (readOk c); [|done]. cbn [negb].
  destruct (redis_window_over r q limits (readAt c) (seenAt c)).
  - assert (perform (write2 c)
              (redis_set_ex (writeAt c) (key q count_f) 1
                 (JS.ceil_div (windowMs limits) 1000))
              (perform (write1 c)
                 (redis_set_ex (writeAt c) (key q window_f) (startAt c)
                    (JS.ceil_div (windowMs limits) 1000)) r) !! k = r !! k) as H.
    { rewrite !lookup_perform_ne; [done|..]; intros r';
        apply lookup_set_ex_ne; intros E; by eapply Hk. }
    by destruct (rejects (write1 c) || rejects (write2 c)).
  - destruct (maxRPM limits <=? _); [done|].
    destruct (maxConcurrent limits <=? _); [done|].
    assert (perform (write2 c) (redis_incr (writeAt c) (key q concurrent_f))
              (perform (write1 c) (redis_incr (writeAt c) (key q count_f)) r) !! k
            = r !! k) as H.
    { rewrite !lookup_perform_ne; [done|..]; intros r'; unfold redis_incr;
        apply lookup_add_ne; intros E; by eapply Hk. }
    destruct (rejects (write1 c) || rejects (write2 c)); [done|].
    destruct (rejects (ttl c)); cbn [fst];
      (rewrite lookup_perform_ne; [done|]; intros r';
       apply lookup_expire_ne; intros E; by eapply Hk).
Qed.

Lemma window_at_read r p w c now :
  window_at r p w c → now - w < windowMs (PROVIDER_LIMITS p) →
  redis_get now (key p window_f) r = Some w ∧ redis_get now (key p count_f) r = Some c.
Proof.
  intros [Hw Hc] Hnow. unfold redis_get, live. rewrite Hw, Hc. simpl.
  destruct (Z.ltb_spec now (w + windowMs (PROVIDER_LIMITS p))); [done | lia].
Qed.

Lemma window_at_not_over r p w c now :
  window_at r p w c → w ≠ 0 → now - w < windowMs (PROVIDER_LIMITS p) →
  redis_window_over r p (PROVIDER_LIMITS p) now now = false.
Proof.
  intros Hat Hw Hnow. unfold redis_window_over.
  destruct (window_at_read _ _ _ _ _ Hat Hnow) as [-> _]. simpl.
  destruct (Z.eqb_spec w 0); [done|]. simpl.
  destruct (Z.leb_spec (windowMs (PROVIDER_LIMITS p)) (now - w)); [lia | done].
Qed.

Lemma window_at_over r p w c now :
  window_at r p w c → windowMs (PROVIDER_LIMITS p) ≤ now - w →
  redis_window_over r p (PROVIDER_LIMITS p) now now = true.
Proof.
  intros [Hw _] Hnow. unfold redis_window_over, redis_get, live. rewrite Hw. simpl.
  destruct (Z.ltb_spec now (w + windowMs (PROVIDER_LIMITS p))); [lia | done].
Qed.

(** A call that finds the window over starts the next one. *)
Lemma checkRedisLimit_fresh r p now arg :
  redis_window_over r p (PROVIDER_LIMITS p) now now = true →
  (checkRedisLimit r p (PROVIDER_LIMITS p) arg (atOnce now true)).2
  = Some (fresh_window (PROVIDER_LIMITS p))
  ∧ window_at (checkRedisLimit r p (PROVIDER_LIMITS p) arg (atOnce now true)).1 p now 1.
Proof.
  intros Hover. rewrite checkRedisLimit_atOnce, Hover. simpl. split; [done|].
  unfold window_at, redis_set_ex. rewrite window_ttl. split.
  - rewrite lookup_insert_ne by (by apply key_ne_field). by rewrite lookup_insert_eq.
  - by rewrite lookup_insert_eq.
Qed.

(** A call of [p] inside its window: refused at [maxRPM], and counted when
    admitted. *)
Lemma checkRedisLimit_in_window r p w c now arg :
  window_at r p w c → w ≠ 0 → now - w < windowMs (PROVIDER_LIMITS p) →
  ∃ res,
    (checkRedisLimit r p (PROVIDER_LIMITS p) arg (atOnce now true)).2 = Some res
    ∧ window_at (checkRedisLimit r p (PROVIDER_LIMITS p) arg (atOnce now true)).1 p w
        (if allowed res then c + 1 else c)
    ∧ (maxRPM (PROVIDER_LIMITS p) ≤ c →
       res = {| allowed := false; remaining := 0;
                resetMs := windowMs (PROVIDER_LIMITS p) - (now - w) |}).
Proof.
  intros Hat Hw Hnow. rewrite checkRedisLimit_atOnce.
  rewrite (window_at_not_over _ _ _ _ _ Hat Hw Hnow).
  destruct (window_at_read _ _ _ _ _ Hat Hnow) as [-> ->]. simpl.
  destruct (Z.leb_spec (maxRPM (PROVIDER_LIMITS p)) c).
  { eexists. split; [done|]. by split. }
  destruct (maxConcurrent (PROVIDER_LIMITS p) <=? _); simpl;
    (eexists; split; [done|]; split; [|lia]); [done|]. simpl.
  destruct Hat as [Hwin Hcnt]. unfold window_at, redis_incr. split.
  - rewrite lookup_expire_ne, !lookup_add_ne by (by apply key_ne_field). done.
  - rewrite lookup_expire_ne, lookup_add_ne by (by apply key_ne_field).
    unfold redis_add, live. rewrite Hcnt. simpl.
    destruct (Z.ltb_spec now (w + windowMs (PROVIDER_LIMITS p))); [|lia].
    by rewrite lookup_insert_eq.
Qed.

(** The same for [checkLimit] with the store reachable. *)
Lemma checkLimit_in_window st p w c now :
  window_at (redis st) p w c → w ≠ 0 → now - w < windowMs (PROVIDER_LIMITS p) →
  window_at (redis (checkLimit st p now (atOnce now true)).1) p w
    (if allowed (checkLimit st p now (atOnce now true)).2 then c + 1 else c)
  ∧ (maxRPM (PROVIDER_LIMITS p) ≤ c →
     (checkLimit st p now (atOnce now true)).2
     = {| allowed := false; remaining := 0;
          resetMs := windowMs (PROVIDER_LIMITS p) - (now - w) |}).
Proof.
  intros Hat Hw Hnow.
  destruct (checkRedisLimit_in_window _ _ _ _ _ now Hat Hw Hnow) as (res & Hres & H).
  destruct (checkLimit_shared st p now) as (res' & Hres' & ->).
  rewrite Hres in Hres'. injection Hres' as <-. exact H.
Qed.

Lemma step_in_window st p w c o :
  window_at (redis st) p w c → w ≠ 0 → within_window p w o = true →
  window_at (redis (step st o).1) p w
    (c + if is_admission p (step st o).2 then 1 else 0).
Proof.
  intros Hat Hw Hin. destruct o as [q now up|q now up].
  - rewrite step_check. cbn [fst snd is_admission]. simpl in Hin.
    destruct (decide (q = p)) as [->|Hne].
    + apply andb_prop in Hin as [-> Hnow]. apply Z.ltb_lt in Hnow.
      destruct (checkLimit_in_window _ _ _ _ _ Hat Hw Hnow) as [Hstep _].
      rewrite bool_decide_eq_true_2 by done. cbn [andb].
      destruct (allowed _); [done | by rewrite Z.add_0_r].
    + rewrite bool_decide_eq_false_2 by done. cbn [andb]. rewrite Z.add_0_r.
      destruct Hat as [Hwin Hcnt]. unfold window_at.
      rewrite checkLimit_redis. destruct (configured (atOnce now up)); [|done].
      rewrite !checkRedisLimit_other
        by (intros f; apply key_ne_provider; congruence). done.
  - cbn [step fst snd is_admission]. rewrite Z.add_0_r.
    rewrite releaseSlot_redis. destruct up; [|done]. destruct Hat as [Hwin Hcnt].
    unfold window_at. by rewrite !releaseRedis_other by (by apply key_ne_field).
Qed.

Lemma admitted_cons p e es :
  admitted p (e :: es) = (if is_admission p e then 1 else 0) + admitted p es.
Proof.
  unfold admitted. rewrite filter_cons.
  destruct (is_admission p e); case_decide; try done; simpl length; lia.
Qed.

Lemma run_cons st o ops :
  run st (o :: ops)
  = ((run (step st o).1 ops).1, (step st o).2 :: (run (step st o).1 ops).2).
Proof. simpl. destruct (step st o) as [st1 e]. simpl. by destruct (run st1 ops). Qed.

Lemma run_in_window ops : ∀ st p w c,
  window_at (redis st) p w c → w ≠ 0 → forallb (within_window p w) ops = true →
  window_at (redis (run st ops).1) p w (c + admitted p (run st ops).2).
Proof.
  induction ops as [|o ops IH]; intros st p w c Hat Hw Hin.
  - simpl. unfold admitted. simpl. by rewrite Z.add_0_r.
  - simpl in Hin. apply andb_prop in Hin as [Ho Hops].
    pose proof (step_in_window _ _ _ _ _ Hat Hw Ho) as Hstep.
    rewrite run_cons. cbn [fst snd].
    specialize (IH _ _ _ _ Hstep Hw Hops).
    rewrite admitted_cons. by rewrite Z.add_assoc.
Qed.

Lemma checkLimit_fresh st p now :
  window_over st p now true = true →
  (checkLimit st p now (atOnce now true)).2 = fresh_window (PROVIDER_LIMITS p)
  ∧ window_at (redis (checkLimit st p now (atOnce now true)).1) p now 1.
Proof.
  unfold window_over. intros Hover.
  destruct (checkRedisLimit_fresh _ _ _ now Hover) as [Hres Hat].
  destruct (checkLimit_shared st p now) as (res' & Hres' & ->).
  rewrite Hres in Hres'. injection Hres' as <-. done.
Qed.

(** C1. With the shared store reachable, let a call of provider [p] at
    [t0] (a clock reading other than 0, which the store would read back as
    no window) find the window unset or over, so that it starts a window, and
    let any operations follow while that window is open.  If [maxRPM] calls of
    [p] were admitted by then, the first included, the next call of [p] in
    the window, at [t], is refused with
    [resetMs = windowMs - (t - t0)]; and a call of [p] once [windowMs] has
    passed since [t0] is admitted and starts a window at its own time with
    the count back at 1. *)
Theorem rpm_limit_per_window (st : Limiter) (p : ProviderName) (t0 : Z)
    (ops : list Op) :
  t0 ≠ 0 →
  window_over st p t0 true = true →
  forallb (within_window p t0) ops = true →
  let limits := PROVIDER_LIMITS p in
  let st1 := (run st (CheckLimit p t0 true :: ops)).1 in
  let es := (run st (CheckLimit p t0 true :: ops)).2 in
  (admitted p es = maxRPM limits →
   ∀ t, t - t0 < windowMs limits →
     (checkLimit st1 p t (atOnce t true)).2
     = {| allowed := false; remaining := 0; resetMs := windowMs limits - (t - t0) |})
  ∧ (∀ t, windowMs limits ≤ t - t0 →
       (checkLimit st1 p t (atOnce t true)).2 = fresh_window limits
       ∧ allowed (checkLimit st1 p t (atOnce t true)).2 = true
       ∧ sharedWindow (checkLimit st1 p t (atOnce t true)).1 p t = Some t
       ∧ sharedCount (checkLimit st1 p t (atOnce t true)).1 p t = Some 1).
Proof.
  intros Ht0 Hover Hops. cbv zeta. rewrite run_cons, step_check. cbn [fst snd].
  destruct (checkLimit_fresh _ _ _ Hover) as [Hres Hat]. rewrite Hres.
  set (st0 := (checkLimit st p t0 (atOnce t0 true)).1) in *.
  pose proof (run_in_window ops _ _ _ _ Hat Ht0 Hops) as Hrun.
  set (st1 := (run st0 ops).1) in *. set (es := (run st0 ops).2) in *. split.
  - rewrite admitted_cons. cbn [is_admission fresh_window allowed].
    rewrite bool_decide_eq_true_2 by done. cbn [andb].
    intros Hadm t Ht. rewrite Hadm in Hrun.
    destruct (checkLimit_in_window _ _ _ _ t Hrun Ht0 Ht) as [_ Hdeny].
    apply Hdeny. lia.
  - intros t Ht.
    assert (window_over st1 p t true = true) as Hover1
      by (by eapply window_at_over).
    destruct (checkLimit_fresh _ _ _ Hover1) as [Hres1 [Hwin Hcnt]].
    rewrite Hres1. split; [done|]. split; [done|].
    unfold sharedWindow, sharedCount, redis_get, live. rewrite Hwin, Hcnt.
    cbn [RateLimiter.expireAt value].
    destruct (Z.ltb_spec t (t + windowMs (PROVIDER_LIMITS p))); [done|].
    destruct p; simpl in *; lia.
Qed.

Lemma rpm_limit_per_window_witness :
  (checkLimit (run empty_limiter (CheckLimit groq 1000 true :: callsInTurn groq 1000 24)).1
     groq 2000 (atOnce 2000 true)).2
  = {| allowed := false; remaining := 0; resetMs := 59000 |}.
Proof.
  apply (proj1 (rpm_limit_per_window empty_limiter groq 1000 (callsInTurn groq 1000 24)
                  ltac:(lia) ltac:(vm_compute; reflexivity)
                  ltac:(vm_compute; reflexivity))).
  - vm_compute. reflexivity.
  - simpl. lia.
Defined.

(** *** Admission through a new window *)

Lemma new_window_frame st p now up :
  window_over st p now up = true →
  (checkLimit st p now (atOnce now up)).2 = fresh_window (PROVIDER_LIMITS p)
  ∧ sharedCounter (checkLimit st p now (atOnce now up)).1 p = sharedCounter st p
  ∧ localCounter (checkLimit st p now (atOnce now up)).1 p = localCounter st p.
Proof.
  unfold window_over. destruct up; intros Hover.
  - destruct (checkRedisLimit_fresh _ _ _ now Hover) as [Hres _].
    destruct (checkLimit_shared st p now) as (res' & Hres' & ->).
    rewrite Hres in Hres'. injection Hres' as <-. cbn [fst snd].
    split; [done|]. split; [|done].
    unfold sharedCounter. cbn [with_redis redis].
    rewrite checkRedisLimit_atOnce, Hover. cbn [fst].
    by rewrite !lookup_set_ex_ne by (by apply key_ne_field).
  - rewrite checkLimit_local.
    unfold local_window_over in Hover. unfold checkLocalLimit.
    destruct (localCounts st !! provider_name p) as [state|]; [|done].
    by rewrite Hover.
Qed.

(** C10. A [checkLimit] that finds the window unset or over, on the
    shared store or on the local fallback, is admitted whatever the
    concurrency counter holds and leaves both counters of its provider as
    they were.  So calls in flight can outnumber [maxConcurrent]: for every
    provider a first call, [maxConcurrent] more in its window and one more
    when the window is over are all admitted with no release; and on either
    path [maxConcurrent + 1] calls one window apart are all admitted while
    both counters stay at zero. *)
Theorem new_window_skips_concurrency :
  (∀ st p now up,
     window_over st p now up = true →
     (checkLimit st p now (atOnce now up)).2 = fresh_window (PROVIDER_LIMITS p)
     ∧ allowed (checkLimit st p now (atOnce now up)).2 = true
     ∧ sharedCounter (checkLimit st p now (atOnce now up)).1 p = sharedCounter st p
     ∧ localCounter (checkLimit st p now (atOnce now up)).1 p = localCounter st p)
  ∧ (∀ p,
       let n := maxConcurrent (PROVIDER_LIMITS p) in
       in_flight p (run empty_limiter (burst p true (Z.to_nat n))).2 = n + 2)
  ∧ (∀ p up,
       let n := maxConcurrent (PROVIDER_LIMITS p) in
       let end_ := run empty_limiter (oneCallPerWindow p up (Z.to_nat n + 1)) in
       in_flight p end_.2 = n + 1
       ∧ sharedCounter end_.1 p = None
       ∧ localCounter end_.1 p = None).
Proof.
  split; [|split].
  - intros st p now up Hover.
    destruct (new_window_frame _ _ _ _ Hover) as (Hres & Hs & Hl).
    rewrite Hres. done.
  - intros p. destruct p; vm_compute; reflexivity.
  - intros p up. destruct p, up; vm_compute; done.
Qed.

(** The three calls of groq that fill its concurrency budget, then a call
    when the window is over. *)
Lemma new_window_skips_concurrency_witness :
  let st := (run empty_limiter (burst groq true 3)).1 in
  sharedCounter st groq = Some 3
  ∧ allowed (checkLimit st groq 200000 (atOnce 200000 true)).2 = true
  ∧ sharedCounter (checkLimit st groq 200000 (atOnce 200000 true)).1 groq = Some 3.
Proof.
  pose proof (proj1 new_window_skips_concurrency
                (run empty_limiter (burst groq true 3)).1 groq 200000 true
                ltac:(vm_compute; reflexivity)) as (_ & Hallowed & Hshared & _).
  split; [vm_compute; reflexivity|]. split; [exact Hallowed|].
  rewrite Hshared. vm_compute. reflexivity.
Defined.

End RateLimiterSpec.

(** ** The persistent cache *)

Module PersistentCacheSpec.

Import PersistentCache.

(** *** Jaccard similarity *)

Lemma intersection_count (A B : gset string) :
  length (filter (λ x, x ∈ B) (elements A)) = size (A ∩ B).
Proof.
  unfold size, set_size. simpl. apply Permutation_length, NoDup_Permutation.
  - apply NoDup_filter, NoDup_elements.
  - apply NoDup_elements.
  - intros x. rewrite list_elem_of_filter, !elem_of_elements. set_solver.
Qed.

Lemma union_count (A B : gset string) :
  size (list_to_set (elements A ++ elements B) : gset string) = size (A ∪ B).
Proof.
  f_equal. apply set_eq. intros x.
  rewrite elem_of_list_to_set, elem_of_app, !elem_of_elements. set_solver.
Qed.

Lemma size_zero_iff (A : gset string) : (size A =? 0)%nat = true ↔ A = ∅.
Proof.
  rewrite Nat.eqb_eq. split.
  - intros H. by apply leibniz_equiv, size_empty_inv.
  - intros ->. apply size_empty.
Qed.

Lemma jaccardSimilarity_nonempty (A B : gset string) :
  A ≠ ∅ → B ≠ ∅ →
  jaccardSimilarity A B
  = (inject_Z (Z.of_nat (size (A ∩ B))) / inject_Z (Z.of_nat (size (A ∪ B))))%Q.
Proof.
  intros HA HB. unfold jaccardSimilarity.
  destruct (size A =? 0)%nat eqn:EA; [by apply size_zero_iff in EA|].
  destruct (size B =? 0)%nat eqn:EB; [by apply size_zero_iff in EB|].
  simpl. by rewrite intersection_count, union_count.
Qed.

Lemma jaccardSimilarity_empty (A B : gset string) :
  A = ∅ ∨ B = ∅ → jaccardSimilarity A B = 0%Q.
Proof.
  intros H. unfold jaccardSimilarity.
  destruct (size A =? 0)%nat eqn:EA; [done|].
  destruct (size B =? 0)%nat eqn:EB; [done|]. exfalso.
  destruct H as [HA|HB]; [apply size_zero_iff in HA | apply size_zero_iff in HB];
    congruence.
Qed.

Lemma jaccardSimilarity_sym (A B : gset string) :
  jaccardSimilarity A B = jaccardSimilarity B A.
Proof.
  destruct (decide (A = ∅)) as [HA|HA].
  { rewrite !jaccardSimilarity_empty; auto. }
  destruct (decide (B = ∅)) as [HB|HB].
  { rewrite !jaccardSimilarity_empty; auto. }
  rewrite !jaccardSimilarity_nonempty by done.
  by rewrite (comm_L (∩) A B), (comm_L (∪) A B).
Qed.

Lemma union_size_pos (A B : gset string) : A ≠ ∅ → (0 < size (A ∪ B))%nat.
Proof.
  intros HA. destruct (size (A ∪ B)) eqn:E; [|lia]. exfalso. apply HA.
  apply size_empty_inv in E. apply leibniz_equiv. set_solver.
Qed.

(** C8. For all token sets [A] and [B], [jaccardSimilarity A B] is the
    quotient of the size of the intersection by the size of the union when
    both are non-empty and 0 when one of them is empty; it is symmetric, 0
    for disjoint sets and 1 for two identical non-empty sets. *)
Theorem jaccardSimilarity_spec :
  (∀ A B : gset string, A ≠ ∅ → B ≠ ∅ →
     jaccardSimilarity A B
     = (inject_Z (Z.of_nat (size (A ∩ B))) / inject_Z (Z.of_nat (size (A ∪ B))))%Q)
  ∧ (∀ A B : gset string, A = ∅ ∨ B = ∅ → jaccardSimilarity A B = 0%Q)
  ∧ (∀ A B : gset string, jaccardSimilarity A B = jaccardSimilarity B A)
  ∧ (∀ A B : gset string, A ## B → (jaccardSimilarity A B == 0)%Q)
  ∧ (∀ A : gset string, A ≠ ∅ → (jaccardSimilarity A A == 1)%Q).
Proof.
  split; [exact jaccardSimilarity_nonempty|].
  split; [exact jaccardSimilarity_empty|].
  split; [exact jaccardSimilarity_sym|]. split.
  - intros A B Hdisj.
    destruct (decide (A = ∅)) as [HA|HA].
    { by rewrite jaccardSimilarity_empty by auto. }
    destruct (decide (B = ∅)) as [HB|HB].
    { by rewrite jaccardSimilarity_empty by auto. }
    rewrite jaccardSimilarity_nonempty by done.
    replace (A ∩ B) with (∅ : gset string) by set_solver.
    rewrite size_empty. unfold Qdiv. simpl. apply Qmult_0_l.
  - intros A HA. rewrite jaccardSimilarity_nonempty by done.
    replace (A ∩ A) with A by set_solver.
    replace (A ∪ A) with A by set_solver.
    apply Qmult_inv_r. pose proof (union_size_pos A A HA) as Hpos.
    replace (A ∪ A) with A in Hpos by set_solver.
    unfold Qeq. simpl. lia.
Qed.

Lemma jaccardSimilarity_spec_witness :
  let A := tokenize "todo app react" in
  let B := tokenize "react todo list" in
  jaccardSimilarity A B
  = (inject_Z (Z.of_nat (size (A ∩ B))) / inject_Z (Z.of_nat (size (A ∪ B))))%Q
  ∧ (jaccardSimilarity A A == 1)%Q.
Proof.
  intros A B.
  assert (A ≠ ∅) as HA by (intros H; apply (f_equal size) in H; vm_compute in H; lia).
  assert (B ≠ ∅) as HB by (intros H; apply (f_equal size) in H; vm_compute in H; lia).
  split.
  - exact (proj1 jaccardSimilarity_spec A B HA HB).
  - exact (proj2 (proj2 (proj2 (proj2 jaccardSimilarity_spec))) A HA).
Defined.

(** *** The scan of the job queue *)

Lemma recent_completed_elem cutoff rows j :
  j ∈ recent_completed cutoff rows → j ∈ rows ∧ completed_since cutoff j = true.
Proof.
  unfold recent_completed. intros Hj. apply subseteq_take in Hj.
  rewrite merge_sort_Permutation in Hj. by apply list_elem_of_filter in Hj as [? ?].
Qed.

(** A job of the window that the scan leaves out is no newer than any job
    the scan reads. *)
Lemma recent_completed_newest cutoff rows j j' :
  j ∈ recent_completed cutoff rows →
  j' ∈ rows → completed_since cutoff j' = true →
  j' ∉ recent_completed cutoff rows →
  newer_first j j'.
Proof.
  unfold recent_completed. intros Hj Hrows Hsince Hout.
  set (sorted := merge_sort newer_first
                   (filter (λ j, completed_since cutoff j = true) rows)) in *.
  assert (j' ∈ sorted) as Hin.
  { unfold sorted. rewrite merge_sort_Permutation. by apply list_elem_of_filter. }
  rewrite <- (take_drop SCAN_LIMIT sorted) in Hin.
  apply elem_of_app in Hin as [Hin|Hin]; [done|].
  eapply (StronglySorted_app_1_elem_of newer_first (take SCAN_LIMIT sorted)
            (drop SCAN_LIMIT sorted)); [|done..].
  rewrite take_drop. apply StronglySorted_merge_sort; apply _.
Qed.

Lemma Qlt_bool_iff x y : Qlt_bool x y = true ↔ (x < y)%Q.
Proof.
  unfold Qlt_bool. rewrite negb_true_iff. split.
  - intros H. apply Qnot_le_lt. intros Hle. apply Qle_bool_iff in Hle. congruence.
  - intros H. destruct (Qle_bool y x) eqn:E; [|done].
    apply Qle_bool_iff in E. exfalso. by apply (Qlt_not_le x y).
Qed.

Lemma scan_keeps_best tokens threshold seen best job :
  best_of_seen tokens threshold seen best →
  best_of_seen tokens threshold (seen ++ [job]) (scan tokens threshold best job).
Proof.
  intros Hbest. unfold scan.
  destruct (job_similarity tokens job) as [s|] eqn:Hsim.
  - destruct (Qle_bool threshold s && Qlt_bool best.2 s) eqn:Hcond.
    + apply andb_prop in Hcond as [Hth Hlt].
      apply Qle_bool_iff in Hth. apply Qlt_bool_iff in Hlt.
      unfold best_of_seen in *. simpl. split; [done|].
      exists job. split; [set_solver|]. split; [done|]. split; [done|].
      destruct best as [[r|] score]; simpl in *.
      * destruct Hbest as (_ & j & _ & _ & _ & [Hacc0 Hpos0] & Hmax). split.
        { split; [done|]. lra. }
        intros j' s' Hj' Hs'. apply elem_of_app in Hj' as [Hj'|Hj'].
        { specialize (Hmax _ _ Hj' Hs'). lra. }
        apply list_elem_of_singleton in Hj' as ->.
        rewrite Hsim in Hs'. injection Hs' as <-. lra.
      * destruct Hbest as [-> Hnone]. split; [by split|].
        intros j' s' Hj' Hs'. apply elem_of_app in Hj' as [Hj'|Hj'].
        { destruct (Qlt_le_dec s s') as [Hgt|Hle]; [|done].
          exfalso. apply (Hnone _ _ Hj' Hs'). split; lra. }
        apply list_elem_of_singleton in Hj' as ->.
        rewrite Hsim in Hs'. injection Hs' as <-. lra.
    + assert (¬ ((threshold <= s)%Q ∧ (best.2 < s)%Q)) as Hnot.
      { intros [Hth Hlt]. apply Qle_bool_iff in Hth. apply Qlt_bool_iff in Hlt.
        by rewrite Hth, Hlt in Hcond. }
      unfold best_of_seen in *. destruct best as [[r|] score]; simpl in *.
      * destruct Hbest as (Hr & j & Hj & Hhit & Hjs & [Hacc0 Hpos0] & Hmax).
        split; [done|]. exists j. split; [set_solver|]. do 3 (split; [done|]).
        intros j' s' Hj' Hs'. apply elem_of_app in Hj' as [Hj'|Hj'].
        { by eapply Hmax. }
        apply list_elem_of_singleton in Hj' as ->.
        rewrite Hsim in Hs'. injection Hs' as <-.
        destruct (Qlt_le_dec score s) as [Hgt|Hle]; [|done].
        exfalso. apply Hnot. split; [lra | done].
      * destruct Hbest as [-> Hnone]. split; [done|].
        intros j' s' Hj' Hs'. apply elem_of_app in Hj' as [Hj'|Hj'].
        { by eapply Hnone. }
        apply list_elem_of_singleton in Hj' as ->.
        rewrite Hsim in Hs'. injection Hs' as <-. intros [? ?]. by apply Hnot.
  - unfold best_of_seen in *. destruct best as [[r|] score]; simpl in *.
    + destruct Hbest as (Hr & j & Hj & Hhit & Hjs & Hacc & Hmax).
      split; [done|]. exists j. split; [set_solver|]. do 3 (split; [done|]).
      intros j' s' Hj' Hs'. apply elem_of_app in Hj' as [Hj'|Hj'].
      { by eapply Hmax. }
      apply list_elem_of_singleton in Hj' as ->. congruence.
    + destruct Hbest as [-> Hnone]. split; [done|].
      intros j' s' Hj' Hs'. apply elem_of_app in Hj' as [Hj'|Hj'].
      { by eapply Hnone. }
      apply list_elem_of_singleton in Hj' as ->. congruence.
Qed.

Lemma fold_scan_keeps_best tokens threshold jobs : ∀ seen best,
  best_of_seen tokens threshold seen best →
  best_of_seen tokens threshold (seen ++ jobs)
    (fold_left (scan tokens threshold) jobs best).
Proof.
  induction jobs as [|job jobs IH]; intros seen best Hbest; simpl.
  - by rewrite app_nil_r.
  - replace (seen ++ job :: jobs)%list with ((seen ++ [job]) ++ jobs)%list
      by (by rewrite <- app_assoc).
    apply IH. by apply scan_keeps_best.
Qed.

Lemma bestOf_spec tokens threshold jobs :
  best_of_seen tokens threshold jobs
    (fold_left (scan tokens threshold) jobs (None, 0%Q)).
Proof.
  apply (fold_scan_keeps_best tokens threshold jobs [] (None, 0%Q)).
  split; [done|]. intros j s Hj. by apply elem_of_nil in Hj.
Qed.

Lemma recent_completed_count cutoff rows :
  length (recent_completed cutoff rows)
  = Nat.min 100 (length (filter (λ j, completed_since cutoff j = true) rows)).
Proof.
  unfold recent_completed, SCAN_LIMIT. rewrite length_take. f_equal.
  apply Permutation_length, merge_sort_Permutation.
Qed.

(** *** The cutoff *)

Lemma truncate_between (lo hi : Z) (q : Q) :
  (inject_Z lo <= q)%Q → (q <= inject_Z hi)%Q → lo ≤ JS.truncate q ≤ hi.
Proof.
  intros Hlo Hhi.
  assert (lo ≤ Qfloor q) as Hfloor
    by (rewrite <- (Qfloor_Z lo); by apply Qfloor_resp_le).
  assert (Qceiling q ≤ hi) as Hceil
    by (rewrite <- (Qceiling_Z hi); by apply Qceiling_resp_le).
  assert (Qfloor q ≤ Qceiling q) as Hfc
    by (rewrite Zle_Qle; apply Qle_floor_ceiling).
  unfold JS.truncate. destruct (Qle_bool 0 q); lia.
Qed.

(** On a host whose zone offset is the same at the call and at the cutoff,
    the cutoff lies [maxAgeHours] before the call, rounded to a whole number
    of hours one way or the other. *)
Lemma cutoffDate_bounds host now h cutoff :
  cutoffDate host now (JS.Finite h) = Some cutoff →
  steady_zone host now h → rounded host now h →
  now - Qceiling h * HOUR_MS ≤ cutoff ≤ now - Qfloor h * HOUR_MS.
Proof.
  unfold cutoffDate, steady_zone, rounded. cbv zeta. intros Hcut Hzone [Hlo Hhi].
  destruct (Z.abs _ <=? MAX_TIME); [|done]. injection Hcut as <-.
  rewrite Hzone. unfold localCutoff. cbv zeta.
  destruct (truncate_between _ _ _ Hlo Hhi) as [H1 H2].
  unfold HOUR_MS. lia.
Qed.

(** C7, as amended. [findCachedResponse] reads at most the 100 most
    recently completed jobs among those completed at or after the cutoff of
    its query, and all of them when they are at most 100.  On a host whose
    zone offset is the same at the call and at the cutoff, the cutoff lies
    [maxAgeHours] before the call when that is a whole number, and between
    [maxAgeHours] rounded down and rounded up to whole hours when it is not.
    The function returns the record of a job it read whose similarity is at
    least the threshold and above 0 and is exceeded by the similarity of no
    other job it read, and it returns nothing exactly when no job it read
    has a similarity that is at least the threshold and above 0.  When
    [maxAgeHours] is not finite, or the cutoff is no valid date, it returns
    nothing. *)
Theorem findCachedResponse_best_of_scan (prompt : string) (rows : list Job)
    (host : Host) (now : Z) (maxAgeHours : JS.number) (threshold : Q) :
  let tokens := tokenize prompt in
  match cutoffDate host now maxAgeHours with
  | None => findCachedResponse prompt (Table rows) host now maxAgeHours threshold = None
  | Some cutoff =>
      let scanned := recent_completed cutoff rows in
      (∀ h, maxAgeHours = JS.Finite h →
            steady_zone host now h → rounded host now h →
            now - Qceiling h * HOUR_MS ≤ cutoff ≤ now - Qfloor h * HOUR_MS)
      ∧ (∀ n : Z, maxAgeHours = JS.Finite (inject_Z n) →
            steady_zone host now (inject_Z n) → rounded host now (inject_Z n) →
            cutoff = now - n * HOUR_MS)
      ∧ (∀ j, j ∈ scanned → j ∈ rows ∧ completed_since cutoff j = true)
      ∧ length scanned
        = Nat.min 100 (length (filter (λ j, completed_since cutoff j = true) rows))
      ∧ (∀ j j', j ∈ scanned → j' ∈ rows → completed_since cutoff j' = true →
                 j' ∉ scanned → newer_first j j')
      ∧ match findCachedResponse prompt (Table rows) host now maxAgeHours threshold with
        | Some r =>
            ∃ j, j ∈ scanned ∧ r = hit j (similarity r)
                 ∧ completed_at j = Some (completedAt r)
                 ∧ cutoff ≤ completedAt r
                 ∧ job_similarity tokens j = Some (similarity r)
                 ∧ accepted threshold (similarity r)
                 ∧ ∀ j' s, j' ∈ scanned → job_similarity tokens j' = Some s →
                           (s <= similarity r)%Q
        | None =>
            ∀ j s, j ∈ scanned → job_similarity tokens j = Some s →
                   ¬ accepted threshold s
        end
  end.
Proof.
  intros tokens. unfold findCachedResponse.
  destruct (cutoffDate host now maxAgeHours) as [cutoff|] eqn:Hcut; [|done].
  set (scanned := recent_completed cutoff rows).
  split; [intros h ->; by apply cutoffDate_bounds|].
  split.
  { intros n -> Hzone Hround.
    pose proof (cutoffDate_bounds _ _ _ _ Hcut Hzone Hround) as Hb.
    rewrite Qceiling_Z, Qfloor_Z in Hb. lia. }
  split; [apply recent_completed_elem|].
  split; [apply recent_completed_count|].
  split; [apply recent_completed_newest|].
  pose proof (bestOf_spec tokens threshold scanned) as Hbest.
  assert (bestOf tokens threshold [] = None) as Hnil by done.
  fold tokens. destruct scanned as [|j0 rest] eqn:Hscan.
  { intros j s Hj. by apply elem_of_nil in Hj. }
  rewrite <- Hscan in *. unfold bestOf. unfold best_of_seen in Hbest.
  destruct (fold_left (scan tokens threshold) scanned (None, 0%Q)) as [[r|] score];
    simpl in *.
  - destruct Hbest as (Hscore & j & Hj & Hhit & Hsim & Hacc & Hmax).
    exists j. rewrite Hscore. do 2 (split; [done|]).
    destruct (recent_completed_elem cutoff rows j) as [_ Hsince]; [done|].
    unfold completed_since in Hsince.
    destruct (completed_at j) as [t|] eqn:Ht;
      [|by rewrite andb_false_r in Hsince].
    apply andb_prop in Hsince as [Hsince _]. apply andb_prop in Hsince as [_ Hsince].
    apply Z.leb_le in Hsince.
    assert (completedAt r = t) as -> by (rewrite Hhit; simpl; by rewrite Ht).
    done.
  - by destruct Hbest as [_ Hnone].
Qed.

(** Seventy-two hours on a host on UTC: the cutoff is exactly 72 hours
    before the call, and the job that asks for the same thing is found
    behind 99 newer ones. *)
Lemma findCachedResponse_best_of_scan_witness :
  let queue := first_job :: map filler (seq 0 99) in
  cutoffDate utc 1000200 (JS.Finite 72) = Some (1000200 - 72 * HOUR_MS)
  ∧ findCachedResponse "todo app react" (Table queue) utc 1000200 (JS.Finite 72) (7 # 10)
    = Some (hit first_job (3 # 3))
  ∧ ∀ j s, j ∈ recent_completed (1000200 - 72 * HOUR_MS) queue →
           job_similarity (tokenize "todo app react") j = Some s → (s <= 3 # 3)%Q.
Proof.
  intros queue.
  pose proof (findCachedResponse_best_of_scan "todo app react" queue utc 1000200
                (JS.Finite 72) (7 # 10)) as Hspec.
  assert (cutoffDate utc 1000200 (JS.Finite 72) = Some (1000200 - 72 * HOUR_MS)) as Hcut
    by (vm_compute; reflexivity).
  rewrite Hcut in Hspec. cbv zeta in Hspec.
  destruct Hspec as (_ & _ & _ & _ & _ & Hbest).
  assert (findCachedResponse "todo app react" (Table queue) utc 1000200 (JS.Finite 72)
            (7 # 10)
          = Some (hit first_job (3 # 3))) as Hfound by (vm_compute; reflexivity).
  rewrite Hfound in Hbest. split; [done|]. split; [done|].
  destruct Hbest as (j & _ & _ & _ & _ & _ & _ & Hmax). exact Hmax.
Defined.

(** C7 as the specification words it fails three times on the code.  The
    job that asks for the same thing as the prompt is in the window but a
    hundred newer jobs stand before it, and nothing is returned.  At
    threshold 0 a job of similarity 0 reaches the threshold, and nothing is
    returned.  And with [maxAgeHours] at one and a half, at ten o'clock on a
    host on UTC, the hour of the cutoff is 8.5 cut to 8: a job completed an
    hour and three quarters before the call is returned. *)
Lemma findCachedResponse_misses_candidates :
  (findCachedResponse "todo app react" (Table crowded_queue) utc 1000200 (JS.Finite 72)
     (7 # 10) = None
   ∧ first_job ∈ crowded_queue
   ∧ cutoffDate utc 1000200 (JS.Finite 72) = Some (1000200 - 72 * HOUR_MS)
   ∧ completed_since (1000200 - 72 * HOUR_MS) first_job = true
   ∧ job_similarity (tokenize "todo app react") first_job = Some (3 # 3)
   ∧ (7 # 10 <= 3 # 3)%Q)
  ∧ (findCachedResponse "todo app react" (Table [filler 0]) utc 1000200 (JS.Finite 72) 0
     = None
     ∧ completed_since (1000200 - 72 * HOUR_MS) (filler 0) = true
     ∧ job_similarity (tokenize "todo app react") (filler 0) = Some (0 # 6)
     ∧ (0 <= 0 # 6)%Q)
  ∧ (let now := 10 * HOUR_MS in
     let old := twin "job-old" (now - 6300000) in
     findCachedResponse "todo app react" (Table [old]) utc now (JS.Finite (3 # 2)) (7 # 10)
     = Some (hit old (3 # 3))
     ∧ (inject_Z (completedAt (hit old (3 # 3)))
        < inject_Z now - (3 # 2) * inject_Z HOUR_MS)%Q).
Proof.
  split; [|split].
  - split; [vm_compute; reflexivity|]. split; [apply list_elem_of_here|].
    split; [vm_compute; reflexivity|].
    split; [vm_compute; reflexivity|]. split; [vm_compute; reflexivity|].
    unfold Qle. simpl. lia.
  - split; [vm_compute; reflexivity|]. split; [vm_compute; reflexivity|].
    split; [vm_compute; reflexivity|]. unfold Qle. simpl. lia.
  - cbv zeta. split; [vm_compute; reflexivity|]. vm_compute. reflexivity.
Qed.

End PersistentCacheSpec.

(** ** The orchestrator *)

Module OrchestratorSpec.

Import JS Orchestrator.

(** *** executeParallel *)

Lemma executeGroups_quiet w plan groups : ∀ i allResults,
  quiet w →
  executeGroups w plan i groups allResults
  = inr (resultsOfGroups w plan groups allResults).
Proof.
  induction groups as [|g groups IH]; intros i acc Hq; [done|].
  simpl. rewrite Hq. simpl. by apply IH.
Qed.





Lemma runTask_taskId w prev t : AgentResult.taskId (runTask w prev t) = SubTask.id t.
Proof.
  unfold runTask, raceAgent, executeAgent.
  destruct (agentInTime w t prev); [|done]. by destruct (agentRun w t prev).
Qed.

Lemma groupResults_taskIds w plan prev g :
  map AgentResult.taskId (groupResults w plan prev g)
  = map SubTask.id (tasksToRun plan g).
Proof.
  unfold groupResults. rewrite map_map. apply map_ext. intros t. apply runTask_taskId.
Qed.

Lemma resultsOfGroups_taskIds w plan gs : ∀ acc,
  map AgentResult.taskId (resultsOfGroups w plan gs acc)
  = (map AgentResult.taskId acc
     ++ flat_map (λ g, map SubTask.id (tasksToRun plan g)) gs)%list.
Proof.
  induction gs as [|g gs IH]; intros acc; simpl.
  - by rewrite app_nil_r.
  - rewrite IH, map_app, groupResults_taskIds. by rewrite app_assoc.
Qed.




(** *** The order of the results *)

Lemma flat_map_filter_cons {A B : Type} (P : B → A → Prop)
    `{∀ g t, Decision (P g t)} (t : A) (ts : list A) (gs : list B) :
  flat_map (λ g, filter (P g) (t :: ts)) gs
  ≡ₚ (replicate (length (filter (λ g, P g t) gs)) t
      ++ flat_map (λ g, filter (P g) ts) gs)%list.
Proof.
  induction gs as [|g gs IH]; [done|]. simpl.
  rewrite (filter_cons (P g) t ts), (filter_cons (λ g, P g t) g gs).
  destruct (decide (P g t)); simpl; rewrite IH.
  - apply Permutation_skip.
    by rewrite (assoc_L (++)), (comm (++) (filter (P g) ts)), <- (assoc_L (++)).
  - by rewrite (assoc_L (++)), (comm (++) (filter (P g) ts)), <- (assoc_L (++)).
Qed.

Lemma flat_map_filter_once {A B : Type} (P : B → A → Prop)
    `{∀ g t, Decision (P g t)} (ts : list A) (gs : list B) :
  (∀ t, t ∈ ts → length (filter (λ g, P g t) gs) = 1%nat) →
  flat_map (λ g, filter (P g) ts) gs ≡ₚ ts.
Proof.
  induction ts as [|t ts IH]; intros Hone.
  - induction gs as [|g gs IHg]; [done|]. simpl. apply IHg.
    intros t Ht. by apply elem_of_nil in Ht.
  - rewrite flat_map_filter_cons, (Hone t) by apply list_elem_of_here. simpl.
    apply Permutation_skip, IH. intros t' Ht'. apply Hone. by apply list_elem_of_further.
Qed.

Lemma planInvariant_once plan t :
  planInvariant plan = true → t ∈ TaskPlan.subTasks plan →
  length (filter (λ g, SubTask.id t ∈ g) (TaskPlan.parallelGroups plan)) = 1%nat.
Proof.
  unfold planInvariant. intros Hinv Ht.
  apply andb_prop in Hinv as [Hinv _]. apply andb_prop in Hinv as [_ Hone].
  rewrite forallb_forall in Hone. apply list_elem_of_In in Ht.
  specialize (Hone t Ht). by apply Nat.eqb_eq in Hone.
Qed.

Lemma scheduledIds_tasks plan :
  scheduledIds plan
  = map SubTask.id (flat_map (tasksToRun plan) (TaskPlan.parallelGroups plan)).
Proof.
  unfold scheduledIds. generalize (TaskPlan.parallelGroups plan). intros gs.
  induction gs as [|g gs IH]; [done|]. simpl. by rewrite map_app, IH.
Qed.

(** C3, as amended. For every plan that meets the plan invariant, when no
    progress callback throws, [executeParallel] returns exactly one result
    per task; the results come group after group in the order of
    [parallelGroups] and, inside a group, in the order of the task list,
    whatever the tasks return and however long they take. *)
Theorem results_in_group_order (w : World) (plan : TaskPlan.t) :
  planInvariant plan = true →
  quiet w →
  ∃ results,
    executeParallel w plan = inr results
    ∧ map AgentResult.taskId results = scheduledIds plan
    ∧ map AgentResult.taskId results ≡ₚ map SubTask.id (TaskPlan.subTasks plan)
    ∧ ∀ g, g ∈ TaskPlan.parallelGroups plan →
           tasksToRun plan g `sublist_of` TaskPlan.subTasks plan.
Proof.
  intros Hinv Hq. exists (resultsOfGroups w plan (TaskPlan.parallelGroups plan) []).
  split; [by apply executeGroups_quiet|].
  split; [by rewrite resultsOfGroups_taskIds|]. split.
  - rewrite resultsOfGroups_taskIds. simpl. fold (scheduledIds plan).
    rewrite scheduledIds_tasks. apply Permutation_map. unfold tasksToRun.
    apply (flat_map_filter_once (λ g t, SubTask.id t ∈ g)).
    intros t Ht. by apply planInvariant_once.
  - intros g _. apply sublist_filter.
Qed.

Lemma results_in_group_order_witness :
  let w := worldOf true (Some todoPlan)
             (λ t, Answered ("done " +:+ SubTask.id t) 1200) (λ _, true) in
  ∃ results,
    executeParallel w todoPlan = inr results
    ∧ map AgentResult.taskId results = ["design"; "frontend-1"; "frontend-2"].
Proof.
  intros w.
  destruct (results_in_group_order w todoPlan ltac:(vm_compute; reflexivity)
              ltac:(intros i; reflexivity))
    as (results & Hrun & Hids & _).
  exists results. split; [exact Hrun|]. rewrite Hids. vm_compute. reflexivity.
Defined.

(** C3 as the specification words it fails on the code: the plan meets the
    invariant, its task list names "page" before "data", and the results
    come with "data" first. *)
Lemma results_not_in_task_order :
  let w := worldOf true (Some pageDataPlan)
             (λ t, Answered ("done " +:+ SubTask.id t) 1200) (λ _, true) in
  planInvariant pageDataPlan = true
  ∧ map SubTask.id (TaskPlan.subTasks pageDataPlan) = ["page"; "data"]
  ∧ ∃ results,
      executeParallel w pageDataPlan = inr results
      ∧ map AgentResult.taskId results = ["data"; "page"].
Proof.
  intros w. split; [vm_compute; reflexivity|]. split; [reflexivity|].
  eexists. split; [vm_compute; reflexivity|]. reflexivity.
Qed.

(** *** merge: the union and its conflicts *)

(** C4, on the code. Two tasks write different content at "/App.tsx": the
    conflict that is recorded lists the second task only, not the first,
    whose content the second overwrote, and the summary for the specialist
    counts one version; and when the content of the first is the empty
    string, no conflict is recorded at all. *)
Theorem conflict_omits_first_contributor :
  collect [appOne; appTwo]
  = ([("/App.tsx", "export default function App() { return 2 }")],
     [{| filename := "/App.tsx"; sources := [appTwo] |}])
  ∧ conflictSummary (collect [appOne; appTwo]).2
    = "File: /App.tsx (1 versions from: frontend)"
  ∧ collect [appEmpty; appTwo]
    = ([("/App.tsx", "export default function App() { return 2 }")], []).
Proof. split; [|split]; vm_compute; reflexivity. Qed.

Lemma files_get_set fs k v k' :
  files_get (files_set fs k v) k' = if String.eqb k k' then Some v else files_get fs k'.
Proof.
  induction fs as [|[k0 v0] fs IH]; simpl.
  - done.
  - destruct (String.eqb_spec k0 k) as [->|Hne]; simpl.
    + by destruct (String.eqb k k').
    + rewrite IH. destruct (String.eqb_spec k0 k') as [->|Hne'].
      * by rewrite (proj2 (String.eqb_neq k k')).
      * done.
Qed.

Lemma files_set_nonempty fs k v : files_set fs k v ≠ [].
Proof. destruct fs as [|[k0 v0] fs]; simpl; [done|]. by destruct (String.eqb k0 k). Qed.

Lemma files_get_app (fs1 fs2 : Files) k :
  files_get (fs1 ++ fs2)%list k
  = match files_get fs1 k with
    | Some v => Some v
    | None => files_get fs2 k
    end.
Proof.
  induction fs1 as [|[k0 v0] fs1 IH]; simpl; [done|].
  by destruct (String.eqb k0 k).
Qed.

(** [Object.assign]: the last entry of the source for a key wins, and
    the other keys keep what the target had. *)
Lemma files_get_assign src : ∀ target k,
  files_get (files_assign target src) k
  = match files_get (rev src) k with
    | Some v => Some v
    | None => files_get target k
    end.
Proof.
  unfold files_assign. induction src as [|[k0 v0] src IH]; intros target k; simpl.
  - done.
  - rewrite IH, files_get_app, files_get_set. simpl.
    destruct (files_get (rev src) k); [done|]. by destruct (String.eqb k0 k).
Qed.

Lemma files_assign_keeps target src k :
  is_Some (files_get target k) → is_Some (files_get (files_assign target src) k).
Proof.
  intros Hk. rewrite files_get_assign. by destruct (files_get (rev src) k).
Qed.

(** A conflict is only recorded on a file that is in the union. *)
Lemma mergeEntry_nonempty result acc entry :
  (acc.2 ≠ [] → acc.1 ≠ []) →
  (mergeEntry result acc entry).2 ≠ [] → (mergeEntry result acc entry).1 ≠ [].
Proof.
  destruct acc as [allFiles cs], entry as [f c]. unfold mergeEntry.
  destruct (isForbidden f); [done|]. simpl. intros _ _. apply files_set_nonempty.
Qed.

Lemma mergeResult_nonempty result acc :
  (acc.2 ≠ [] → acc.1 ≠ []) →
  (mergeResult acc result).2 ≠ [] → (mergeResult acc result).1 ≠ [].
Proof.
  unfold mergeResult. destruct (AgentResult.files result) as [fs|]; [|done].
  revert acc. induction fs as [|e fs IH]; intros acc Hacc; [done|]. simpl.
  apply IH. by apply mergeEntry_nonempty.
Qed.

Lemma fold_mergeResult_nonempty results : ∀ acc : Files * list Conflict,
  (acc.2 ≠ [] → acc.1 ≠ []) →
  (fold_left mergeResult results acc).2 ≠ [] →
  (fold_left mergeResult results acc).1 ≠ [].
Proof.
  induction results as [|r results IH]; intros acc Hacc; [done|]. simpl.
  apply IH. by apply mergeResult_nonempty.
Qed.

Lemma collect_nonempty results :
  (collect results).2 ≠ [] → (collect results).1 ≠ [].
Proof. unfold collect. by apply fold_mergeResult_nonempty. Qed.

(** What the loop of [merge] holds for one path: its content in the union
    and the sources of its conflict follow the contributions to that path,
    one by one. *)
Lemma sourcesAt_note_eq cs f r :
  sourcesAt (noteConflict cs f r) f = (sourcesAt cs f ++ [r])%list.
Proof.
  unfold sourcesAt. induction cs as [|c cs IH]; simpl.
  - by rewrite String.eqb_refl.
  - destruct (String.eqb (filename c) f) eqn:E; simpl; by rewrite E.
Qed.

Lemma sourcesAt_note_ne cs f f' r :
  f' ≠ f → sourcesAt (noteConflict cs f' r) f = sourcesAt cs f.
Proof.
  intros Hne. unfold sourcesAt. induction cs as [|c cs IH]; simpl.
  - by rewrite (proj2 (String.eqb_neq f' f)).
  - destruct (String.eqb_spec (filename c) f') as [E|E]; simpl.
    + rewrite E. by rewrite (proj2 (String.eqb_neq f' f)).
    + by destruct (String.eqb (filename c) f).
Qed.

Lemma mergeEntry_at f result acc (entry : string * string) :
  isForbidden f = false →
  heldAt (mergeEntry result acc entry) f
  = if decide (entry.1 = f) then overwrite (heldAt acc f) (result, entry.2)
    else heldAt acc f.
Proof.
  intros Hf. destruct acc as [allFiles cs], entry as [f' c]. simpl.
  unfold mergeEntry, heldAt, overwrite. simpl. case_decide as Hff.
  - subst f'. rewrite Hf. simpl. rewrite files_get_set, String.eqb_refl.
    destruct (files_get allFiles f) as [held|]; [|done].
    destruct (nonempty held && negb (String.eqb held c)); [|done].
    by rewrite sourcesAt_note_eq.
  - destruct (isForbidden f'); [done|]. simpl.
    rewrite files_get_set, (proj2 (String.eqb_neq f' f)) by done. f_equal.
    destruct (files_get allFiles f') as [held|]; [|done].
    destruct (nonempty held && negb (String.eqb held c)); [|done].
    by apply sourcesAt_note_ne.
Qed.

Lemma mergeResult_at f result acc :
  isForbidden f = false →
  heldAt (mergeResult acc result) f
  = fold_left overwrite (entriesAt f result) (heldAt acc f).
Proof.
  intros Hf. unfold mergeResult, entriesAt.
  destruct (AgentResult.files result) as [fs|]; [|done].
  revert acc. induction fs as [|e fs IH]; intros acc; [done|]. simpl.
  rewrite IH, mergeEntry_at by done.
  rewrite (filter_cons (λ e0 : string * string, e0.1 = f) e fs).
  by case_decide.
Qed.

Lemma collect_at f results :
  isForbidden f = false →
  heldAt (collect results) f = fold_left overwrite (contributions f results) (None, []).
Proof.
  intros Hf. unfold collect, contributions.
  change (None, []) with (heldAt (([], []) : Files * list Conflict) f).
  generalize (([], []) : Files * list Conflict).
  induction results as [|r results IH]; intros acc; [done|]. simpl.
  by rewrite fold_left_app, IH, mergeResult_at.
Qed.

(** Contributions that all hold the same content leave no source. *)
Lemma overwrite_same c cs : ∀ srcs,
  Forall (λ rc : AgentResult.t * string, rc.2 = c) cs →
  (fold_left overwrite cs (Some c, srcs)).2 = srcs.
Proof.
  induction cs as [|[r c'] cs IH]; intros srcs Hall; [done|].
  apply Forall_cons in Hall as [Hc Hall]. simpl in Hc. subst c'. simpl.
  unfold overwrite at 2. simpl. rewrite String.eqb_refl, andb_false_r. by apply IH.
Qed.

(** Identical content at one path, from however many tasks, records no
    conflict there. *)
Lemma identical_content_no_conflict f c results :
  isForbidden f = false →
  Forall (λ rc : AgentResult.t * string, rc.2 = c) (contributions f results) →
  sourcesAt (collect results).2 f = [].
Proof.
  intros Hf Hall.
  change (sourcesAt (collect results).2 f) with (heldAt (collect results) f).2.
  rewrite collect_at by done.
  destruct (contributions f results) as [|[r c'] cs]; [done|].
  apply Forall_cons in Hall as [Hc Hall]. simpl in Hc. subst c'. simpl.
  unfold overwrite at 2. simpl. by apply overwrite_same.
Qed.

(** *** merge: the specialist *)

Lemma entries_get_set es k v k' :
  entries_get (entries_set es k v) k'
  = if String.eqb k k' then Some v else entries_get es k'.
Proof.
  induction es as [|[k0 v0] es IH]; simpl.
  - done.
  - destruct (String.eqb_spec k0 k) as [->|Hne]; simpl.
    + by destruct (String.eqb k k').
    + rewrite IH. destruct (String.eqb_spec k0 k') as [->|Hne'].
      * by rewrite (proj2 (String.eqb_neq k k')).
      * done.
Qed.

Lemma entries_set_nonempty es k v : entries_set es k v ≠ [].
Proof. destruct es as [|[k0 v0] es]; simpl; [done|]. by destruct (String.eqb k0 k). Qed.

Lemma entries_get_app (es1 es2 : Entries) k :
  entries_get (es1 ++ es2)%list k
  = match entries_get es1 k with
    | Some v => Some v
    | None => entries_get es2 k
    end.
Proof.
  induction es1 as [|[k0 v0] es1 IH]; simpl; [done|].
  by destruct (String.eqb k0 k).
Qed.

(** [Object.assign]: the last entry of the source for a key wins, and
    the other keys keep what the target had. *)
Lemma entries_get_assign src : ∀ target k,
  entries_get (entries_assign target src) k
  = match entries_get (rev src) k with
    | Some v => Some v
    | None => entries_get target k
    end.
Proof.
  unfold entries_assign. induction src as [|[k0 v0] src IH]; intros target k; simpl.
  - done.
  - rewrite IH, entries_get_app, entries_get_set. simpl.
    destruct (entries_get (rev src) k); [done|]. by destruct (String.eqb k0 k).
Qed.

Lemma entries_assign_keeps target src k :
  is_Some (entries_get target k) → is_Some (entries_get (entries_assign target src) k).
Proof.
  intros Hk. rewrite entries_get_assign. by destruct (entries_get (rev src) k).
Qed.

Lemma entries_assign_nonempty (target src : Entries) :
  target ≠ [] → entries_assign target src ≠ [].
Proof.
  unfold entries_assign. revert target.
  induction src as [|[k v] src IH]; intros target Ht; [done|]. simpl.
  apply IH, entries_set_nonempty.
Qed.

Lemma entries_keys_nonempty (es : Entries) : es ≠ [] → entries_keys es ≠ [].
Proof. by destruct es. Qed.

(** An object of texts, read as entries. *)
Lemma entries_get_texts (fs : Files) k :
  entries_get (texts fs) k = Text <$> files_get fs k.
Proof.
  induction fs as [|[k0 v0] fs IH]; [done|]. cbn.
  by destruct (String.eqb k0 k).
Qed.

Lemma texts_nonempty (fs : Files) : fs ≠ [] → texts fs ≠ [].
Proof. by destruct fs. Qed.

Lemma merge_unfold w plan results :
  let union := (collect results).1 in
  let cs := (collect results).2 in
  let asked := (0 <? Z.of_nat (length cs)) && enableLogging w in
  let prompt := mergePrompt w union cs in
  let resolved :=
    if asked then
      match callMergeSpecialist w prompt with
      | inr reply => applyResolution w (texts union) reply
      | inl _ => texts union
      end
    else texts union in
  conflicts (merge w plan results) = cs
  ∧ specialistCalls (merge w plan results) = (if asked then [prompt] else [])
  ∧ files (merge w plan results)
    = match entries_keys resolved with
      | [] => entries_set resolved "output.md" (Text (combinedOutput results))
      | _ => resolved
      end.
Proof.
  unfold merge. destruct (collect results) as [union cs]. simpl.
  destruct ((0 <? Z.of_nat (length cs)) && enableLogging w); [|done].
  by destruct (callMergeSpecialist w (mergePrompt w union cs)).
Qed.

Lemma files_keys_nonempty (fs : Files) : fs ≠ [] → files_keys fs ≠ [].
Proof. by destruct fs. Qed.

Lemma applyResolution_nonempty w (union : Entries) reply :
  union ≠ [] → applyResolution w union reply ≠ [].
Proof.
  intros Hu. unfold applyResolution.
  destruct (match_braces reply) as [j|]; [|done].
  destruct (parseResolution w j); [done..|]. by apply entries_assign_nonempty.
Qed.

(** With logging on and a conflict recorded, [merge] asks the specialist
    once and overwrites the union with what the [files] of the reply hold,
    texts or not; when the call fails or the reply holds no files that
    parse, it returns the union. *)
Lemma merge_asks_specialist_once w plan results :
  enableLogging w = true →
  (collect results).2 ≠ [] →
  let union := (collect results).1 in
  let prompt := mergePrompt w union (collect results).2 in
  specialistCalls (merge w plan results) = [prompt]
  ∧ (∀ e, callMergeSpecialist w prompt = inl e →
       files (merge w plan results) = texts union)
  ∧ (∀ reply, callMergeSpecialist w prompt = inr reply →
       files (merge w plan results) = applyResolution w (texts union) reply
       ∧ (match_braces reply = None → applyResolution w (texts union) reply = texts union)
       ∧ (∀ j, match_braces reply = Some j →
            match parseResolution w j with
            | Resolved resolved =>
                ∀ k, entries_get (applyResolution w (texts union) reply) k
                     = match entries_get (rev resolved) k with
                       | Some v => Some v
                       | None => Text <$> files_get union k
                       end
            | _ => applyResolution w (texts union) reply = texts union
            end)).
Proof.
  intros Hlog Hcs union prompt.
  destruct (merge_unfold w plan results) as (_ & Hcalls & Hfiles).
  fold union in Hcalls, Hfiles. fold prompt in Hcalls, Hfiles.
  assert ((0 <? Z.of_nat (length (collect results).2)) && enableLogging w = true)
    as Hasked.
  { rewrite Hlog, andb_true_r. apply Z.ltb_lt.
    destruct (collect results).2; [done | simpl; lia]. }
  rewrite Hasked in Hcalls, Hfiles.
  assert (texts union ≠ []) as Hunion by (by apply texts_nonempty, collect_nonempty).
  split; [done|]. split.
  - intros e He. rewrite He in Hfiles. rewrite Hfiles.
    pose proof (entries_keys_nonempty _ Hunion). by destruct (entries_keys (texts union)).
  - intros reply Hreply. rewrite Hreply in Hfiles. split; [|split].
    + rewrite Hfiles.
      pose proof (entries_keys_nonempty _
                    (applyResolution_nonempty w (texts union) reply Hunion)).
      by destruct (entries_keys (applyResolution w (texts union) reply)).
    + unfold applyResolution. by intros ->.
    + intros j Hj. unfold applyResolution. rewrite Hj.
      destruct (parseResolution w j) as [| |resolved]; [done..|].
      intros k. by rewrite entries_get_assign, entries_get_texts.
Qed.

(** C5, on the code. With logging off, two tasks write different content
    at "/App.tsx", a conflict is recorded, and [merge] issues no specialist
    call; the same results with logging on issue one. *)
Theorem silent_merge_skips_specialist :
  let run := λ t : SubTask.t, Answered "Halo!" 1200 in
  let silent := worldOf false (Some todoPlan) run (λ _, true) in
  let logging := worldOf true (Some todoPlan) run (λ _, true) in
  conflicts (merge silent todoPlan [appOne; appTwo])
  = [{| filename := "/App.tsx"; sources := [appTwo] |}]
  ∧ specialistCalls (merge silent todoPlan [appOne; appTwo]) = []
  ∧ length (specialistCalls (merge logging todoPlan [appOne; appTwo])) = 1%nat.
Proof. split; [|split]; vm_compute; reflexivity. Qed.

(** Whatever the specialist answers, no path of the union is lost. *)
Lemma merge_keeps_union_paths w plan results k :
  is_Some (files_get (collect results).1 k) →
  is_Some (entries_get (files (merge w plan results)) k).
Proof.
  intros Hk. destruct (merge_unfold w plan results) as (_ & _ & Hfiles).
  rewrite Hfiles. clear Hfiles.
  set (union := (collect results).1) in *.
  assert (is_Some (entries_get (texts union) k)) as Htexts
    by (rewrite entries_get_texts; by destruct Hk as [v ->]).
  match goal with
  | |- is_Some (entries_get (match entries_keys ?r with _ => _ end) k) =>
      set (resolved := r)
  end.
  assert (is_Some (entries_get resolved k)) as Hres.
  { unfold resolved. destruct (_ && _); [|done].
    destruct (callMergeSpecialist w _) as [|reply]; [done|].
    unfold applyResolution. destruct (match_braces reply) as [j|]; [|done].
    destruct (parseResolution w j); [done..|]. by apply entries_assign_keeps. }
  destruct resolved as [|e fs]; [|done]. simpl in Hres. by destruct Hres.
Qed.

(** With logging off there is no specialist call, whatever the results. *)
Lemma merge_silent w plan results :
  enableLogging w = false →
  specialistCalls (merge w plan results) = []
  ∧ ∀ k, is_Some (files_get (collect results).1 k) →
         is_Some (entries_get (files (merge w plan results)) k).
Proof.
  intros Hlog. split.
  - destruct (merge_unfold w plan results) as (_ & Hcalls & _).
    by rewrite Hlog, andb_false_r in Hcalls.
  - intros k. apply merge_keeps_union_paths.
Qed.

(** *** orchestrate *)









End OrchestratorSpec.

(** * Further properties *)

(** ** The rate limiter: refusals, the local fallback, status and waiting *)

Module RateLimiterMore.

Import RateLimiter RateLimiterSpec.

Lemma provider_name_inj p q : provider_name p = provider_name q → p = q.
Proof. destruct p, q; intros H; try done; vm_compute in H; discriminate. Qed.

Lemma limits_positive p :
  0 < maxRPM (PROVIDER_LIMITS p) ∧ 0 < windowMs (PROVIDER_LIMITS p)
  ∧ 0 < instanceAdjustedLimit (PROVIDER_LIMITS p).
Proof. destruct p; vm_compute; done. Qed.

Lemma limiter_eta st :
  {| redis := redis st; localCounts := localCounts st;
     localConcurrent := localConcurrent st |} = st.
Proof. by destruct st. Qed.

Lemma with_redis_same st : with_redis st (redis st) = st.
Proof. apply limiter_eta. Qed.

(** *** What a call answers, and what a refusal leaves *)

Lemma checkLocalLimit_answer st p now :
  (allowed (checkLocalLimit st p (PROVIDER_LIMITS p) now).2 = false →
   (checkLocalLimit st p (PROVIDER_LIMITS p) now).1 = st)
  ∧ 0 ≤ remaining (checkLocalLimit st p (PROVIDER_LIMITS p) now).2
  ∧ 0 < resetMs (checkLocalLimit st p (PROVIDER_LIMITS p) now).2.
Proof.
  pose proof (limits_positive p) as (HM & HW & HL).
  unfold checkLocalLimit.
  destruct (localCounts st !! provider_name p) as [state|]; simpl.
  - destruct (Z.leb_spec (windowMs (PROVIDER_LIMITS p)) (now - windowStart state));
      simpl.
    { split; [done|]. lia. }
    destruct (Z.leb_spec (instanceAdjustedLimit (PROVIDER_LIMITS p)) (count state));
      simpl.
    { split; [done | lia]. }
    destruct (instanceAdjustedConcurrent (PROVIDER_LIMITS p) <=? _); simpl.
    { split; [done | lia]. }
    split; [done | lia].
  - split; [done|]. lia.
Qed.

(** An answer of the shared store: a refusal has written nothing; inside
    the window the answer tells what is left of the window at a later
    reading of the clock than the one of the window test. *)
Lemma checkRedisLimit_answer r p now c res :
  (checkRedisLimit r p (PROVIDER_LIMITS p) now c).2 = Some res →
  (allowed res = false → (checkRedisLimit r p (PROVIDER_LIMITS p) now c).1 = r)
  ∧ 0 ≤ remaining res
  ∧ (refusedAt c ≤ seenAt c → lastAt c ≤ seenAt c → 0 < resetMs res).
Proof.
  pose proof (limits_positive p) as (HM & HW & HL).
  unfold checkRedisLimit, redis_window_over.
  destruct (readOk c); [|done]. cbn [negb].
  destruct (redis_get (readAt c) (key p window_f) r) as [w|]; simpl.
  - destruct (Z.eqb_spec w 0) as [->|Hw]; simpl.
    { destruct (rejects (write1 c) || rejects (write2 c)); [done|].
      simpl. intros [= <-]. simpl. split; [done|]. lia. }
    destruct (Z.leb_spec (windowMs (PROVIDER_LIMITS p)) (seenAt c - w)); simpl.
    { destruct (rejects (write1 c) || rejects (write2 c)); [done|].
      simpl. intros [= <-]. simpl. split; [done|]. lia. }
    destruct (Z.leb_spec (maxRPM (PROVIDER_LIMITS p))
                (JS.or0 (redis_get (readAt c) (key p count_f) r))); simpl.
    { intros [= <-]. simpl. split; [done | lia]. }
    destruct (maxConcurrent (PROVIDER_LIMITS p) <=? _); simpl.
    { intros [= <-]. simpl. split; [done | lia]. }
    destruct (rejects (write1 c) || rejects (write2 c)); [done|].
    destruct (rejects (ttl c)); [done|].
    simpl. intros [= <-]. simpl. split; [done|]. lia.
  - destruct (rejects (write1 c) || rejects (write2 c)); [done|].
    simpl. intros [= <-]. simpl. split; [done|]. lia.
Qed.

(** A call that no command fails after the reads gets its answer from the
    shared store, or from the local limiter on the state it began in. *)
Lemma checkRedisLimit_rejects_unwritten r p limits now c :
  undivided c = true → configured c = true →
  (checkRedisLimit r p limits now c).2 = None →
  (checkRedisLimit r p limits now c).1 = r.
Proof.
  unfold undivided. intros Hun Hc. rewrite Hc in Hun. cbn [negb orb] in Hun.
  unfold checkRedisLimit. destruct (readOk c); [|done]. cbn [negb orb] in *.
  apply andb_prop in Hun as [Hun H3]. apply andb_prop in Hun as [H1 H2].
  apply negb_true_iff in H1, H2, H3. rewrite H1, H2, H3. cbn [orb].
  destruct (redis_window_over r p limits (readAt c) (seenAt c)); [done|].
  destruct (maxRPM limits <=? _); [done|].
  by destruct (maxConcurrent limits <=? _).
Qed.

Lemma checkLimit_answer st p now c :
  (allowed (checkLimit st p now c).2 = false → undivided c = true →
   (checkLimit st p now c).1 = st)
  ∧ 0 ≤ remaining (checkLimit st p now c).2
  ∧ (refusedAt c ≤ seenAt c → lastAt c ≤ seenAt c →
     0 < resetMs (checkLimit st p now c).2).
Proof.
  unfold checkLimit. destruct (configured c) eqn:Hc.
  - cbv zeta.
    pose proof (checkRedisLimit_answer (redis st) p now c) as Hans.
    pose proof (checkRedisLimit_rejects_unwritten (redis st) p (PROVIDER_LIMITS p) now c)
      as Hrej.
    destruct (checkRedisLimit (redis st) p (PROVIDER_LIMITS p) now c) as [r [res|]];
      cbn [fst snd] in *.
    + destruct (Hans res eq_refl) as (Hno & Hrem & Hreset).
      split; [|split; done].
      intros Hdeny _. rewrite (Hno Hdeny). apply with_redis_same.
    + destruct (checkLocalLimit_answer (with_redis st r) p now) as (Hno & Hrem & Hreset).
      split; [|split; done].
      intros Hdeny Hun. rewrite (Hno Hdeny), (Hrej Hun Hc eq_refl).
      apply with_redis_same.
  - destruct (checkLocalLimit_answer st p now) as (Hno & Hrem & Hreset).
    split; [|split; done]. intros Hdeny _. by apply Hno.
Qed.

(** X1. A [checkLimit] that refuses changes nothing, neither in the shared
    store nor in the instance, provided that no command of the store
    rejects once the reads of the call were answered (when one does, what
    the store has performed stays, and the local limiter answers instead).
    Whatever the course of the call, [remaining] is not negative; and
    [resetMs], the time the caller is told to wait, is positive when the
    clock has not moved on between the window test of line 155 and the
    readings of lines 169 and 191, from which it is computed. *)
Theorem refusal_has_no_effect (st : Limiter) (p : ProviderName) (now : Z)
    (c : Course) :
  (allowed (checkLimit st p now c).2 = false → undivided c = true →
   (checkLimit st p now c).1 = st)
  ∧ 0 ≤ remaining (checkLimit st p now c).2
  ∧ (refusedAt c ≤ seenAt c → lastAt c ≤ seenAt c →
     0 < resetMs (checkLimit st p now c).2).
Proof. apply checkLimit_answer. Qed.

(** *** The concurrency budget of an open window *)

(** A call of [p] inside its window, below [maxRPM]: the concurrency
    counter decides. *)
Lemma checkRedisLimit_below_rpm r p w c now arg :
  window_at r p w c → w ≠ 0 → now - w < windowMs (PROVIDER_LIMITS p) →
  c < maxRPM (PROVIDER_LIMITS p) →
  let limits := PROVIDER_LIMITS p in
  let held := JS.or0 (redis_get now (key p concurrent_f) r) in
  checkRedisLimit r p limits arg (atOnce now true)
  = if maxConcurrent limits <=? held then
      (r, Some {| allowed := false; remaining := maxRPM limits - c; resetMs := 1000 |})
    else
      (redis_expire now (key p concurrent_f) 300
         (redis_incr now (key p concurrent_f) (redis_incr now (key p count_f) r)),
       Some {| allowed := true; remaining := maxRPM limits - c - 1;
               resetMs := windowMs limits - (now - w) |}).
Proof.
  intros Hat Hw Hnow Hc. simpl. rewrite checkRedisLimit_atOnce.
  rewrite (window_at_not_over _ _ _ _ _ Hat Hw Hnow).
  destruct (window_at_read _ _ _ _ _ Hat Hnow) as [-> ->]. simpl.
  destruct (Z.leb_spec (maxRPM (PROVIDER_LIMITS p)) c); [lia|]. done.
Qed.

Lemma window_at_other r r' p w c :
  r' !! key p window_f = r !! key p window_f →
  r' !! key p count_f = r !! key p count_f →
  window_at r p w c → window_at r' p w c.
Proof. unfold window_at. by intros -> ->. Qed.

(** With a free slot the call is admitted: it counts in the window and in
    the concurrency counter, whose expiry is pushed five minutes ahead. *)
Lemma checkRedisLimit_slot_free r p w c now v ex arg :
  window_at r p w c → w ≠ 0 → now - w < windowMs (PROVIDER_LIMITS p) →
  c < maxRPM (PROVIDER_LIMITS p) →
  r !! key p concurrent_f = Some {| value := v; expireAt := ex |} →
  live now {| value := v; expireAt := ex |} = true →
  v < maxConcurrent (PROVIDER_LIMITS p) →
  let out := checkRedisLimit r p (PROVIDER_LIMITS p) arg (atOnce now true) in
  out.2 = Some {| allowed := true; remaining := maxRPM (PROVIDER_LIMITS p) - c - 1;
                  resetMs := windowMs (PROVIDER_LIMITS p) - (now - w) |}
  ∧ window_at out.1 p w (c + 1)
  ∧ out.1 !! key p concurrent_f
    = Some {| value := v + 1; expireAt := Some (now + 300 * 1000) |}.
Proof.
  intros Hat Hw Hnow Hc Hheld Hlive Hv out. unfold out.
  rewrite (checkRedisLimit_below_rpm _ _ _ _ _ _ Hat Hw Hnow Hc).
  assert (redis_get now (key p concurrent_f) r = Some v) as ->
    by (unfold redis_get; by rewrite Hheld, Hlive).
  simpl JS.or0.
  destruct (Z.leb_spec (maxConcurrent (PROVIDER_LIMITS p)) v); [lia|].
  cbn [fst snd]. split; [done|]. destruct Hat as [Hwin Hcnt]. split; [split|].
  - rewrite lookup_expire_ne by (by apply key_ne_field).
    unfold redis_incr. by rewrite !lookup_add_ne by (by apply key_ne_field).
  - rewrite lookup_expire_ne by (by apply key_ne_field).
    unfold redis_incr. rewrite lookup_add_ne by (by apply key_ne_field).
    unfold redis_add, live. rewrite Hcnt. simpl.
    destruct (Z.ltb_spec now (w + windowMs (PROVIDER_LIMITS p))); [|lia].
    by rewrite lookup_insert_eq.
  - unfold redis_expire, redis_incr.
    assert (redis_add now (key p concurrent_f) 1
              (redis_add now (key p count_f) 1 r) !! key p concurrent_f
            = Some {| value := v + 1; expireAt := ex |}) as ->.
    { unfold redis_add at 1.
      rewrite lookup_add_ne by (by apply key_ne_field).
      rewrite Hheld, Hlive. by rewrite lookup_insert_eq. }
    assert (live now {| value := v + 1; expireAt := ex |} = true) as -> by exact Hlive.
    by rewrite lookup_insert_eq.
Qed.

(** With every slot taken the call is refused and nothing is written. *)
Lemma checkRedisLimit_slot_full r p w c now v ex arg :
  window_at r p w c → w ≠ 0 → now - w < windowMs (PROVIDER_LIMITS p) →
  c < maxRPM (PROVIDER_LIMITS p) →
  r !! key p concurrent_f = Some {| value := v; expireAt := ex |} →
  live now {| value := v; expireAt := ex |} = true →
  maxConcurrent (PROVIDER_LIMITS p) ≤ v →
  checkRedisLimit r p (PROVIDER_LIMITS p) arg (atOnce now true)
  = (r, Some {| allowed := false; remaining := maxRPM (PROVIDER_LIMITS p) - c;
                resetMs := 1000 |}).
Proof.
  intros Hat Hw Hnow Hc Hheld Hlive Hv.
  rewrite (checkRedisLimit_below_rpm _ _ _ _ _ _ Hat Hw Hnow Hc).
  unfold redis_get. rewrite Hheld, Hlive. simpl.
  by destruct (Z.leb_spec (maxConcurrent (PROVIDER_LIMITS p)) v); [|lia].
Qed.

(** [checkLimit] at one instant from what [checkRedisLimit] gives. *)
Lemma checkLimit_of_shared st p now out :
  checkRedisLimit (redis st) p (PROVIDER_LIMITS p) now (atOnce now true) = out →
  ∀ res, out.2 = Some res →
  checkLimit st p now (atOnce now true) = (with_redis st out.1, res).
Proof.
  intros <- res Hres. destruct (checkLimit_shared st p now) as (res' & Hres' & ->).
  rewrite Hres in Hres'. by injection Hres' as <-.
Qed.

(** A release of a positive live counter takes one off and keeps its expiry. *)
Lemma releaseRedis_decrements r p now v ex :
  r !! key p concurrent_f = Some {| value := v; expireAt := ex |} →
  live now {| value := v; expireAt := ex |} = true →
  0 < v →
  releaseRedis r p (atOnce now true) !! key p concurrent_f
  = Some {| value := v - 1; expireAt := ex |}.
Proof.
  intros Hheld Hlive Hv. rewrite releaseRedis_atOnce. unfold redis_get.
  rewrite Hheld, Hlive. simpl.
  destruct (Z.ltb_spec 0 v); [|lia].
  unfold redis_decr, redis_add. rewrite Hheld, Hlive. simpl.
  rewrite lookup_insert_eq. do 2 f_equal.
Qed.

(** X2. With the shared store reachable, inside an open window that is
    below [maxRPM], when the concurrency counter of the provider holds
    [maxConcurrent]: a call is refused with a hint of one second; after one
    [releaseSlot] the next call is admitted; and the call after that, within
    five minutes, is refused again. *)
Theorem one_release_admits_one (st : Limiter) (p : ProviderName)
    (w c t1 t2 t3 t4 : Z) (ex : option Z) :
  let limits := PROVIDER_LIMITS p in
  let full := {| value := maxConcurrent limits; expireAt := ex |} in
  w ≠ 0 →
  window_at (redis st) p w c →
  c < maxRPM limits →
  redis st !! key p concurrent_f = Some full →
  live t1 full = true → live t2 full = true → live t3 full = true →
  t1 - w < windowMs limits → t3 - w < windowMs limits → t4 - w < windowMs limits →
  t4 - t3 < 300000 →
  ∃ last,
    (run st [CheckLimit p t1 true; ReleaseSlot p t2 true;
             CheckLimit p t3 true; CheckLimit p t4 true]).2
    = [Checked p {| allowed := false; remaining := maxRPM limits - c; resetMs := 1000 |};
       Released p;
       Checked p {| allowed := true; remaining := maxRPM limits - c - 1;
                    resetMs := windowMs limits - (t3 - w) |};
       Checked p last]
    ∧ allowed last = false.
Proof.
  intros limits full Hw Hat Hc Hfull Hl1 Hl2 Hl3 Ht1 Ht3 Ht4 Hgap.
  assert (0 < maxConcurrent limits) as Hpos by (unfold limits; by destruct p).
  (* the first call *)
  assert (checkLimit st p t1 (atOnce t1 true)
          = (st, {| allowed := false; remaining := maxRPM limits - c; resetMs := 1000 |}))
    as H1.
  { rewrite (checkLimit_of_shared st p t1 _
               (checkRedisLimit_slot_full _ _ _ _ _ _ _ t1 Hat Hw Ht1 Hc Hfull Hl1
                  ltac:(fold limits; lia)) _ eq_refl).
    cbn [fst]. by rewrite with_redis_same. }
  (* the release *)
  set (st2 := releaseSlot st p (atOnce t2 true)).
  pose proof (releaseRedis_decrements _ _ _ _ _ Hfull Hl2 Hpos) as Hheld2.
  change (releaseRedis (redis st) p (atOnce t2 true)) with (redis st2) in Hheld2.
  assert (window_at (redis st2) p w c) as Hat2.
  { eapply window_at_other; [..|exact Hat]; unfold st2; rewrite releaseSlot_redis;
      apply releaseRedis_other; by apply key_ne_field. }
  (* the call that is admitted *)
  assert (live t3 {| value := maxConcurrent limits - 1; expireAt := ex |} = true) as Hl3'
    by exact Hl3.
  destruct (checkRedisLimit_slot_free _ _ _ _ _ _ _ t3 Hat2 Hw Ht3 Hc Hheld2 Hl3')
    as (H3 & Hat3 & Hheld3); [fold limits; lia|].
  pose proof (checkLimit_of_shared st2 p t3 _ eq_refl _ H3) as Hcall3.
  set (st3 := (checkLimit st2 p t3 (atOnce t3 true)).1).
  assert (redis st3
          = (checkRedisLimit (redis st2) p (PROVIDER_LIMITS p) t3 (atOnce t3 true)).1)
    as Hr3 by (unfold st3; by rewrite Hcall3).
  rewrite <- Hr3 in Hat3, Hheld3.
  (* the call after it *)
  assert (allowed (checkLimit st3 p t4 (atOnce t4 true)).2 = false) as H4.
  { destruct (Z.lt_ge_cases (c + 1) (maxRPM limits)) as [Hlt|Hge].
    - rewrite (checkLimit_of_shared st3 p t4 _
                 (checkRedisLimit_slot_full _ _ _ _ _ _ _ t4 Hat3 Hw Ht4 Hlt Hheld3
                    ltac:(unfold live; simpl; apply Z.ltb_lt; lia)
                    ltac:(fold limits; lia)) _ eq_refl).
      done.
    - destruct (checkLimit_in_window _ _ _ _ t4 Hat3 Hw Ht4) as [_ Hdeny].
      by rewrite (Hdeny Hge). }
  exists (checkLimit st3 p t4 (atOnce t4 true)).2. split; [|done].
  rewrite run_cons, step_check, H1. cbn [fst snd].
  rewrite run_cons. cbn [step fst snd]. fold st2.
  rewrite run_cons, step_check. fold st3. rewrite Hcall3. cbn [fst snd].
  rewrite run_cons, step_check. by cbn [fst snd run].
Qed.

Lemma one_release_admits_one_witness :
  ∃ last,
    (run (run empty_limiter
            [CheckLimit groq 1000 true; CheckLimit groq 1001 true;
             CheckLimit groq 1002 true; CheckLimit groq 1003 true]).1
         [CheckLimit groq 2000 true; ReleaseSlot groq 3000 true;
          CheckLimit groq 4000 true; CheckLimit groq 5000 true]).2
    = [Checked groq {| allowed := false; remaining := 25 - 4; resetMs := 1000 |};
       Released groq;
       Checked groq {| allowed := true; remaining := 25 - 4 - 1;
                       resetMs := 60000 - (4000 - 1000) |};
       Checked groq last]
    ∧ allowed last = false.
Proof.
  apply (one_release_admits_one
           (run empty_limiter
              [CheckLimit groq 1000 true; CheckLimit groq 1001 true;
               CheckLimit groq 1002 true; CheckLimit groq 1003 true]).1
           groq 1000 4 2000 3000 4000 5000 (Some (1003 + 300 * 1000)));
    try (vm_compute; reflexivity); try (simpl; lia).
  split; vm_compute; reflexivity.
Defined.

(** *** One provider does not see the calls of another *)

Lemma releaseRedis_other_provider r q c k :
  (∀ f, k ≠ key q f) → releaseRedis r q c !! k = r !! k.
Proof. intros Hk. apply releaseRedis_other. intros E. by eapply Hk. Qed.

Lemma checkLocalLimit_other st p q limits now :
  q ≠ p →
  localCounts (checkLocalLimit st q limits now).1 !! provider_name p
  = localCounts st !! provider_name p
  ∧ localConcurrent (checkLocalLimit st q limits now).1 !! provider_name p
    = localConcurrent st !! provider_name p.
Proof.
  intros Hne.
  assert (provider_name q ≠ provider_name p) as Hk
    by (intros E; by apply provider_name_inj in E).
  unfold checkLocalLimit.
  destruct (localCounts st !! provider_name q) as [state|];
    [|simpl; by rewrite lookup_insert_ne].
  destruct (windowMs limits <=? _); [simpl; by rewrite lookup_insert_ne|].
  destruct (instanceAdjustedLimit limits <=? _); [done|].
  destruct (instanceAdjustedConcurrent limits <=? _); [done|].
  simpl. by rewrite !lookup_insert_ne.
Qed.

(** A call of another provider, whatever its course, leaves what is held
    for [p]. *)
Lemma checkLimit_other st p q now c :
  q ≠ p → same_for p st (checkLimit st q now c).1.
Proof.
  intros Hne. split.
  - intros f. rewrite checkLimit_redis. destruct (configured c); [|done].
    apply checkRedisLimit_other. intros g. apply key_ne_provider. congruence.
  - unfold checkLimit. destruct (configured c); [|by apply checkLocalLimit_other].
    cbv zeta.
    destruct (checkRedisLimit (redis st) q (PROVIDER_LIMITS q) now c).2; [done|].
    by apply (checkLocalLimit_other (with_redis st _)).
Qed.

Lemma step_other st p o :
  op_provider o ≠ p → same_for p st (step st o).1.
Proof.
  intros Hne. destruct o as [q now up|q now up]; simpl in Hne.
  - rewrite step_check. cbn [fst]. by apply checkLimit_other.
  - assert (provider_name q ≠ provider_name p) as Hk
      by (intros E; by apply provider_name_inj in E).
    cbn [step fst]. split; [|split].
    + intros f. rewrite releaseSlot_redis. destruct up; [|done].
      apply releaseRedis_other_provider.
      intros g. apply key_ne_provider. congruence.
    + done.
    + unfold releaseSlot, releaseLocal. cbn.
      destruct (0 <? _); [by rewrite lookup_insert_ne | done].
Qed.

Lemma same_for_trans p st1 st2 st3 :
  same_for p st1 st2 → same_for p st2 st3 → same_for p st1 st3.
Proof.
  intros (Hr & Hc & Hn) (Hr' & Hc' & Hn'). split; [|split].
  - intros f. by rewrite Hr', Hr.
  - by rewrite Hc', Hc.
  - by rewrite Hn', Hn.
Qed.

Lemma run_other ops : ∀ st p,
  Forall (λ o, op_provider o ≠ p) ops → same_for p st (run st ops).1.
Proof.
  induction ops as [|o ops IH]; intros st p Hall.
  - done.
  - apply Forall_cons in Hall as [Ho Hall]. rewrite run_cons. cbn [fst].
    eapply same_for_trans; [by apply step_other | by apply IH].
Qed.

(** Stores that hold the same for [p] hold the same for [p] after a
    command on a key of [p]. *)
Lemma set_ex_agree p now k v ex (r r' : Redis) :
  (∀ f, r' !! key p f = r !! key p f) →
  ∀ f, redis_set_ex now (key p k) v ex r' !! key p f
       = redis_set_ex now (key p k) v ex r !! key p f.
Proof.
  intros H f. unfold redis_set_ex.
  destruct (decide (key p k = key p f)) as [<-|];
    [by rewrite !lookup_insert_eq | by rewrite !lookup_insert_ne].
Qed.

Lemma add_agree p now k d (r r' : Redis) :
  (∀ f, r' !! key p f = r !! key p f) →
  ∀ f, redis_add now (key p k) d r' !! key p f = redis_add now (key p k) d r !! key p f.
Proof.
  intros H g. unfold redis_add. rewrite (H k).
  destruct (r !! key p k) as [e|]; [destruct (live now e)|];
    (destruct (decide (key p k = key p g)) as [<-|];
     [by rewrite !lookup_insert_eq | by rewrite !lookup_insert_ne]).
Qed.

Lemma expire_agree p now k secs (r r' : Redis) :
  (∀ f, r' !! key p f = r !! key p f) →
  ∀ f, redis_expire now (key p k) secs r' !! key p f
       = redis_expire now (key p k) secs r !! key p f.
Proof.
  intros H g. unfold redis_expire. rewrite (H k).
  destruct (r !! key p k) as [e|]; [destruct (live now e)|]; try apply H.
  destruct (decide (key p k = key p g)) as [<-|];
    [by rewrite !lookup_insert_eq | by rewrite !lookup_insert_ne].
Qed.

Lemma perform_agree p f (cmd : Redis → Redis) (r r' : Redis) :
  (∀ r r' : Redis, (∀ f, r' !! key p f = r !! key p f) →
                   ∀ f, cmd r' !! key p f = cmd r !! key p f) →
  (∀ f, r' !! key p f = r !! key p f) →
  ∀ g, perform f cmd r' !! key p g = perform f cmd r !! key p g.
Proof. intros Hcmd H. unfold perform. destruct (performed f); [by apply Hcmd | done]. Qed.

Lemma checkRedisLimit_agree p limits now c (r r' : Redis) :
  (∀ f, r' !! key p f = r !! key p f) →
  (checkRedisLimit r' p limits now c).2 = (checkRedisLimit r p limits now c).2
  ∧ ∀ f, (checkRedisLimit r' p limits now c).1 !! key p f
         = (checkRedisLimit r p limits now c).1 !! key p f.
Proof.
  intros H.
  assert (∀ t k, redis_get t (key p k) r' = redis_get t (key p k) r) as Hget
    by (intros t k; unfold redis_get; by rewrite H).
  unfold checkRedisLimit, redis_window_over. rewrite !Hget.
  destruct (readOk c); [|done]. cbn [negb].
  destruct (JS.falsy (redis_get (readAt c) (key p window_f) r) || _).
  - pose proof (perform_agree p (write2 c) _ _ _
                  (set_ex_agree p (writeAt c) count_f 1
                     (JS.ceil_div (windowMs limits) 1000))
                  (perform_agree p (write1 c) _ _ _
                     (set_ex_agree p (writeAt c) window_f (startAt c)
                        (JS.ceil_div (windowMs limits) 1000)) H)) as H1.
    by destruct (rejects (write1 c) || rejects (write2 c)).
  - destruct (maxRPM limits <=? _); [done|].
    destruct (maxConcurrent limits <=? _); [done|].
    pose proof (perform_agree p (write2 c) _ _ _
                  (add_agree p (writeAt c) concurrent_f 1)
                  (perform_agree p (write1 c) _ _ _
                     (add_agree p (writeAt c) count_f 1) H)) as H1.
    destruct (rejects (write1 c) || rejects (write2 c)); [done|].
    pose proof (perform_agree p (ttl c) _ _ _
                  (expire_agree p (ttlAt c) concurrent_f 300) H1) as H2.
    by destruct (rejects (ttl c)).
Qed.

Lemma checkLocalLimit_same_for st st' p now :
  same_for p st st' →
  (checkLocalLimit st' p (PROVIDER_LIMITS p) now).2
  = (checkLocalLimit st p (PROVIDER_LIMITS p) now).2
  ∧ same_for p (checkLocalLimit st p (PROVIDER_LIMITS p) now).1
      (checkLocalLimit st' p (PROVIDER_LIMITS p) now).1.
Proof.
  intros Hsame. pose proof Hsame as (Hr & Hc & Hn).
  unfold checkLocalLimit. rewrite Hc, Hn.
  destruct (localCounts st !! provider_name p) as [state|].
  - destruct (windowMs _ <=? _).
    { cbn [fst snd]. split; [done|]. split; [done|]. cbn.
      by rewrite !lookup_insert_eq. }
    destruct (instanceAdjustedLimit _ <=? _); [done|].
    destruct (instanceAdjustedConcurrent _ <=? _); [done|].
    cbn [fst snd]. split; [done|]. split; [done|]. cbn.
    by rewrite !lookup_insert_eq.
  - cbn [fst snd]. split; [done|]. split; [done|]. cbn.
    by rewrite !lookup_insert_eq.
Qed.

(** What [checkLimit] answers for [p] depends on what is held for [p] only,
    whatever the course of the call. *)
Lemma checkLimit_same_for st st' p now c :
  same_for p st st' →
  (checkLimit st' p now c).2 = (checkLimit st p now c).2
  ∧ same_for p (checkLimit st p now c).1 (checkLimit st' p now c).1.
Proof.
  intros Hsame. pose proof Hsame as (Hr & Hc & Hn). unfold checkLimit.
  destruct (configured c); [|by apply checkLocalLimit_same_for]. cbv zeta.
  destruct (checkRedisLimit_agree p (PROVIDER_LIMITS p) now c _ _ Hr) as [Hres Hstore].
  rewrite Hres.
  destruct (checkRedisLimit (redis st) p (PROVIDER_LIMITS p) now c).2 as [res|].
  - cbn [fst snd]. split; [done|]. by split.
  - apply checkLocalLimit_same_for. by split.
Qed.

(** X3. The limits are kept per provider: whatever calls and releases of
    other providers come first, on either path, a [checkLimit] of [p] gets
    the answer it would have got without them, whatever the course of that
    call. *)
Theorem providers_do_not_interfere (st : Limiter) (p : ProviderName)
    (ops : list Op) (now : Z) (c : Course) :
  Forall (λ o, op_provider o ≠ p) ops →
  (checkLimit (run st ops).1 p now c).2 = (checkLimit st p now c).2.
Proof.
  intros Hall. by apply checkLimit_same_for, run_other.
Qed.

Lemma providers_do_not_interfere_witness :
  (checkLimit
     (run empty_limiter
        [CheckLimit pollinations 1000 true; CheckLimit openrouter 1001 false;
         ReleaseSlot pollinations 1002 true]).1 groq 1003 (atOnce 1003 true)).2
  = (checkLimit empty_limiter groq 1003 (atOnce 1003 true)).2.
Proof.
  apply (providers_do_not_interfere empty_limiter groq
           [CheckLimit pollinations 1000 true; CheckLimit openrouter 1001 false;
            ReleaseSlot pollinations 1002 true] 1003 (atOnce 1003 true)).
  repeat constructor; simpl; discriminate.
Defined.

(** *** The window of the local fallback *)

Lemma checkLocalLimit_in_window st p w c now :
  local_window_at st p w c → now - w < windowMs (PROVIDER_LIMITS p) →
  let limits := PROVIDER_LIMITS p in
  let out := checkLocalLimit st p limits now in
  local_window_at out.1 p w (if allowed out.2 then c + 1 else c)
  ∧ (allowed out.2 = true → c < instanceAdjustedLimit limits)
  ∧ (instanceAdjustedLimit limits ≤ c →
     out = (st, {| allowed := false; remaining := 0;
                   resetMs := windowMs limits - (now - w) |})).
Proof.
  intros Hat Hnow. cbv zeta. unfold checkLocalLimit, local_window_at in *.
  rewrite Hat. cbn [count windowStart].
  destruct (Z.leb_spec (windowMs (PROVIDER_LIMITS p)) (now - w)); [lia|].
  destruct (Z.leb_spec (instanceAdjustedLimit (PROVIDER_LIMITS p)) c).
  { cbn. done. }
  destruct (instanceAdjustedConcurrent _ <=? _); cbn.
  - split; [done|]. split; [done|lia].
  - rewrite lookup_insert_eq. split; [done|]. split; [done|lia].
Qed.

Lemma checkLocalLimit_fresh st p now :
  local_window_over st p (PROVIDER_LIMITS p) now = true →
  (checkLocalLimit st p (PROVIDER_LIMITS p) now).2 = fresh_window (PROVIDER_LIMITS p)
  ∧ local_window_at (checkLocalLimit st p (PROVIDER_LIMITS p) now).1 p now 1.
Proof.
  unfold local_window_over, checkLocalLimit, local_window_at.
  destruct (localCounts st !! provider_name p) as [state|].
  - intros ->. cbn. by rewrite lookup_insert_eq.
  - intros _. cbn. by rewrite lookup_insert_eq.
Qed.

Lemma step_in_local_window st p w c o :
  local_window_at st p w c → within_local_window p w o = true →
  local_window_at (step st o).1 p w
    (c + if is_admission p (step st o).2 then 1 else 0)
  ∧ (is_admission p (step st o).2 = true
     → c < instanceAdjustedLimit (PROVIDER_LIMITS p)).
Proof.
  intros Hat Hin. destruct (decide (op_provider o = p)) as [Hp|Hp].
  - destruct o as [q now up|q now up]; simpl in Hp; subst q.
    + simpl in Hin. rewrite decide_True in Hin by done.
      apply andb_prop in Hin as [Hup Hnow]. apply Z.ltb_lt in Hnow.
      destruct up; [done|]. rewrite step_check. cbn [fst snd is_admission].
      rewrite bool_decide_eq_true_2 by done. cbn [andb].
      rewrite checkLimit_local.
      destruct (checkLocalLimit_in_window _ _ _ _ _ Hat Hnow) as (Hstep & Hlt & _).
      split; [|done].
      destruct (allowed _); [done | by rewrite Z.add_0_r].
    + cbn. rewrite Z.add_0_r. done.
  - assert (is_admission p (step st o).2 = false) as ->.
    { destruct o as [q now up|q now up]; simpl in Hp; [|done].
      rewrite step_check. cbn. by rewrite bool_decide_eq_false_2. }
    rewrite Z.add_0_r. split; [|done].
    destruct (step_other st p o Hp) as (_ & Hc & _).
    unfold local_window_at. by rewrite Hc.
Qed.

Lemma run_in_local_window ops : ∀ st p w c,
  local_window_at st p w c → forallb (within_local_window p w) ops = true →
  local_window_at (run st ops).1 p w (c + admitted p (run st ops).2)
  ∧ c + admitted p (run st ops).2 ≤ Z.max c (instanceAdjustedLimit (PROVIDER_LIMITS p)).
Proof.
  induction ops as [|o ops IH]; intros st p w c Hat Hin.
  - cbn. unfold admitted. cbn. rewrite Z.add_0_r. split; [done|lia].
  - simpl in Hin. apply andb_prop in Hin as [Ho Hops].
    destruct (step_in_local_window _ _ _ _ _ Hat Ho) as [Hstep Hlt].
    rewrite run_cons. cbn [fst snd]. rewrite admitted_cons.
    destruct (IH _ _ _ _ Hstep Hops) as [Hrun Hle].
    rewrite Z.add_assoc. split; [done|].
    destruct (is_admission p (step st o).2); [specialize (Hlt eq_refl)|]; lia.
Qed.

(** X4. The limit of an instance that cannot reach the shared store.  Let a
    [checkLimit] of provider [p] on the local path, at [t0], find no window
    or the window over, and let any operations follow while that window is
    open, those of [p] on the local path.  Then at most
    [max(5, floor(maxRPM / 5))] calls of [p] are admitted, the first
    included; once that many are, a call of [p] in the window is refused
    with [resetMs = windowMs - (t - t0)] and changes nothing; and a call
    once [windowMs] has passed since [t0] is admitted into a new window. *)
Theorem local_rpm_limit_per_window (st : Limiter) (p : ProviderName) (t0 : Z)
    (ops : list Op) :
  window_over st p t0 false = true →
  forallb (within_local_window p t0) ops = true →
  let limits := PROVIDER_LIMITS p in
  let st1 := (run st (CheckLimit p t0 false :: ops)).1 in
  let es := (run st (CheckLimit p t0 false :: ops)).2 in
  admitted p es ≤ instanceAdjustedLimit limits
  ∧ (admitted p es = instanceAdjustedLimit limits →
     ∀ t, t - t0 < windowMs limits →
       checkLimit st1 p t (atOnce t false)
       = (st1, {| allowed := false; remaining := 0;
                  resetMs := windowMs limits - (t - t0) |}))
  ∧ (∀ t, windowMs limits ≤ t - t0 →
       (checkLimit st1 p t (atOnce t false)).2 = fresh_window limits
       ∧ local_window_at (checkLimit st1 p t (atOnce t false)).1 p t 1).
Proof.
  intros Hover Hops. cbv zeta. rewrite run_cons, step_check. cbn [fst snd].
  unfold window_over in Hover. rewrite checkLimit_local.
  destruct (checkLocalLimit_fresh _ _ _ Hover) as [Hres Hat]. rewrite Hres.
  set (st0 := (checkLocalLimit st p (PROVIDER_LIMITS p) t0).1) in *.
  destruct (run_in_local_window ops _ _ _ _ Hat Hops) as [Hrun Hle].
  set (st1 := (run st0 ops).1) in *. set (es := (run st0 ops).2) in *.
  rewrite admitted_cons. cbn [is_admission fresh_window allowed].
  rewrite bool_decide_eq_true_2 by done. cbn [andb].
  pose proof (limits_positive p) as (_ & _ & Hpos).
  split; [lia|]. split.
  - intros Hadm t Ht. rewrite Hadm in Hrun. rewrite checkLimit_local.
    by apply (checkLocalLimit_in_window _ _ _ _ t Hrun Ht).
  - intros t Ht. rewrite checkLimit_local. apply checkLocalLimit_fresh.
    unfold local_window_over. unfold local_window_at in Hrun. rewrite Hrun. cbn.
    by apply Z.leb_le.
Qed.

Lemma local_rpm_limit_per_window_witness :
  admitted groq
    (run empty_limiter
       (CheckLimit groq 1000 false
        :: flat_map (λ i, [CheckLimit groq (1001 + Z.of_nat i) false;
                           ReleaseSlot groq (1001 + Z.of_nat i) false]) (seq 0 9))).2
  ≤ 5.
Proof.
  apply (local_rpm_limit_per_window empty_limiter groq 1000
           (flat_map (λ i, [CheckLimit groq (1001 + Z.of_nat i) false;
                            ReleaseSlot groq (1001 + Z.of_nat i) false]) (seq 0 9))
           ltac:(vm_compute; reflexivity) ltac:(vm_compute; reflexivity)).
Defined.

(** *** getStatus *)

(** X5. What [getStatus] shows while a window is open.  After the call
    that opened the window of [p] at [t0] and any operations in that
    window, the entry of [p] read through the shared store holds the
    number of calls of [p] admitted in the window as [count] and [maxRPM]
    as [limit]; and [getStatus] has an entry for each of the three named
    providers and none for [default]. *)
Theorem status_counts_admitted (st : Limiter) (p : ProviderName) (t0 : Z)
    (ops : list Op) (now : Z) :
  t0 ≠ 0 →
  window_over st p t0 true = true →
  forallb (within_window p t0) ops = true →
  now - t0 < windowMs (PROVIDER_LIMITS p) →
  let st1 := (run st (CheckLimit p t0 true :: ops)).1 in
  let es := (run st (CheckLimit p t0 true :: ops)).2 in
  status_count (providerStatus st1 p now true) = admitted p es
  ∧ status_limit (providerStatus st1 p now true) = maxRPM (PROVIDER_LIMITS p)
  ∧ (p ≠ default →
     (p, providerStatus st1 p now true) ∈ getStatus st1 now true)
  ∧ (getStatus st1 now true).*1 = [groq; pollinations; openrouter].
Proof.
  intros Ht0 Hover Hops Hnow. cbv zeta. rewrite run_cons, step_check. cbn [fst snd].
  destruct (checkLimit_fresh _ _ _ Hover) as [Hres Hat]. rewrite Hres.
  set (st0 := (checkLimit st p t0 (atOnce t0 true)).1) in *.
  pose proof (run_in_window ops _ _ _ _ Hat Ht0 Hops) as Hrun.
  set (st1 := (run st0 ops).1) in *. set (es := (run st0 ops).2) in *.
  rewrite admitted_cons. cbn [is_admission fresh_window allowed].
  rewrite bool_decide_eq_true_2 by done. cbn [andb].
  destruct (window_at_read _ _ _ _ _ Hrun Hnow) as [_ Hcount].
  split; [|split; [|split]].
  - unfold providerStatus. cbn. by rewrite Hcount.
  - done.
  - intros Hp. unfold getStatus, reportedProviders.
    apply (list_elem_of_fmap_2 (λ provider, (provider, providerStatus st1 provider now true))).
    destruct p; [set_solver..|done].
  - done.
Qed.

Lemma status_counts_admitted_witness :
  status_count
    (providerStatus
       (run empty_limiter (CheckLimit groq 1000 true :: callsInTurn groq 1000 7)).1
       groq 2000 true)
  = admitted groq
      (run empty_limiter (CheckLimit groq 1000 true :: callsInTurn groq 1000 7)).2.
Proof.
  apply (status_counts_admitted empty_limiter groq 1000 (callsInTurn groq 1000 7) 2000
           ltac:(lia) ltac:(vm_compute; reflexivity) ltac:(vm_compute; reflexivity)
           ltac:(simpl; lia)).
Defined.

(** *** waitForSlot *)

Lemma waitLoop_effect clock course p start timeoutMs turns : ∀ n st,
  (∀ i, undivided (course i) = true) →
  let r := waitLoop turns clock course n st p start timeoutMs in
  match outcome r with
  | Resolved i =>
      allowed (checkLimit st p (clock i) (course i)).2 = true
      ∧ limiter r = (checkLimit st p (clock i) (course i)).1
  | Rejected t => limiter r = st ∧ timeoutMs < t - start
  | StillWaiting => limiter r = st
  end
  ∧ Forall (λ d, d ≤ 5000) (timers r).
Proof.
  induction turns as [|turns IH]; intros n st Hun; cbv zeta.
  - cbn. done.
  - cbn [waitLoop].
    pose proof (checkLimit_answer st p (clock n) (course n)) as [Hsame _].
    destruct (checkLimit st p (clock n) (course n)) as [st' res] eqn:E.
    cbn [fst snd] in Hsame. destruct (allowed res) eqn:Ea.
    + cbn. rewrite E. done.
    + rewrite (Hsame eq_refl (Hun n)).
      destruct (Z.ltb_spec timeoutMs (clock (S n) - start)); [cbn; done|].
      cbn [outcome limiter timers].
      destruct (IH (S (S (S n))) st Hun) as [Hout Htimers]. split; [done|].
      constructor; [|done]. unfold waitTime. lia.
Qed.

(** X6. What waiting does to the limiter, when in none of its attempts a
    command of the store rejects once the reads were answered.  When
    [waitForSlot] returns, the limiter is as after the one admitted
    [checkLimit], the last attempt, on the state the wait began in: the
    refused attempts before it left no trace.  When it throws the timeout
    error, more than [timeoutMs] have passed since it began and the limiter
    is as it was.  No timer it sets is longer than five seconds. *)
Theorem waitForSlot_effect (turns : nat) (clock : nat → Z) (course : nat → Course)
    (st : Limiter) (p : ProviderName) (timeoutMs : Z) :
  (∀ i, undivided (course i) = true) →
  let r := waitForSlot turns clock course st p timeoutMs in
  match outcome r with
  | Resolved i =>
      allowed (checkLimit st p (clock i) (course i)).2 = true
      ∧ limiter r = (checkLimit st p (clock i) (course i)).1
  | Rejected t => limiter r = st ∧ timeoutMs < t - clock O
  | StillWaiting => limiter r = st
  end
  ∧ Forall (λ d, d ≤ 5000) (timers r).
Proof. apply waitLoop_effect. Qed.

(** With every slot of groq taken, a wait of 30 ms that begins a second
    after the last call, on a clock read every ms. *)
Lemma waitForSlot_effect_witness :
  let clock := steady_clock 62000 1 in
  let st := (run empty_limiter (burst groq true 24)).1 in
  let r := waitForSlot 40 clock (attemptsAtOnce clock true) st groq 30 in
  outcome r = Rejected 62032 ∧ limiter r = st.
Proof.
  cbv zeta.
  pose proof (waitForSlot_effect 40 (steady_clock 62000 1)
                (attemptsAtOnce (steady_clock 62000 1) true)
                (run empty_limiter (burst groq true 24)).1 groq 30
                ltac:(intros i; reflexivity)) as [H _].
  assert (outcome (waitForSlot 40 (steady_clock 62000 1)
                     (attemptsAtOnce (steady_clock 62000 1) true)
                     (run empty_limiter (burst groq true 24)).1 groq 30)
          = Rejected 62032) as E by (vm_compute; reflexivity).
  rewrite E in H. split; [exact E | exact (proj1 H)].
Defined.

Lemma waitLoop_settles clock course p start timeoutMs turns : ∀ (i : nat) st,
  clock_advances clock →
  timeoutMs - (clock (3 * i + 2)%nat - start) < Z.of_nat turns →
  outcome (waitLoop (S turns) clock course (3 * i + 1)%nat st p start timeoutMs)
  ≠ StillWaiting.
Proof.
  induction turns as [|turns IH]; intros i st Hclock Hleft.
  - cbn [waitLoop].
    destruct (checkLimit st p (clock (3 * i + 1)%nat) (course (3 * i + 1)%nat))
      as [st' res].
    destruct (allowed res); [done|].
    replace (S (3 * i + 1)) with (3 * i + 2)%nat by lia.
    destruct (Z.ltb_spec timeoutMs (clock (3 * i + 2)%nat - start)); [done|lia].
  - remember (S turns) as k. cbn [waitLoop].
    destruct (checkLimit st p (clock (3 * i + 1)%nat) (course (3 * i + 1)%nat))
      as [st' res].
    destruct (allowed res); [done|].
    replace (S (3 * i + 1)) with (3 * i + 2)%nat by lia.
    destruct (Z.ltb_spec timeoutMs (clock (3 * i + 2)%nat - start)); [done|].
    cbn [outcome]. subst k.
    replace (S (S (3 * i + 2))) with (3 * (i + 1) + 1)%nat by lia.
    apply IH; [done|]. specialize (Hclock i). lia.
Qed.

(** X7. Waiting ends.  On a clock that moves on by at least a ms from one
    timeout test to the next, and for a [timeoutMs] that is not negative,
    [waitForSlot] returns or throws the timeout error within
    [timeoutMs + 2] attempts, whatever the limiter holds, whoever holds the
    slots and whatever the course of each attempt.  (The test is
    [elapsed > timeoutMs] and comes after the attempt, so the attempt
    number [timeoutMs + 2] is the first that is sure to be late.) *)
Theorem waitForSlot_settles (clock : nat → Z) (course : nat → Course)
    (st : Limiter) (p : ProviderName) (timeoutMs : Z) :
  clock_advances clock →
  clock O ≤ clock 2%nat →
  0 ≤ timeoutMs →
  outcome (waitForSlot (Z.to_nat timeoutMs + 2) clock course st p timeoutMs)
  ≠ StillWaiting.
Proof.
  intros Hclock Hmono Htime. unfold waitForSlot.
  replace (Z.to_nat timeoutMs + 2)%nat with (S (Z.to_nat timeoutMs + 1)) by lia.
  apply (waitLoop_settles clock course p (clock O) timeoutMs
           (Z.to_nat timeoutMs + 1) O st Hclock).
  change (3 * 0 + 2)%nat with 2%nat. lia.
Qed.

Lemma waitForSlot_settles_witness :
  outcome (waitForSlot (Z.to_nat 30 + 2) (steady_clock 62000 1)
             (attemptsAtOnce (steady_clock 62000 1) true)
             (run empty_limiter (burst groq true 24)).1 groq 30)
  ≠ StillWaiting.
Proof.
  apply (waitForSlot_settles (steady_clock 62000 1)
           (attemptsAtOnce (steady_clock 62000 1) true) _ groq 30).
  - intros i. unfold steady_clock. lia.
  - unfold steady_clock. lia.
  - lia.
Defined.

End RateLimiterMore.

(** ** The persistent cache: tokens, similarity and the choice among equals *)

Module PersistentCacheMore.

Import PersistentCache PersistentCacheSpec.

(** *** Similarity *)

Lemma quotient_range (n m : nat) :
  (n ≤ m)%nat → (0 < m)%nat →
  (0 <= inject_Z (Z.of_nat n) / inject_Z (Z.of_nat m))%Q
  ∧ (inject_Z (Z.of_nat n) / inject_Z (Z.of_nat m) <= 1)%Q
  ∧ ((inject_Z (Z.of_nat n) / inject_Z (Z.of_nat m) == 1)%Q → n = m)
  ∧ ((inject_Z (Z.of_nat n) / inject_Z (Z.of_nat m) == 0)%Q → n = O).
Proof.
  intros Hle Hpos. destruct m as [|m]; [lia|].
  unfold Qdiv, Qmult, Qinv, Qle, Qeq, inject_Z.
  change (Z.of_nat (S m)) with (Z.pos (Pos.of_succ_nat m)). cbn [Qnum Qden].
  assert (Z.pos (Pos.of_succ_nat m) = Z.of_nat (S m)) as Hm by done.
  repeat split; nia.
Qed.

Lemma jaccardSimilarity_bounds (A B : gset string) :
  (0 <= jaccardSimilarity A B)%Q
  ∧ (jaccardSimilarity A B <= 1)%Q
  ∧ ((jaccardSimilarity A B == 1)%Q → A = B ∧ A ≠ ∅)
  ∧ ((jaccardSimilarity A B == 0)%Q → A ∩ B = ∅).
Proof.
  destruct (decide (A = ∅)) as [HA|HA].
  { rewrite jaccardSimilarity_empty by auto. repeat split; try done.
    subst A. set_solver. }
  destruct (decide (B = ∅)) as [HB|HB].
  { rewrite jaccardSimilarity_empty by auto. repeat split; try done.
    subst B. set_solver. }
  rewrite jaccardSimilarity_nonempty by done.
  assert (size (A ∩ B) ≤ size (A ∪ B))%nat as Hle
    by (apply subseteq_size; set_solver).
  destruct (quotient_range _ _ Hle (union_size_pos A B HA)) as (H0 & H1 & Hone & Hzero).
  split; [done|]. split; [done|]. split.
  - intros H. specialize (Hone H).
    assert (A ∩ B ≡ A ∪ B) as Heq
      by (apply set_subseteq_size_equiv; [set_solver | lia]).
    split; [|done]. apply leibniz_equiv. set_solver.
  - intros H. specialize (Hzero H). apply size_empty_inv in Hzero.
    by apply leibniz_equiv.
Qed.

Lemma jaccardSimilarity_self (A : gset string) :
  A ≠ ∅ → (jaccardSimilarity A A == 1)%Q.
Proof.
  intros HA. rewrite jaccardSimilarity_nonempty by done.
  replace (A ∩ A) with A by set_solver.
  replace (A ∪ A) with A by set_solver.
  apply Qmult_inv_r. pose proof (union_size_pos A A HA) as Hpos.
  replace (A ∪ A) with A in Hpos by set_solver.
  unfold Qeq. simpl. lia.
Qed.

(** X8. The similarity of two token sets lies between 0 and 1; it is 1
    only for two equal non-empty sets and 0 only for sets with no token in
    common. *)
Theorem jaccardSimilarity_range (A B : gset string) :
  (0 <= jaccardSimilarity A B)%Q
  ∧ (jaccardSimilarity A B <= 1)%Q
  ∧ ((jaccardSimilarity A B == 1)%Q → A = B ∧ A ≠ ∅)
  ∧ ((jaccardSimilarity A B == 0)%Q → A ∩ B = ∅).
Proof. apply jaccardSimilarity_bounds. Qed.

(** *** Lookups that cannot hit *)

Lemma bestOf_none tokens threshold jobs :
  (∀ j s, j ∈ jobs → job_similarity tokens j = Some s → ¬ accepted threshold s) →
  bestOf tokens threshold jobs = None.
Proof.
  intros Hnone. pose proof (bestOf_spec tokens threshold jobs) as Hbest.
  unfold bestOf. unfold best_of_seen in Hbest.
  destruct (fold_left (scan tokens threshold) jobs (None, 0%Q)).1 as [r|]; [|done].
  destruct Hbest as (_ & j & Hj & _ & Hsim & Hacc & _).
  by destruct (Hnone _ _ Hj Hsim).
Qed.

Lemma findCachedResponse_none prompt supabase host now maxAgeHours threshold :
  (∀ j s, job_similarity (tokenize prompt) j = Some s → ¬ accepted threshold s) →
  findCachedResponse prompt supabase host now maxAgeHours threshold = None.
Proof.
  intros Hnone. unfold findCachedResponse.
  destruct (cutoffDate host now maxAgeHours) as [cutoff|]; [|done].
  destruct supabase as [|rows]; [done|].
  destruct (recent_completed _ rows) as [|j jobs]; [done|].
  apply bestOf_none. intros j' s _. apply Hnone.
Qed.

Lemma job_similarity_value tokens j s :
  job_similarity tokens j = Some s →
  ∃ msg, input_message j = Some msg ∧ s = jaccardSimilarity tokens (tokenize msg).
Proof.
  unfold job_similarity. destruct (input_message j) as [msg|]; [|done].
  destruct (JS.nonempty msg); [|done]. intros [= <-]. by exists msg.
Qed.

(** X9. A prompt that leaves no token, because all its words are stop
    words or shorter than three characters, is never answered from the
    cache, whatever the queue holds and whatever the threshold is, a
    threshold of 0 included. *)
Theorem prompt_without_tokens_misses (prompt : string) (supabase : SupabaseClient)
    (host : Host) (now : Z) (maxAgeHours : JS.number) (threshold : Q) :
  tokenize prompt = ∅ →
  findCachedResponse prompt supabase host now maxAgeHours threshold = None
  ∧ hasCachedResponse prompt supabase host now = false.
Proof.
  intros Hempty.
  assert (∀ θ j s, job_similarity (tokenize prompt) j = Some s → ¬ accepted θ s)
    as Hnone.
  { intros θ j s Hsim [_ Hpos].
    apply job_similarity_value in Hsim as (msg & _ & ->).
    rewrite jaccardSimilarity_empty in Hpos by auto. lra. }
  unfold hasCachedResponse. by rewrite !findCachedResponse_none by apply Hnone.
Qed.

Lemma prompt_without_tokens_misses_witness :
  findCachedResponse "Tolong buatkan saya a UI di JS!"
    (Table [twin "job-1" 5000]) utc 6000 (JS.Finite 72) 0 = None
  ∧ hasCachedResponse "Tolong buatkan saya a UI di JS!"
      (Table [twin "job-1" 5000]) utc 6000 = false.
Proof.
  apply (prompt_without_tokens_misses "Tolong buatkan saya a UI di JS!"
           (Table [twin "job-1" 5000]) utc 6000 (JS.Finite 72) 0).
  vm_compute. reflexivity.
Defined.

(** X10. With a threshold above 1 nothing is ever answered from the
    cache, a job with the very text of the prompt included. *)
Theorem threshold_above_one_misses (prompt : string) (supabase : SupabaseClient)
    (host : Host) (now : Z) (maxAgeHours : JS.number) (threshold : Q) :
  (1 < threshold)%Q →
  findCachedResponse prompt supabase host now maxAgeHours threshold = None.
Proof.
  intros Hth. apply findCachedResponse_none. intros j s Hsim [Hle _].
  apply job_similarity_value in Hsim as (msg & _ & ->).
  pose proof (jaccardSimilarity_bounds (tokenize prompt) (tokenize msg)) as (_ & H1 & _).
  lra.
Qed.

Lemma threshold_above_one_misses_witness :
  findCachedResponse "todo app react" (Table [twin "job-1" 5000]) utc 6000 (JS.Finite 72)
    (11 # 10)
  = None.
Proof.
  apply (threshold_above_one_misses "todo app react" (Table [twin "job-1" 5000])
           utc 6000 (JS.Finite 72) (11 # 10)).
  reflexivity.
Defined.

(** *** The choice among equals *)

Lemma scan_first_of_best tokens threshold seen best job :
  first_of_best tokens threshold seen best →
  first_of_best tokens threshold (seen ++ [job]) (scan tokens threshold best job).
Proof.
  intros [Hmax Hbest]. unfold scan.
  destruct (job_similarity tokens job) as [s|] eqn:Hsim.
  - destruct (Qle_bool threshold s && Qlt_bool best.2 s) eqn:Hcond.
    + apply andb_prop in Hcond as [Hth Hlt].
      apply Qle_bool_iff in Hth. apply Qlt_bool_iff in Hlt.
      split; cbn [fst snd].
      * intros j' s' Hj' Hs' Hth'. apply elem_of_app in Hj' as [Hj'|Hj'].
        { specialize (Hmax _ _ Hj' Hs' Hth'). lra. }
        apply list_elem_of_singleton in Hj' as ->.
        rewrite Hsim in Hs'. injection Hs' as <-. lra.
      * split; [done|]. exists seen, job, []. split; [done|]. split; [done|].
        intros j' s' Hj' Hs'.
        destruct (Qlt_le_dec s' threshold) as [Hlow|Hhigh]; [lra|].
        specialize (Hmax _ _ Hj' Hs' Hhigh). lra.
    + assert (¬ ((threshold <= s)%Q ∧ (best.2 < s)%Q)) as Hnot.
      { intros [Hth Hlt]. apply Qle_bool_iff in Hth. apply Qlt_bool_iff in Hlt.
        by rewrite Hth, Hlt in Hcond. }
      split.
      * intros j' s' Hj' Hs' Hth'. apply elem_of_app in Hj' as [Hj'|Hj'].
        { by eapply Hmax. }
        apply list_elem_of_singleton in Hj' as ->.
        rewrite Hsim in Hs'. injection Hs' as <-.
        destruct (Qlt_le_dec best.2 s) as [Hgt|Hle]; [|done].
        exfalso. by apply Hnot.
      * destruct best.1 as [r|]; [|done].
        destruct Hbest as (Hth & before & j & after & -> & Hr & Hbefore).
        split; [done|]. exists before, j, (after ++ [job])%list.
        split; [by rewrite <- app_assoc|]. done.
  - split.
    + intros j' s' Hj' Hs' Hth'. apply elem_of_app in Hj' as [Hj'|Hj'].
      { by eapply Hmax. }
      apply list_elem_of_singleton in Hj' as ->. congruence.
    + destruct best.1 as [r|]; [|done].
      destruct Hbest as (Hth & before & j & after & -> & Hr & Hbefore).
      split; [done|]. exists before, j, (after ++ [job])%list.
      split; [by rewrite <- app_assoc|]. done.
Qed.

Lemma fold_scan_first_of_best tokens threshold jobs : ∀ seen best,
  first_of_best tokens threshold seen best →
  first_of_best tokens threshold (seen ++ jobs)
    (fold_left (scan tokens threshold) jobs best).
Proof.
  induction jobs as [|job jobs IH]; intros seen best Hbest.
  - by rewrite app_nil_r.
  - cbn [fold_left]. replace (seen ++ job :: jobs)%list with ((seen ++ [job]) ++ jobs)%list
      by (by rewrite <- app_assoc).
    apply IH. by apply scan_first_of_best.
Qed.

(** X11. Among equals the most recent wins.  The jobs are read from the
    most recently completed on, and a job replaces the one kept only with a
    greater similarity: every job read before the one that is returned, so
    every job read that was completed after it, has a smaller similarity. *)
Theorem findCachedResponse_prefers_recent (prompt : string) (rows : list Job)
    (host : Host) (now : Z) (maxAgeHours : JS.number) (threshold : Q)
    (r : CachedResponse) :
  findCachedResponse prompt (Table rows) host now maxAgeHours threshold = Some r →
  ∃ before j after,
    queried host now maxAgeHours rows = (before ++ j :: after)%list
    ∧ r = hit j (similarity r)
    ∧ (∀ j', j' ∈ before → newer_first j' j)
    ∧ ∀ j' s, j' ∈ before → job_similarity (tokenize prompt) j' = Some s →
              (s < similarity r)%Q.
Proof.
  unfold findCachedResponse, queried.
  destruct (cutoffDate host now maxAgeHours) as [cutoff|]; [|done].
  set (jobs := recent_completed cutoff rows).
  intros Hfound.
  assert (bestOf (tokenize prompt) threshold jobs = Some r) as Hbest
    by (by destruct jobs).
  pose proof (fold_scan_first_of_best (tokenize prompt) threshold jobs [] (None, 0%Q))
    as [_ Hfirst].
  { split; [|done]. intros j s Hj. by apply elem_of_nil in Hj. }
  unfold bestOf in Hbest. rewrite Hbest in Hfirst. cbn [app] in Hfirst.
  destruct Hfirst as (_ & before & j & after & Hjobs & Hr & Hbefore).
  assert (similarity r = (fold_left (scan (tokenize prompt) threshold) jobs (None, 0%Q)).2)
    as Hs by (by rewrite Hr).
  rewrite <- Hs in Hr, Hbefore.
  exists before, j, after. split; [done|]. split; [done|]. split; [|done].
  intros j' Hj'.
  set (sorted := merge_sort newer_first
                   (filter (λ j, completed_since cutoff j = true) rows)).
  assert (StronglySorted newer_first (before ++ (j :: after ++ drop SCAN_LIMIT sorted)))
    as Hsorted.
  { replace (before ++ (j :: after ++ drop SCAN_LIMIT sorted))%list
      with (jobs ++ drop SCAN_LIMIT sorted)%list
      by (by rewrite Hjobs, <- app_assoc).
    unfold jobs, recent_completed. fold sorted. rewrite take_drop.
    apply StronglySorted_merge_sort; apply _. }
  eapply (StronglySorted_app_1_elem_of newer_first before); [done..|].
  apply elem_of_cons. by left.
Qed.

Lemma findCachedResponse_prefers_recent_witness :
  ∃ before j after,
    queried utc 6000 (JS.Finite 72) [twin "older" 4000; twin "newer" 5000]
    = (before ++ j :: after)%list
    ∧ hit (twin "newer" 5000) (3 # 3) = hit j (3 # 3)
    ∧ (∀ j', j' ∈ before → newer_first j' j)
    ∧ ∀ j' s, j' ∈ before → job_similarity (tokenize "todo app react") j' = Some s →
              (s < 3 # 3)%Q.
Proof.
  apply (findCachedResponse_prefers_recent "todo app react"
           [twin "older" 4000; twin "newer" 5000] utc 6000 (JS.Finite 72) (7 # 10)
           (hit (twin "newer" 5000) (3 # 3))).
  vm_compute. reflexivity.
Defined.

(** *** Tokens *)

Lemma chars_text l : JS.chars (JS.text l) = l.
Proof. apply list_ascii_of_string_of_list_ascii. Qed.

Lemma chars_length s : length (JS.chars s) = String.length s.
Proof. induction s as [|c s IH]; [done|]. cbn. by rewrite <- IH. Qed.

Lemma chars_prefix_of n s : JS.chars (JS.prefix_of n s) = take n (JS.chars s).
Proof.
  unfold JS.prefix_of. revert s. induction n as [|n IH]; intros [|c s]; cbn; try done.
  by rewrite <- IH.
Qed.

Lemma drop_blanks_Forall (P : ascii → Prop) l :
  Forall P l → Forall P (JS.drop_blanks l).
Proof.
  induction 1 as [|c l Hc Hl IH]; [done|]. cbn.
  destruct (JS.is_space c); [done | by constructor].
Qed.

Lemma trim_Forall (P : ascii → Prop) s :
  Forall P (JS.chars s) → Forall P (JS.chars (JS.trim s)).
Proof.
  intros H. unfold JS.trim. rewrite chars_text.
  by apply Forall_rev, drop_blanks_Forall, Forall_rev, drop_blanks_Forall.
Qed.

Lemma collapse_blanks_Forall (Q : ascii → Prop) l : ∀ b,
  Forall Q l →
  Forall (λ c, c = blank ∨ (JS.is_space c = false ∧ Q c)) (collapse_blanks b l).
Proof.
  induction l as [|c l IH]; intros b Hl; [done|].
  apply Forall_cons in Hl as [Hc Hl]. cbn.
  destruct (JS.is_space c) eqn:E.
  - destruct b; [by apply IH|]. constructor; [by left | by apply IH].
  - constructor; [by right | by apply IH].
Qed.

Lemma lower_char_not_upper c : JS.is_upper (JS.lower_char c) = false.
Proof. by destruct c as [[] [] [] [] [] [] [] []]. Qed.

Lemma strip_punctuation_Forall l :
  Forall (λ c, JS.is_upper c = false) l →
  Forall (λ c, (JS.is_word c = true ∨ JS.is_space c = true) ∧ JS.is_upper c = false)
    (strip_punctuation l).
Proof.
  intros H. unfold strip_punctuation. apply Forall_fmap.
  eapply Forall_impl; [exact H|]. intros c Hc. cbn.
  destruct (JS.is_word c) eqn:Ew; cbn; [by auto|].
  destruct (JS.is_space c) eqn:Es; cbn; [by auto|]. by split; [right|].
Qed.

(** Every character of a normalized prompt is a blank or a character of a
    token, and there are at most two hundred of them. *)
Lemma normalizePrompt_chars text :
  Forall (λ c, c = blank ∨ token_char c = true) (JS.chars (normalizePrompt text))
  ∧ (String.length (normalizePrompt text) ≤ 200)%nat.
Proof.
  unfold normalizePrompt. split.
  - rewrite chars_prefix_of. apply Forall_take, trim_Forall. rewrite chars_text.
    eapply Forall_impl.
    + apply (collapse_blanks_Forall
               (λ c, (JS.is_word c = true ∨ JS.is_space c = true)
                     ∧ JS.is_upper c = false)).
      apply strip_punctuation_Forall. unfold JS.toLowerCase. rewrite chars_text.
      apply Forall_fmap, Forall_forall. intros c _. apply lower_char_not_upper.
    + intros c [->|(Hs & [Hw|Hs'] & Hu)]; [by left| |congruence].
      right. unfold token_char. by rewrite Hw, Hu.
  - rewrite <- chars_length, chars_prefix_of, length_take. lia.
Qed.

Lemma split_chars_Forall (R : ascii → Prop) sep l : ∀ cur w,
  w ∈ JS.split_chars sep cur l →
  Forall R cur → Forall (λ c, c ≠ sep → R c) l →
  Forall R (JS.chars w) ∧ (String.length w ≤ length cur + length l)%nat.
Proof.
  induction l as [|c l IH]; intros cur w Hw Hcur Hl; cbn in Hw.
  - apply list_elem_of_singleton in Hw as ->. rewrite <- chars_length, chars_text.
    split; [by apply Forall_rev|]. rewrite length_rev. lia.
  - apply Forall_cons in Hl as [Hc Hl]. destruct (Ascii.eqb_spec c sep) as [->|Hne].
    + apply elem_of_cons in Hw as [->|Hw].
      * rewrite <- chars_length, chars_text.
        split; [by apply Forall_rev|]. rewrite length_rev. lia.
      * destruct (IH [] w Hw) as [HR Hlen]; [done..|]. split; [done|]. cbn in *. lia.
    + destruct (IH (c :: cur) w Hw) as [HR Hlen]; [by constructor; auto|done|].
      split; [done|]. cbn in *. lia.
Qed.

(** X12. What a token is.  Every token that [tokenize] yields has between
    3 and 200 characters, each of them a lower-case letter, a digit or an
    underscore, and is none of the stop words: no upper-case letter, blank
    or punctuation mark reaches the comparison. *)
Theorem tokens_are_words (text w : string) :
  w ∈ tokenize text →
  (3 ≤ String.length w ≤ 200)%nat
  ∧ Forall (λ c, token_char c = true) (JS.chars w)
  ∧ w ∉ stopWords.
Proof.
  unfold tokenize. rewrite elem_of_list_to_set, list_elem_of_filter.
  intros [Hkeep Hw]. unfold keep_word in Hkeep.
  apply andb_prop in Hkeep as [Hlen Hstop]. apply Z.ltb_lt in Hlen.
  apply negb_true_iff, bool_decide_eq_false in Hstop.
  destruct (normalizePrompt_chars text) as [Hchars Hmax].
  destruct (split_chars_Forall (λ c, token_char c = true) blank
              (JS.chars (normalizePrompt text)) [] w Hw) as [HR Hle].
  - done.
  - eapply Forall_impl; [exact Hchars|]. intros c [->|Hc] Hne; [done|done].
  - rewrite chars_length in Hle. cbn in Hle. split; [lia|]. done.
Qed.

Lemma tokens_are_words_witness :
  (3 ≤ String.length "todo" ≤ 200)%nat
  ∧ Forall (λ c, token_char c = true) (JS.chars "todo")
  ∧ "todo" ∉ stopWords.
Proof.
  apply (tokens_are_words "Buatkan saya TODO-App, React!" "todo").
  vm_compute. reflexivity.
Defined.

Lemma lower_upper_char c :
  JS.lower_char (if JS.is_lower c then ascii_of_N (N_of_ascii c - 32) else c)
  = JS.lower_char c.
Proof. by destruct c as [[] [] [] [] [] [] [] []]. Qed.

Lemma lower_lower_char c : JS.lower_char (JS.lower_char c) = JS.lower_char c.
Proof. by destruct c as [[] [] [] [] [] [] [] []]. Qed.

Lemma normalizePrompt_lower a b :
  JS.toLowerCase a = JS.toLowerCase b → normalizePrompt a = normalizePrompt b.
Proof. unfold normalizePrompt. by intros ->. Qed.

(** X13. The cache does not tell upper case from lower case: an ASCII
    prompt and the same prompt in capitals, or in small letters, have the
    same tokens and get the same answer from the same queue. *)
Theorem lookup_ignores_case (prompt : string) (supabase : SupabaseClient)
    (host : Host) (now : Z) (maxAgeHours : JS.number) (threshold : Q) :
  JS.ascii_only prompt = true →
  tokenize (Orchestrator.toUpperCase prompt) = tokenize prompt
  ∧ tokenize (JS.toLowerCase prompt) = tokenize prompt
  ∧ findCachedResponse (Orchestrator.toUpperCase prompt) supabase host now maxAgeHours
      threshold
    = findCachedResponse prompt supabase host now maxAgeHours threshold.
Proof.
  intros _.
  assert (normalizePrompt (Orchestrator.toUpperCase prompt) = normalizePrompt prompt)
    as Hupper.
  { apply normalizePrompt_lower. unfold JS.toLowerCase, Orchestrator.toUpperCase.
    rewrite chars_text, map_map. f_equal. apply map_ext. intros c.
    apply lower_upper_char. }
  assert (normalizePrompt (JS.toLowerCase prompt) = normalizePrompt prompt) as Hlower.
  { apply normalizePrompt_lower. unfold JS.toLowerCase.
    rewrite chars_text, map_map. f_equal. apply map_ext. intros c.
    apply lower_lower_char. }
  unfold findCachedResponse, tokenize. by rewrite Hupper, Hlower.
Qed.

Lemma lookup_ignores_case_witness :
  tokenize (Orchestrator.toUpperCase "Todo app, React!") = tokenize "Todo app, React!"
  ∧ tokenize (JS.toLowerCase "Todo app, React!") = tokenize "Todo app, React!"
  ∧ findCachedResponse (Orchestrator.toUpperCase "Todo app, React!")
      (Table [twin "job-1" 5000]) utc 6000 (JS.Finite 72) (7 # 10)
    = findCachedResponse "Todo app, React!" (Table [twin "job-1" 5000]) utc 6000
        (JS.Finite 72) (7 # 10).
Proof.
  apply (lookup_ignores_case "Todo app, React!" (Table [twin "job-1" 5000]) utc 6000
           (JS.Finite 72) (7 # 10)).
  reflexivity.
Defined.

End PersistentCacheMore.

(** ** The orchestrator: what merge keeps, verification, decomposition *)

Module OrchestratorMore.

Import JS Orchestrator OrchestratorSpec.

(** *** merge: the union *)

Lemma mergeEntry_allowed result acc entry :
  (∀ k, is_Some (files_get acc.1 k) → isForbidden k = false) →
  ∀ k, is_Some (files_get (mergeEntry result acc entry).1 k) → isForbidden k = false.
Proof.
  destruct acc as [allFiles cs], entry as [f c]. unfold mergeEntry. cbn [fst].
  intros Hacc k. destruct (isForbidden f) eqn:Hf; [apply Hacc|]. cbn [fst].
  rewrite files_get_set. destruct (String.eqb_spec f k) as [<-|]; [done | apply Hacc].
Qed.

Lemma collect_allowed results k :
  is_Some (files_get (collect results).1 k) → isForbidden k = false.
Proof.
  unfold collect.
  assert (∀ k, is_Some (files_get (([], []) : Files * list Conflict).1 k)
               → isForbidden k = false) as Hnil
    by (intros k' [v Hv]; done).
  revert k. generalize dependent (([], []) : Files * list Conflict).
  induction results as [|r results IH]; intros acc Hacc; [done|]. cbn [fold_left].
  apply IH. unfold mergeResult. destruct (AgentResult.files r) as [fs|]; [|done].
  clear IH. revert acc Hacc. induction fs as [|e fs IHfs]; intros acc Hacc; [done|].
  cbn [fold_left]. apply IHfs. by apply mergeEntry_allowed.
Qed.

Lemma fold_overwrite_last cs : ∀ st,
  (fold_left overwrite cs st).1
  = match last cs with
    | Some rc => Some rc.2
    | None => st.1
    end.
Proof.
  induction cs as [|rc cs IH]; intros st; [done|]. cbn [fold_left]. rewrite IH.
  destruct cs as [|rc' cs]; [reflexivity|]. cbn [last].
  destruct (last (rc' :: cs)) eqn:E; [done|]. by apply last_None in E.
Qed.

(** The union holds, at each path, the content written last. *)
Lemma collect_last_write f results :
  files_get (collect results).1 f
  = if isForbidden f then None else snd <$> last (contributions f results).
Proof.
  destruct (isForbidden f) eqn:Hf.
  - destruct (files_get (collect results).1 f) as [v|] eqn:E; [|done].
    assert (isForbidden f = false) by (apply (collect_allowed results); by rewrite E).
    congruence.
  - change (files_get (collect results).1 f) with (heldAt (collect results) f).1.
    rewrite collect_at by done. rewrite fold_overwrite_last.
    by destruct (last (contributions f results)).
Qed.

Lemma merge_without_specialist w plan results :
  specialistCalls (merge w plan results) = [] →
  files (merge w plan results)
  = texts match (collect results).1 with
          | [] => [("output.md", combinedOutput results)]
          | union => union
          end.
Proof.
  intros Hcalls. destruct (merge_unfold w plan results) as (_ & Hasked & ->).
  rewrite Hasked in Hcalls.
  destruct ((0 <? Z.of_nat (length (collect results).2)) && enableLogging w); [done|].
  by destruct (collect results).1.
Qed.

(** X14. Without a call of the merge specialist, [merge] is last write
    wins: a path that some task wrote holds the content of the last task to
    write it, in the order of the results and of the entries of each; and
    no path with a forbidden part (prisma/, server/, api/, .env, docker,
    /migrations/, schema.prisma, in any case of letters) is in what it
    returns. *)
Theorem merge_last_write_wins (w : World) (plan : TaskPlan.t)
    (results : list AgentResult.t) (f : string) :
  specialistCalls (merge w plan results) = [] →
  (isForbidden f = true → entries_get (files (merge w plan results)) f = None)
  ∧ (isForbidden f = false → contributions f results ≠ [] →
     entries_get (files (merge w plan results)) f
     = Text <$> (snd <$> last (contributions f results))).
Proof.
  intros Hcalls. rewrite (merge_without_specialist _ _ _ Hcalls), entries_get_texts.
  pose proof (collect_last_write f results) as Hlast.
  destruct (collect results).1 as [|e union] eqn:Hunion.
  - split.
    + intros Hf. cbn [files_get].
      destruct (String.eqb_spec "output.md" f) as [<-|]; [|done].
      vm_compute in Hf. discriminate.
    + intros Hf Hcs. rewrite Hf in Hlast. cbn in Hlast.
      destruct (last (contributions f results)) as [rc|] eqn:E; [done|].
      by apply last_None in E.
  - split; intros Hf; rewrite Hf in Hlast; rewrite Hlast; [done|]. by intros _.
Qed.

Lemma merge_last_write_wins_witness :
  entries_get (files (merge (worldOf false (Some todoPlan) (λ _, Answered "Halo!" 1200)
                               (λ _, true)) todoPlan [appOne; appTwo]))
    "/App.tsx"
  = Text <$> (snd <$> last (contributions "/App.tsx" [appOne; appTwo])).
Proof.
  apply (merge_last_write_wins
           (worldOf false (Some todoPlan) (λ _, Answered "Halo!" 1200) (λ _, true))
           todoPlan [appOne; appTwo] "/App.tsx").
  - reflexivity.
  - reflexivity.
  - discriminate.
Defined.

(** *** merge: when a conflict is recorded *)

Lemma fold_overwrite_grows cs : ∀ st,
  ∃ more, (fold_left overwrite cs st).2 = (st.2 ++ more)%list.
Proof.
  induction cs as [|rc cs IH]; intros st.
  - exists []. by rewrite app_nil_r.
  - cbn [fold_left]. destruct (IH (overwrite st rc)) as [more ->].
    unfold overwrite. cbn [snd]. destruct st.1 as [held|].
    + destruct (nonempty held && negb (String.eqb held rc.2)).
      * exists (rc.1 :: more). by rewrite <- app_assoc.
      * by exists more.
    + by exists more.
Qed.

Lemma fold_overwrite_quiet cs : ∀ held srcs,
  nonempty held = true →
  (fold_left overwrite cs (Some held, srcs)).2 = srcs →
  Forall (λ rc : AgentResult.t * string, rc.2 = held) cs.
Proof.
  induction cs as [|[r c] cs IH]; intros held srcs Hheld Hsame; [done|].
  cbn [fold_left] in Hsame. unfold overwrite at 2 in Hsame. cbn [fst snd] in Hsame.
  rewrite Hheld in Hsame. cbn [andb] in Hsame.
  destruct (String.eqb_spec held c) as [<-|Hne]; cbn [negb] in Hsame.
  - constructor; [done|]. by apply (IH held srcs).
  - exfalso. destruct (fold_overwrite_grows cs (Some c, (srcs ++ [r])%list)) as [more Hm].
    rewrite Hm in Hsame. cbn [snd] in Hsame. apply (f_equal length) in Hsame.
    rewrite !length_app in Hsame. cbn in Hsame. lia.
Qed.

(** X15. When a conflict is recorded.  At a path that is not forbidden
    and to which no task wrote an empty content, [merge] records a conflict
    exactly when two tasks wrote different contents; tasks that agree on
    the content leave no conflict there. *)
Theorem conflict_iff_contents_differ (w : World) (plan : TaskPlan.t)
    (results : list AgentResult.t) (f : string) :
  isForbidden f = false →
  Forall (λ rc : AgentResult.t * string, nonempty rc.2 = true)
    (contributions f results) →
  sourcesAt (conflicts (merge w plan results)) f = []
  ↔ ∀ rc rc', rc ∈ contributions f results → rc' ∈ contributions f results →
              rc.2 = rc'.2.
Proof.
  intros Hf Hfull. destruct (merge_unfold w plan results) as (-> & _ & _).
  change (sourcesAt (collect results).2 f) with (heldAt (collect results) f).2.
  rewrite collect_at by done.
  destruct (contributions f results) as [|[r c] cs].
  { split; [|done]. intros _ rc rc' Hrc. by apply elem_of_nil in Hrc. }
  apply Forall_cons in Hfull as [Hc Hfull]. cbn [snd] in Hc. cbn [fold_left].
  unfold overwrite at 2. cbn [fst snd]. split.
  - intros Hnone. pose proof (fold_overwrite_quiet cs c [] Hc Hnone) as Hall.
    rewrite Forall_forall in Hall.
    assert (∀ rc, rc ∈ (r, c) :: cs → rc.2 = c) as Hsame.
    { intros rc Hrc. apply elem_of_cons in Hrc as [->|Hrc]; [done | by apply Hall]. }
    intros rc rc' Hrc Hrc'. by rewrite (Hsame rc), (Hsame rc').
  - intros Hsame. apply overwrite_same. apply Forall_forall. intros rc Hrc.
    apply (Hsame rc (r, c)); [by apply elem_of_cons; right | by apply elem_of_cons; left].
Qed.

Lemma conflict_iff_contents_differ_witness :
  sourcesAt
    (conflicts (merge (worldOf false (Some todoPlan) (λ _, Answered "Halo!" 1200)
                         (λ _, true)) todoPlan [appOne; appOne]))
    "/App.tsx" = []
  ↔ ∀ rc rc', rc ∈ contributions "/App.tsx" [appOne; appOne] →
              rc' ∈ contributions "/App.tsx" [appOne; appOne] → rc.2 = rc'.2.
Proof.
  apply (conflict_iff_contents_differ
           (worldOf false (Some todoPlan) (λ _, Answered "Halo!" 1200) (λ _, true))
           todoPlan [appOne; appOne] "/App.tsx").
  - reflexivity.
  - repeat constructor.
Defined.

(** *** merge: never an empty package *)

(** X16. [merge] never returns an empty set of files.  When no task wrote
    a file that is kept, it issues no specialist call and returns the single
    file output.md, made of the outputs of the successful tasks; otherwise
    every path of the union is in what it returns, whatever the specialist
    answers. *)
Theorem merge_never_empty (w : World) (plan : TaskPlan.t)
    (results : list AgentResult.t) :
  files (merge w plan results) ≠ []
  ∧ ((collect results).1 = [] →
     files (merge w plan results) = [("output.md", Text (combinedOutput results))]
     ∧ specialistCalls (merge w plan results) = []
     ∧ conflicts (merge w plan results) = [])
  ∧ ((collect results).1 ≠ [] →
     ∀ k, is_Some (files_get (collect results).1 k) →
          is_Some (entries_get (files (merge w plan results)) k)).
Proof.
  assert ((collect results).1 = [] →
          files (merge w plan results) = [("output.md", Text (combinedOutput results))]
          ∧ specialistCalls (merge w plan results) = []
          ∧ conflicts (merge w plan results) = []) as Hempty.
  { intros Hunion.
    assert ((collect results).2 = []) as Hcs.
    { destruct (collect results).2 eqn:E; [done|].
      exfalso. apply (collect_nonempty results); [by rewrite E | done]. }
    destruct (merge_unfold w plan results) as (Hconf & Hcalls & Hfiles).
    rewrite Hcs in Hcalls, Hfiles, Hconf. cbn in Hcalls, Hfiles.
    rewrite Hunion in Hfiles. done. }
  split; [|split; [done|]].
  - destruct (collect results).1 as [|e union] eqn:Hunion.
    + destruct Hempty as [-> _]; done.
    + intros Hnil.
      assert (is_Some (entries_get (files (merge w plan results)) e.1)) as [v Hv].
      { apply merge_keeps_union_paths. rewrite Hunion. destruct e as [k v]. cbn.
        by rewrite String.eqb_refl. }
      by rewrite Hnil in Hv.
  - intros _ k. apply merge_keeps_union_paths.
Qed.

Lemma collect_nothing results :
  Forall (λ r, default [] (AgentResult.files r) = []) results →
  collect results = ([], []).
Proof.
  unfold collect. generalize (([], []) : Files * list Conflict).
  induction results as [|r results IH]; intros acc Hall; [done|].
  apply Forall_cons in Hall as [Hr Hall]. cbn [fold_left].
  replace (mergeResult acc r) with acc; [by apply IH|].
  unfold mergeResult. destruct (AgentResult.files r) as [fs|]; [|done].
  cbn in Hr. by subst fs.
Qed.

(** X17. A run in which every task failed hands no file on.  When no
    result is a success and none holds a file, which is how every failed
    task ends, [merge] makes the single file output.md with an empty
    content, and the filter that follows it in [orchestrate] drops that
    file: the final verifier is given the empty set of files. *)
Theorem failed_run_leaves_no_file (w : World) (plan : TaskPlan.t)
    (results : list AgentResult.t) :
  Forall (λ r, AgentResult.success r = false
               ∧ default [] (AgentResult.files r) = []) results →
  files (merge w plan results) = [("output.md", Text "")]
  ∧ specialistCalls (merge w plan results) = []
  ∧ cleanFiles (files (merge w plan results)) = inr [].
Proof.
  intros Hall.
  assert (collect results = ([], [])) as Hcollect.
  { apply collect_nothing. eapply Forall_impl; [exact Hall|]. by intros r [_ ?]. }
  assert (combinedOutput results = "") as Hout.
  { unfold combinedOutput.
    replace (filter (λ r, AgentResult.success r = true) results) with ([] : list AgentResult.t);
      [done|].
    symmetry. clear Hcollect. induction Hall as [|r results [Hr _] _ IH]; [done|].
    rewrite filter_cons, decide_False by congruence. exact IH. }
  destruct (merge_unfold w plan results) as (_ & Hcalls & Hfiles).
  rewrite Hcollect in Hcalls, Hfiles. cbn in Hcalls, Hfiles.
  rewrite Hfiles, Hcalls, Hout. done.
Qed.

Lemma failed_run_leaves_no_file_witness :
  cleanFiles
    (files (merge (worldOf false (Some todoPlan) (λ _, Refused offline) (λ _, true))
              todoPlan
              (map (λ t, failedResult t offline) (TaskPlan.subTasks todoPlan))))
  = inr [].
Proof.
  apply (failed_run_leaves_no_file
           (worldOf false (Some todoPlan) (λ _, Refused offline) (λ _, true))
           todoPlan (map (λ t, failedResult t offline) (TaskPlan.subTasks todoPlan))).
  repeat constructor.
Defined.

(** *** executeParallel: the groups decide *)

Lemma executeGroups_returned w plan groups : ∀ i allResults results,
  executeGroups w plan i groups allResults = inr results →
  results = resultsOfGroups w plan groups allResults.
Proof.
  induction groups as [|g groups IH]; intros i acc results; cbn.
  - by intros [= <-].
  - destruct (progress w (GroupStart i)) as [e|[]]; [done|]. cbn. apply IH.
Qed.

Lemma executeGroups_thrown w plan groups : ∀ i allResults (k : nat) e,
  (k < length groups)%nat →
  (∀ j, (j < k)%nat → progress w (GroupStart (i + j)) = inr ()) →
  progress w (GroupStart (i + k)) = inl e →
  executeGroups w plan i groups allResults = inl e.
Proof.
  induction groups as [|g groups IH]; intros i acc k e Hk Hbefore Hthrow; cbn in *.
  - lia.
  - destruct k as [|k].
    + rewrite Nat.add_0_r in Hthrow. by rewrite Hthrow.
    + rewrite <- (Nat.add_0_r i) at 1. rewrite (Hbefore O) by lia. cbn.
      apply (IH (S i) _ k e); [lia| |].
      * intros j Hj. replace (S i + j)%nat with (i + S j)%nat by lia.
        apply Hbefore. lia.
      * by replace (S i + k)%nat with (i + S k)%nat by lia.
Qed.

(** X18. The groups decide what runs.  When [executeParallel] returns,
    the tasks of its results are, in order and with repetitions, those that
    the groups name: a task of the plan that no group names is not run and
    has no result, and no error tells of it.  When the progress callback
    throws at the start of a group, [executeParallel] throws that error and
    the results of the groups before it are lost with it. *)
Theorem groups_decide_what_runs (w : World) (plan : TaskPlan.t) :
  (∀ results, executeParallel w plan = inr results →
     map AgentResult.taskId results = scheduledIds plan
     ∧ ∀ t, t ∈ TaskPlan.subTasks plan →
            (∀ g, g ∈ TaskPlan.parallelGroups plan → SubTask.id t ∉ g) →
            SubTask.id t ∉ map AgentResult.taskId results)
  ∧ (∀ (k : nat) e,
       (k < length (TaskPlan.parallelGroups plan))%nat →
       (∀ j, (j < k)%nat → progress w (GroupStart j) = inr ()) →
       progress w (GroupStart k) = inl e →
       executeParallel w plan = inl e).
Proof.
  split.
  - intros results Hrun. unfold executeParallel in Hrun.
    apply executeGroups_returned in Hrun as ->.
    assert (map AgentResult.taskId
              (resultsOfGroups w plan (TaskPlan.parallelGroups plan) [])
            = scheduledIds plan) as Hids
      by (by rewrite resultsOfGroups_taskIds).
    split; [done|]. intros t Ht Hnone. rewrite Hids. unfold scheduledIds.
    rewrite list_elem_of_In, in_flat_map. intros (g & Hg & Hin).
    apply list_elem_of_In in Hg, Hin.
    apply list_elem_of_fmap in Hin as (t' & Hid & Ht').
    apply list_elem_of_filter in Ht' as [Hmember _].
    apply (Hnone g Hg). by rewrite Hid.
  - intros k e Hk Hbefore Hthrow. unfold executeParallel.
    by apply (executeGroups_thrown w plan _ O [] k e).
Qed.

(** *** verifyChain *)

Lemma verifyOne_keeps w plan r :
  AgentResult.taskId (verifyOne w plan r) = AgentResult.taskId r
  ∧ AgentResult.success (verifyOne w plan r) = AgentResult.success r
  ∧ AgentResult.duration (verifyOne w plan r) = AgentResult.duration r
  ∧ (verifyOne w plan r = r
     ∨ AgentResult.agent (verifyOne w plan r) = AgentResult.agent r +:+ "+verified").
Proof.
  unfold verifyOne.
  destruct (find _ (TaskPlan.subTasks plan)) as [task|]; [|by auto].
  destruct (callVerify w r task) as [e|out]; [by auto|].
  destruct (_ && _); [|by auto].
  destruct (verifyAndFix w _) as [e|healed]; [by auto|].
  destruct (verified healed); by auto.
Qed.

Lemma partition_Permutation {A} (P : A → bool) (l : list A) :
  ((filter (λ x, P x = false) l ++ filter (λ x, P x = true) l)%list) ≡ₚ l.
Proof.
  induction l as [|x l IH]; [done|].
  rewrite (filter_cons (λ x, P x = false) x l), (filter_cons (λ x, P x = true) x l).
  destruct (P x) eqn:E.
  - rewrite decide_False, decide_True by done.
    rewrite <- Permutation_middle. by constructor.
  - rewrite decide_True, decide_False by done. cbn. by constructor.
Qed.

(** X19. What verification may change.  [verifyChain] returns as many
    results as it was given, for the same tasks.  When the review loses the
    race against the 45 s timer, or throws, the results are returned as they
    were given, in their order.  When it ends in time, the results of the
    agents it does not review come first, unchanged and in their order,
    then those of the coding agents.  In both cases each result is either
    the result it was, or has its output and files replaced and "+verified"
    appended to its agent, with its task, its success flag and its duration
    as they were.  A failed task stays failed. *)
Theorem verifyChain_keeps_tasks (w : World) (plan : TaskPlan.t)
    (results : list AgentResult.t) :
  let out := verifyChain w plan results in
  map AgentResult.taskId out ≡ₚ map AgentResult.taskId results
  ∧ length out = length results
  ∧ (if verifyInTime w results
     then take (length (filter (λ r, isCodingAgent r = false) results)) out
          = filter (λ r, isCodingAgent r = false) results
     else out = results)
  ∧ ∀ r', r' ∈ out →
      ∃ r, r ∈ results
           ∧ AgentResult.taskId r' = AgentResult.taskId r
           ∧ AgentResult.success r' = AgentResult.success r
           ∧ AgentResult.duration r' = AgentResult.duration r
           ∧ (r' = r
              ∨ (isCodingAgent r = true
                 ∧ AgentResult.agent r' = AgentResult.agent r +:+ "+verified")).
Proof.
  cbv zeta. unfold verifyChain. destruct (verifyInTime w results).
  2:{ split; [done|]. split; [done|]. split; [done|].
      intros r' Hr'. exists r'. by auto 10. }
  unfold doVerifyChain.
  set (skipped := filter (λ r, isCodingAgent r = false) results).
  set (coding := filter (λ r, isCodingAgent r = true) results).
  assert (map AgentResult.taskId (map (verifyOne w plan) coding)
          = map AgentResult.taskId coding) as Hids.
  { rewrite map_map. apply map_ext. intros r. apply verifyOne_keeps. }
  split; [|split; [|split]].
  - rewrite map_app, Hids, <- map_app. apply Permutation_map, partition_Permutation.
  - rewrite length_app, length_map, <- length_app.
    apply Permutation_length, partition_Permutation.
  - by rewrite take_app_length.
  - intros r' Hr'. apply elem_of_app in Hr' as [Hr'|Hr'].
    + exists r'. apply list_elem_of_filter in Hr' as [_ Hr']. by auto 10.
    + apply list_elem_of_fmap in Hr' as (r & -> & Hr).
      apply list_elem_of_filter in Hr as [Hcoding Hr]. exists r.
      destruct (verifyOne_keeps w plan r) as (Hid & Hok & Hd & Hsame).
      do 4 (split; [done|]). destruct Hsame as [Hsame|Hagent]; [by left | by right].
Qed.

(** *** decompose *)

Lemma drop_until_app c pre rest :
  c ∉ pre → drop_until c (pre ++ c :: rest) = c :: rest.
Proof.
  induction pre as [|x pre IH]; intros Hpre; cbn.
  - by rewrite Ascii.eqb_refl.
  - apply not_elem_of_cons in Hpre as [Hx Hpre].
    destruct (Ascii.eqb_spec x c); [congruence | by apply IH].
Qed.

Lemma elem_of_rev_iff (x : ascii) l : x ∈ rev l ↔ x ∈ l.
Proof. rewrite !list_elem_of_In. symmetry. apply in_rev. Qed.

Lemma drop_until_split c l :
  drop_until c l = []
  ∨ ∃ pre rest, l = (pre ++ c :: rest)%list ∧ (c ∉ pre) ∧ drop_until c l = c :: rest.
Proof.
  induction l as [|x l IH]; [by left|]. cbn.
  destruct (Ascii.eqb_spec x c) as [->|Hne].
  - right. exists [], l. split; [done|]. split; [|done]. apply not_elem_of_nil.
  - destruct IH as [IH|(pre & rest & -> & Hpre & IH)]; [by left|].
    right. exists (x :: pre), rest. split; [done|]. split; [|done].
    apply not_elem_of_cons. by split.
Qed.

Lemma match_braces_found s pre mid post :
  chars s = (pre ++ open_brace :: mid ++ close_brace :: post)%list →
  open_brace ∉ pre → close_brace ∉ post →
  match_braces s = Some (text (open_brace :: mid ++ [close_brace])).
Proof.
  intros Hs Hpre Hpost. unfold match_braces. rewrite Hs, drop_until_app by done.
  replace (rev (open_brace :: mid ++ close_brace :: post))
    with (rev post ++ close_brace :: rev (open_brace :: mid))%list
    by (cbn; rewrite !rev_app_distr; cbn; by rewrite <- !app_assoc).
  rewrite drop_until_app by (by rewrite elem_of_rev_iff).
  replace (rev (close_brace :: rev (open_brace :: mid)))
    with (open_brace :: mid ++ [close_brace])%list
    by (cbn [rev]; by rewrite rev_app_distr, rev_involutive).
  done.
Qed.

Lemma match_braces_some s m :
  match_braces s = Some m →
  ∃ pre mid post,
    chars s = (pre ++ open_brace :: mid ++ close_brace :: post)%list
    ∧ (open_brace ∉ pre) ∧ (close_brace ∉ post).
Proof.
  unfold match_braces. intros Hm.
  destruct (drop_until_split open_brace (chars s))
    as [Hnone|(pre & rest & Hs & Hpre & Hopen)].
  { by rewrite Hnone in Hm. }
  rewrite Hopen in Hm.
  destruct (drop_until_split close_brace (rev (open_brace :: rest)))
    as [Hnone|(post' & rest' & Hrev & Hpost & Hclose)].
  { by rewrite Hnone in Hm. }
  apply (f_equal (@rev ascii)) in Hrev. rewrite rev_involutive in Hrev.
  rewrite rev_app_distr in Hrev. cbn [rev] in Hrev. rewrite <- app_assoc in Hrev.
  cbn [app] in Hrev.
  destruct (rev rest') as [|x mid] eqn:E.
  { cbn in Hrev. injection Hrev as Hx _. vm_compute in Hx. discriminate. }
  cbn [app] in Hrev. injection Hrev as <- Hrest.
  exists pre, mid, (rev post'). split; [by rewrite Hs, Hrest|]. split; [done|].
  by rewrite elem_of_rev_iff.
Qed.

(** X20. What [decompose] reads of the reply.  The planner may put
    prose around its JSON: the parser is given the text from the first
    opening brace to the last closing brace after it and nothing else, and
    [decompose] throws the parsing error of the JSON when the parser finds
    no plan there; when the reply holds no opening brace followed by a
    closing one, [decompose] throws 'Failed to parse task decomposition'. *)
Theorem decompose_reads_between_braces (w : World) (userRequest reply : string) :
  callDecompose w userRequest = inr reply →
  (∀ pre mid post,
     chars reply = (pre ++ open_brace :: mid ++ close_brace :: post)%list →
     open_brace ∉ pre → close_brace ∉ post →
     decompose w userRequest
     = match safeParseJSON w (text (open_brace :: mid ++ [close_brace])) with
       | Some plan => inr plan
       | None => inl (ErrorObj "Failed to parse task decomposition JSON")
       end)
  ∧ ((∀ pre mid post,
        chars reply ≠ (pre ++ open_brace :: mid ++ close_brace :: post)%list) →
     decompose w userRequest = inl (ErrorObj "Failed to parse task decomposition")).
Proof.
  intros Hreply. unfold decompose. rewrite Hreply. cbn [try_bind]. split.
  - intros pre mid post Hs Hpre Hpost.
    by rewrite (match_braces_found _ _ _ _ Hs Hpre Hpost).
  - intros Hnone. destruct (match_braces reply) as [m|] eqn:Hm; [|done].
    apply match_braces_some in Hm as (pre & mid & post & Hs & _). by destruct (Hnone pre mid post).
Qed.

Lemma decompose_reads_between_braces_witness :
  decompose (worldOf false (Some todoPlan) (λ _, Answered "Halo!" 1200) (λ _, true))
    "todo app"
  = inr todoPlan.
Proof.
  apply (proj1 (decompose_reads_between_braces
                  (worldOf false (Some todoPlan) (λ _, Answered "Halo!" 1200) (λ _, true))
                  "todo app" "{}" eq_refl) [] [] []).
  - reflexivity.
  - apply not_elem_of_nil.
  - apply not_elem_of_nil.
Defined.

(** *** orchestrate and the persistent cache *)

Lemma tokenize_nonempty_text req :
  PersistentCache.tokenize req ≠ ∅ → nonempty req = true.
Proof. destruct req; [|done]. intros H. by destruct H. Qed.

(** X21. A request asked before is answered from the job queue.  Let the
    queue be reachable and hold, among the jobs the lookup reads (completed
    since its cutoff of 72 hours, the most recent hundred), a job with the text of
    the request, a text that has at least one token; let every job read
    have files, and let the progress callback return.  Then [orchestrate]
    returns, with [success: true], the files and the output of a job read
    whose text has the tokens of the request, under the project name
    'cached-project' and with no agent results: nothing is generated. *)
Theorem repeated_request_is_served_from_cache (w : World) (req : string)
    (rows : list PersistentCache.Job) (j : PersistentCache.Job) :
  let scanned := PersistentCache.queried (host w) (clock w) (Finite 72) rows in
  createClient w = inr (PersistentCache.Table rows) →
  progress w CachedResult = inr () →
  j ∈ scanned →
  PersistentCache.input_message j = Some req →
  PersistentCache.tokenize req ≠ ∅ →
  (∀ j', j' ∈ scanned → is_Some (PersistentCache.job_files j')) →
  ∃ j' msg fs,
    j' ∈ scanned
    ∧ PersistentCache.input_message j' = Some msg
    ∧ PersistentCache.tokenize msg = PersistentCache.tokenize req
    ∧ PersistentCache.job_files j' = Some fs
    ∧ orchestrate w req
      = cachedResult w "cached-project"
          (orElse (Some (default "" (PersistentCache.output_content j')))
                  "Cached response from previous request")
          fs.
Proof.
  intros scanned Hclient Hprogress Hj Hmsg Htokens Hfiles.
  unfold PersistentCache.queried in scanned.
  destruct (PersistentCache.cutoffDate (host w) (clock w) (Finite 72)) as [cutoff|]
    eqn:Hcut; [|by apply elem_of_nil in Hj].
  set (tokens := PersistentCache.tokenize req).
  assert (PersistentCache.job_similarity tokens j
          = Some (PersistentCache.jaccardSimilarity tokens tokens)) as Hsim.
  { unfold PersistentCache.job_similarity. rewrite Hmsg.
    by rewrite (tokenize_nonempty_text req Htokens). }
  assert (PersistentCache.jaccardSimilarity tokens tokens == 1)%Q as Hone
    by (by apply PersistentCacheMore.jaccardSimilarity_self).
  pose proof (PersistentCacheSpec.bestOf_spec tokens (7 # 10) scanned) as Hbest.
  unfold PersistentCache.best_of_seen in Hbest.
  destruct (fold_left (PersistentCache.scan tokens (7 # 10)) scanned (None, 0%Q))
    as [[r|] score] eqn:Hfold; cbn [fst snd] in Hbest.
  2:{ exfalso. destruct Hbest as [_ Hnone]. apply (Hnone j _ Hj Hsim).
      split; lra. }
  destruct Hbest as (Hscore & j' & Hj' & Hr & Hsim' & _ & Hmax).
  pose proof (Hmax j _ Hj Hsim) as Hle.
  apply PersistentCacheMore.job_similarity_value in Hsim' as Hvalue.
  destruct Hvalue as (msg & Hmsg' & Hs).
  pose proof (PersistentCacheMore.jaccardSimilarity_bounds tokens
                (PersistentCache.tokenize msg)) as (_ & Hup & Heq & _).
  rewrite <- Hs in Hup, Heq.
  assert (score == 1)%Q as Hscore1 by lra.
  destruct (Heq Hscore1) as [Hsame _].
  destruct (Hfiles j' Hj') as [fs Hfs].
  exists j', msg, fs. do 2 (split; [done|]). split; [done|]. split; [done|].
  assert (PersistentCache.findCachedResponse req (PersistentCache.Table rows)
            (host w) (clock w) (Finite 72) (7 # 10) = Some r) as Hfound.
  { assert (∀ jobs, match jobs with
                    | [] => None
                    | j0 :: l => PersistentCache.bestOf tokens (7 # 10) (j0 :: l)
                    end = PersistentCache.bestOf tokens (7 # 10) jobs) as Hjobs
      by (by intros []).
    unfold PersistentCache.findCachedResponse. rewrite Hcut. fold scanned. fold tokens.
    rewrite Hjobs. unfold PersistentCache.bestOf. by rewrite Hfold. }
  unfold orchestrate, orchestrateTry, persistentLookup.
  rewrite Hclient, Hfound, Hr. cbn [PersistentCache.files PersistentCache.hit].
  rewrite Hfs, Hprogress. done.
Qed.

Lemma repeated_request_is_served_from_cache_witness :
  ∃ j' msg fs,
    j' ∈ PersistentCache.queried PersistentCache.utc 1000000 (Finite 72)
           [PersistentCache.first_job]
    ∧ PersistentCache.input_message j' = Some msg
    ∧ PersistentCache.tokenize msg = PersistentCache.tokenize "todo app react"
    ∧ PersistentCache.job_files j' = Some fs
    ∧ orchestrate
        (cacheWorld [PersistentCache.first_job]) "todo app react"
      = cachedResult (cacheWorld [PersistentCache.first_job]) "cached-project"
          (orElse (Some (default "" (PersistentCache.output_content j')))
                  "Cached response from previous request")
          fs.
Proof.
  apply (repeated_request_is_served_from_cache
           (cacheWorld [PersistentCache.first_job]) "todo app react"
           [PersistentCache.first_job] PersistentCache.first_job).
  - reflexivity.
  - reflexivity.
  - vm_compute. apply list_elem_of_here.
  - reflexivity.
  - intros H. apply (f_equal size) in H. vm_compute in H. discriminate.
  - intros j' Hj'. vm_compute in Hj'. apply list_elem_of_singleton in Hj' as ->.
    by eexists.
Defined.

End OrchestratorMore.

(** ** The trace logger: counters, steps and the end of a trace *)

Module TraceLoggerMore.

Import TraceLogger.

Lemma count_app P l s :
  count P (l ++ [s]) = (count P l + if P s then 1 else 0)%nat.
Proof.
  unfold count. rewrite filter_app, length_app. f_equal.
  rewrite (filter_cons (λ s, P s = true) s []).
  destruct (P s); by case_decide.
Qed.

Lemma hit_is_no_miss s : is_hit s = true → is_miss s = false.
Proof.
  unfold is_hit, is_miss. intros [_ H]%andb_prop.
  apply String.eqb_eq in H. rewrite H. by rewrite andb_false_r.
Qed.

Lemma counted_push c s :
  counted (steps c) (cache_hits c) (cache_misses c) (rate_limit_waits c) →
  counted (steps (pushStep c s)) (cache_hits (pushStep c s))
    (cache_misses (pushStep c s)) (rate_limit_waits (pushStep c s)).
Proof.
  intros (Hh & Hm & Hw & first & rest & Hsteps & Hfirst). unfold counted.
  cbn [steps cache_hits cache_misses rate_limit_waits pushStep].
  rewrite !count_app. fold (is_hit s). fold (is_miss s). fold (is_wait s).
  split; [|split; [|split]].
  - destruct (is_hit s); lia.
  - destruct (is_hit s) eqn:E; [rewrite (hit_is_no_miss s E); lia|].
    destruct (is_miss s); lia.
  - destruct (is_wait s); lia.
  - exists first, (rest ++ [s])%list. by rewrite Hsteps.
Qed.

Lemma addStep_lookup st traceId stepName resultName details0 durationMs now k :
  activeTraces (addStep st traceId stepName resultName details0 durationMs now) !! k
  = if decide (k = traceId) then
      (λ c, pushStep c {| timestamp := now; step := stepName; result := resultName;
                          details := details0; duration_ms := durationMs |})
      <$> activeTraces st !! traceId
    else activeTraces st !! k.
Proof.
  unfold addStep. destruct (activeTraces st !! traceId) as [c|] eqn:E; cbn.
  - case_decide as Hk; [subst k; by rewrite lookup_insert_eq|].
    by rewrite lookup_insert_ne.
  - case_decide as Hk; [by subst k | done].
Qed.

Lemma addStep_sent st traceId stepName resultName details0 durationMs now :
  sent (addStep st traceId stepName resultName details0 durationMs now) = sent st.
Proof. unfold addStep. by destruct (activeTraces st !! traceId). Qed.

Lemma addStep_ok st traceId stepName resultName details0 durationMs now :
  logger_ok st →
  logger_ok (addStep st traceId stepName resultName details0 durationMs now).
Proof.
  intros [Hactive Hsent]. split; [|by rewrite addStep_sent].
  intros k c. rewrite addStep_lookup. case_decide as Hk; [subst k|apply Hactive].
  destruct (activeTraces st !! traceId) as [c0|] eqn:E; [|done].
  intros [= <-]. destruct (Hactive _ _ E) as [Hid Hcounted].
  split; [done|]. by apply counted_push.
Qed.

Lemma startTrace_ok st traceId jobId sessionId userId agentType mode0 prompt now up :
  logger_ok st →
  logger_ok (startTrace st traceId jobId sessionId userId agentType mode0 prompt now
               up).1.
Proof.
  intros [Hactive Hsent]. unfold startTrace. cbn [fst].
  match goal with
  | |- logger_ok (if up then {| activeTraces := activeTraces ?a; sent := _ |} else _) =>
      assert (logger_ok a) as [Hactive' Hsent']
  end.
  { split; [|by rewrite addStep_sent].
    intros k c. rewrite addStep_lookup. cbn [activeTraces].
    case_decide as Hk.
    - subst k. rewrite lookup_insert_eq. intros [= <-]. split; [done|].
      unfold counted. cbn. repeat split; try done. by eexists _, _.
    - rewrite lookup_insert_ne by done. apply Hactive. }
  destruct up; [|by split]. split; [done|]. cbn [sent].
  apply Forall_app. split; [done|]. by repeat constructor.
Qed.

Lemma endTrace_ok st traceId status summary now up :
  logger_ok st → logger_ok (endTrace st traceId status summary now up).
Proof.
  intros Hok. unfold endTrace.
  destruct (activeTraces st !! traceId) as [c|] eqn:E; [|done].
  match goal with
  | |- context [addStep st traceId ?a ?b ?c ?d ?e] =>
      pose proof (addStep_ok st traceId a b c d e Hok) as [Hactive Hsent];
      pose proof (addStep_lookup st traceId a b c d e traceId) as Hlook;
      set (st1 := addStep st traceId a b c d e) in *
  end.
  rewrite decide_True, E in Hlook by done. cbn in Hlook. rewrite Hlook.
  split; cbn [activeTraces sent].
  - intros k c'. destruct (decide (k = traceId)) as [->|Hk].
    + by rewrite lookup_delete_eq.
    + rewrite lookup_delete_ne by done. apply Hactive.
  - destruct up; [|done]. apply Forall_app. split; [done|].
    constructor; [|done]. cbn. split.
    + by apply (Hactive _ _ Hlook).
    + eexists _, _. split; [done|]. by destruct status.
Qed.

Lemma calls_ok cs : ∀ st, logger_ok st → logger_ok (calls st cs).
Proof.
  induction cs as [|c cs IH]; intros st Hok; [done|]. cbn. apply IH.
  destruct c; cbn [call]; [by apply startTrace_ok | by apply addStep_ok
                          | by apply endTrace_ok].
Qed.

(** X22. The counters of a trace are those of its steps.  After any
    calls of [startTrace], [addStep] and [endTrace], in any order and on any
    traces, every active trace is stored under its own id, begins with the
    start step and has counted, as [cache_hits], [cache_misses] and
    [rate_limit_waits], its cache steps with result 'hit', its cache steps
    with result 'miss' and its rate-limit steps that waited; and every
    update sent to the table carries steps and counters that agree in the
    same way, the last step being the completion or error step that goes
    with the status. *)
Theorem trace_counters_match_steps (cs : list Call) :
  let st := calls empty_logger cs in
  (∀ traceId c, getTrace st traceId = Some c →
     id c = traceId
     ∧ cache_hits c = count is_hit (steps c)
     ∧ cache_misses c = count is_miss (steps c)
     ∧ rate_limit_waits c = count is_wait (steps c)
     ∧ (step <$> head (steps c)) = Some START)
  ∧ (∀ u, Update u ∈ sent st →
       upd_cache_hits u = count is_hit (upd_steps u)
       ∧ upd_cache_misses u = count is_miss (upd_steps u)
       ∧ upd_rate_limit_waits u = count is_wait (upd_steps u)
       ∧ (step <$> last (upd_steps u))
         = Some (match upd_status u with success => COMPLETE | error => ERROR end)
       ∧ (result <$> last (upd_steps u)) = Some (status_name (upd_status u))).
Proof.
  cbv zeta.
  assert (logger_ok (calls empty_logger cs)) as [Hactive Hsent].
  { apply calls_ok. split; [|done]. intros k c H. cbn in H.
    by rewrite lookup_empty in H. }
  split.
  - intros traceId c Hc.
    destruct (Hactive _ _ Hc) as (Hid & Hh & Hm & Hw & first & rest & Hs & Hfirst & _).
    do 4 (split; [done|]). rewrite Hs. cbn. by rewrite Hfirst.
  - intros u Hu. rewrite Forall_forall in Hsent.
    destruct (Hsent _ Hu) as ((Hh & Hm & Hw & _) & l & s & Hsteps & Hstep & Hresult).
    do 3 (split; [done|]). rewrite Hsteps, last_snoc. cbn. by rewrite Hstep, Hresult.
Qed.

Lemma endTrace_gone st traceId status summary now configured :
  getTrace (endTrace st traceId status summary now configured) traceId = None.
Proof.
  unfold getTrace, endTrace.
  destruct (activeTraces st !! traceId) as [c|] eqn:E; [|done].
  cbn [activeTraces]. by rewrite lookup_delete_eq.
Qed.

(** X23. The end of a trace.  [endTrace] removes the trace: after it
    [getTrace] finds nothing, and [addStep] and a second [endTrace] on that
    trace change nothing and send nothing.  With the database client
    configured, the [endTrace] of an active trace sends exactly one update,
    for that trace; without it, or on a trace that is not active, it sends
    none. *)
Theorem ended_trace_is_closed (st : Logger) (traceId : string) (status : Status)
    (summary : option Summary) (now : Z) (configured : bool) :
  let st' := endTrace st traceId status summary now configured in
  getTrace st' traceId = None
  ∧ (∀ stepName resultName details0 durationMs now',
       addStep st' traceId stepName resultName details0 durationMs now' = st')
  ∧ (∀ status' summary' now' configured',
       endTrace st' traceId status' summary' now' configured' = st')
  ∧ (if configured && bool_decide (is_Some (getTrace st traceId))
     then ∃ u, sent st' = (sent st ++ [Update u])%list
               ∧ upd_id u = traceId ∧ upd_status u = status
     else sent st' = sent st).
Proof.
  cbv zeta.
  assert (getTrace (endTrace st traceId status summary now configured) traceId = None)
    as Hgone.
  { unfold getTrace, endTrace.
    destruct (activeTraces st !! traceId) as [c|] eqn:E; [|done].
    cbn [activeTraces]. by rewrite lookup_delete_eq. }
  unfold getTrace in Hgone. split; [done|]. split; [|split].
  - intros. unfold addStep. by rewrite Hgone.
  - intros. unfold endTrace at 1. by rewrite Hgone.
  - unfold getTrace, endTrace.
    destruct (activeTraces st !! traceId) as [c|] eqn:E.
    + rewrite bool_decide_eq_true_2 by done. rewrite andb_true_r.
      rewrite addStep_sent.
      pose proof (addStep_lookup st traceId
                    (match status with success => COMPLETE | error => ERROR end)
                    (status_name status)
                    (Some [("total_ms", VNum (now - start_time c));
                           ("files", match summary ≫= summary_file_count with
                                     | Some n => VNum n
                                     | None => VUndefined
                                     end);
                           ("error", match summary ≫= summary_error_message with
                                     | Some m => VStr m
                                     | None => VUndefined
                                     end)])
                    None now traceId) as Hlook.
      rewrite decide_True, E in Hlook by done. cbn in Hlook. rewrite Hlook.
      destruct configured; cbn [sent]; [|done]. by eexists.
    + rewrite bool_decide_eq_false_2 by (by intros [? ?]). by rewrite andb_false_r.
Qed.

Lemma call_other st c traceId :
  call_trace c ≠ traceId → getTrace (call st c) traceId = getTrace st traceId.
Proof.
  intros Hne. unfold getTrace. destruct c; cbn [call call_trace] in *.
  - unfold startTrace. cbn [fst].
    assert (∀ a b, activeTraces (if configured then {| activeTraces := activeTraces a;
                                                       sent := b |} else a)
                   = activeTraces a) as -> by (by destruct configured).
    rewrite addStep_lookup, decide_False by done. cbn [activeTraces].
    by rewrite lookup_insert_ne.
  - by rewrite addStep_lookup, decide_False.
  - unfold endTrace. destruct (activeTraces st !! traceId0) as [c|]; [|done].
    cbn [activeTraces]. rewrite lookup_delete_ne by done.
    by rewrite addStep_lookup, decide_False.
Qed.

(** X24. Steps are only added.  For a trace that is active: a call on
    another trace leaves it as it is; [addStep] on it appends one step, with
    the names and the time it was given, and leaves its id, job and start
    time; [endTrace] on it removes it.  No call removes or rewrites a step
    of an active trace, [startTrace] with the id of an active trace
    apart, which starts it anew. *)
Theorem steps_are_only_added (st : Logger) (traceId : string) (c : TraceContext)
    (op : Call) :
  getTrace st traceId = Some c →
  match op with
  | StartTrace traceId' _ _ _ _ _ _ _ _ =>
      traceId' ≠ traceId → getTrace (call st op) traceId = Some c
  | AddStep traceId' stepName resultName details0 durationMs now =>
      if decide (traceId' = traceId) then
        ∃ c', getTrace (call st op) traceId = Some c'
              ∧ steps c' = (steps c ++ [{| timestamp := now; step := stepName;
                                           result := resultName; details := details0;
                                           duration_ms := durationMs |}])%list
              ∧ id c' = id c ∧ job_id c' = job_id c ∧ start_time c' = start_time c
      else getTrace (call st op) traceId = Some c
  | EndTrace traceId' _ _ _ _ =>
      if decide (traceId' = traceId) then getTrace (call st op) traceId = None
      else getTrace (call st op) traceId = Some c
  end.
Proof.
  intros Hc. destruct op.
  - intros Hne. by rewrite call_other.
  - case_decide as Hk; [subst traceId0|by rewrite call_other].
    unfold getTrace in *. cbn [call]. rewrite addStep_lookup, decide_True, Hc by done.
    cbn. by eexists.
  - case_decide as Hk; [subst traceId0|by rewrite call_other].
    unfold getTrace in *. cbn [call]. unfold endTrace. rewrite Hc.
    cbn [activeTraces]. by rewrite lookup_delete_eq.
Qed.

Lemma steps_are_only_added_witness :
  ∃ c', getTrace
          (call (calls empty_logger
                   [StartTrace "t-1" "job-1" None None "codegen" planning "todo app"
                      1000 true])
                (AddStep "t-1" "cache_jaccard" "miss" None None 1005)) "t-1"
        = Some c'
        ∧ length (steps c') = 2%nat.
Proof.
  destruct (steps_are_only_added
              (calls empty_logger
                 [StartTrace "t-1" "job-1" None None "codegen" planning "todo app"
                    1000 true])
              "t-1"
              (pushStep
                 {| id := "t-1"; job_id := "job-1"; session_id := None; user_id := None;
                    agent_type := "codegen"; mode := planning;
                    prompt_preview := "todo app"; steps := []; start_time := 1000;
                    cache_hits := 0; cache_misses := 0; rate_limit_waits := 0 |}
                 {| timestamp := 1000; step := START; result := "initiated";
                    details := Some [("agent", VStr "codegen");
                                     ("mode", VStr "planning");
                                     ("prompt_length", VNum 8)];
                    duration_ms := None |})
              (AddStep "t-1" "cache_jaccard" "miss" None None 1005)
              ltac:(vm_compute; reflexivity))
    as (c' & Hc' & Hsteps & _).
  exists c'. split; [exact Hc'|]. rewrite Hsteps. reflexivity.
Defined.

End TraceLoggerMore.

(** ** The job webhook: who may trigger a job, and how a job ends *)

Module ProcessJobMore.

Import JS ProcessJob.

Lemma ensureInitialized_ready p st :
  initialized st = true ∨ initializeApps p = None →
  ∃ st0, ensureInitialized p st = (st0, inr ())
         ∧ logger st0 = logger st ∧ updates st0 = updates st.
Proof.
  intros Hready. unfold ensureInitialized.
  destruct (initialized st) eqn:E; [by exists st|].
  destruct Hready as [? | ->]; [done|]. by eexists.
Qed.

(** X25. Who may trigger a job.  When the route is initialized or its
    initialization returns: a request with no upstash-signature header, or
    an empty one, is answered 401, and one whose signature the receiver does
    not find valid, or cannot check, is answered 403; neither starts a
    trace, nor writes to the job queue.  A request answered 200 carried a
    signature that was accepted.  With no signing key configured every
    non-empty signature is accepted. *)
Theorem webhook_needs_signature (p : Platform) (request : Request) (st : State) :
  initialized st = true ∨ initializeApps p = None →
  let accepted :=
    match signature request with
    | Some signature0 =>
        nonempty signature0 && verifyQStashSignature p signature0 (body request)
    | None => false
    end in
  (accepted = false →
   logger (POST p request st).1 = logger st
   ∧ updates (POST p request st).1 = updates st
   ∧ success (POST p request st).2 = false
   ∧ code (POST p request st).2
     = if bool_decide (nonempty <$> signature request = Some true) then 403 else 401)
  ∧ (code (POST p request st).2 = 200 → accepted = true)
  ∧ (signingKeyConfigured p = false →
     accepted = bool_decide (nonempty <$> signature request = Some true)).
Proof.
  intros Hready. cbv zeta.
  destruct (ensureInitialized_ready p st Hready) as (st0 & Hinit & Hlog & Hupd).
  unfold POST. rewrite Hinit. split; [|split].
  - destruct (signature request) as [sig|]; [|by intros _].
    cbn [fmap option_fmap option_map].
    destruct (nonempty sig); cbn [negb andb]; [|by intros _].
    intros ->. done.
  - destruct (signature request) as [sig|]; [|done].
    destruct (nonempty sig); cbn [negb andb]; [|done].
    destruct (verifyQStashSignature p sig (body request)); [done|]. done.
  - intros Hkey. unfold verifyQStashSignature. rewrite Hkey. cbn [negb].
    destruct (signature request) as [sig|]; [|done]. cbn.
    rewrite andb_true_r. by destruct (nonempty sig).
Qed.

Lemma webhook_needs_signature_witness :
  code (POST (platformOf true false (Orchestrator.cacheWorld []))
          {| signature := Some "v1.forged"; body := "todo app" |} fresh_state).2
  = 403.
Proof.
  apply (webhook_needs_signature (platformOf true false (Orchestrator.cacheWorld []))
           {| signature := Some "v1.forged"; body := "todo app" |} fresh_state
           (or_intror eq_refl)).
  reflexivity.
Defined.

(** *** How a job ends *)

Lemma sendUpdate_returns p jobId0 u st :
  updateJob p jobId0 u = None →
  sendUpdate p jobId0 u st
  = ({| initialized := initialized st; logger := logger st;
        updates := updates st ++ [(jobId0, u)] |}, inr ()).
Proof. unfold sendUpdate. by intros ->. Qed.

Lemma bind_returns {A B : Type} (m : M A) (k : A → M B) st st' a :
  m st = (st', inr a) → bind m k st = k a st'.
Proof. unfold bind. by intros ->. Qed.

Lemma bind_throws {A B : Type} (m : M A) (k : A → M B) st st' e :
  m st = (st', inl e) → bind m k st = (st', inl e).
Proof. unfold bind. by intros ->. Qed.

Lemma catch_returns {A : Type} (m : M A) handler st st' a :
  m st = (st', inr a) → catch m handler st = (st', inr a).
Proof. unfold catch. by intros ->. Qed.

Lemma catch_throws {A : Type} (m : M A) handler st st' e :
  m st = (st', inl e) → catch m handler st = handler e st'.
Proof. unfold catch. by intros ->. Qed.

Lemma executePlanningMode_returns p jobId0 message0 traceId st :
  job_queue_returns p →
  executePlanningMode p jobId0 message0 traceId st
  = ({| initialized := initialized st;
        logger :=
          TraceLogger.calls
            (TraceLogger.addStep (logger st) traceId AI_CALL "planning-start" None None
               (stepAt p))
            (orchestrateCalls p);
        updates :=
          (updates st
           ++ (jobId0, progressUpdate 20 "🤖 Planning mode: Decomposing task...")
              :: map (λ r, (jobId0, progressUpdate r.1 r.2)) (progressReports p)
           ++ [(jobId0, progressUpdate 90 "🤖 Planning mode complete!")])%list |},
     inr (Orchestrator.OrchestratorResult.summary
            (Orchestrator.orchestrate (world p) message0),
          Some (Orchestrator.OrchestratorResult.files
                  (Orchestrator.orchestrate (world p) message0)))).
Proof.
  intros Hret. unfold executePlanningMode.
  erewrite bind_returns by (by apply sendUpdate_returns).
  erewrite bind_returns by reflexivity.
  erewrite bind_returns by reflexivity.
  erewrite bind_returns by reflexivity.
  erewrite bind_returns by (by apply sendUpdate_returns).
  unfold ret. cbn [initialized logger updates]. rewrite <- !app_assoc. cbn [app].
  by destruct (Orchestrator.OrchestratorResult.summary _).
Qed.

Lemma statuses_app jobId0 (us vs : list (string * JobUpdate)) :
  statuses jobId0 (us ++ vs)%list = (statuses jobId0 us ++ statuses jobId0 vs)%list.
Proof. unfold statuses. apply omap_app. Qed.

(** The updates of the progress callback carry no status. *)
Lemma statuses_reports jobId0 (reports : list (Z * string)) :
  statuses jobId0 (map (λ r, (jobId0, progressUpdate r.1 r.2)) reports) = [].
Proof.
  unfold statuses. induction reports as [|r rs IH]; [done|].
  cbn [map omap list_omap fst snd]. rewrite String.eqb_refl. exact IH.
Qed.

(** X26. A planning job is recorded as completed whatever [orchestrate]
    says.  When the updates of the job queue return, [processJob] in planning
    mode returns, and what the job queue has received is, in order: an update
    with status 'processing'; the update of 20 %; the updates that the
    progress callback sent while [orchestrate] ran; the update of 90 %; and
    an update with status 'completed', the summary of [orchestrate] as
    output and its files as files.  None of the updates in between carries a
    status, and [success] is not looked at.  So when an error escaped inside
    [orchestrate], the job is 'completed' with the message of that error as
    its output and an empty set of files, and no update has status
    'failed'. *)
Theorem planning_job_is_completed (p : Platform) (job : Payload) (st : State) :
  mode job = TraceLogger.planning →
  job_queue_returns p →
  let result := Orchestrator.orchestrate (world p) (message job) in
  let done_ :=
    {| status := Some completed; progress := Some 100;
       currentStep := Some "✅ Complete!";
       outputContent := Some (Orchestrator.OrchestratorResult.summary result);
       files := Some (Orchestrator.OrchestratorResult.files result);
       errorMessage := None |} in
  let sent :=
    map (λ r, (jobId job, progressUpdate r.1 r.2)) (progressReports p) in
  (processJob p job st).2 = inr ()
  ∧ (∃ first,
       updates (processJob p job st).1
       = (updates st
          ++ (jobId job, first)
             :: (jobId job, progressUpdate 20 "🤖 Planning mode: Decomposing task...")
             :: sent
          ++ [(jobId job, progressUpdate 90 "🤖 Planning mode complete!");
              (jobId job, done_)])%list
       ∧ status first = Some processing
       ∧ statuses (jobId job)
           ((jobId job, first)
            :: (jobId job, progressUpdate 20 "🤖 Planning mode: Decomposing task...")
            :: sent
            ++ [(jobId job, progressUpdate 90 "🤖 Planning mode complete!");
                (jobId job, done_)])%list
         = [processing; completed])
  ∧ (∀ e, Orchestrator.orchestrateTry (world p) (message job) = inl e →
       Orchestrator.OrchestratorResult.success result = false
       ∧ outputContent done_ = Some (error_message e)
       ∧ files done_ = Some []).
Proof.
  intros Hmode Hret. cbv zeta.
  set (result := Orchestrator.orchestrate (world p) (message job)).
  set (sent := map (λ r, (jobId job, progressUpdate r.1 r.2)) (progressReports p)).
  assert (∃ first lg,
            processJob p job st
            = ({| initialized := initialized st; logger := lg;
                  updates :=
                    (updates st
                     ++ (jobId job, first)
                        :: (jobId job,
                            progressUpdate 20 "🤖 Planning mode: Decomposing task...")
                        :: sent
                     ++ [(jobId job, progressUpdate 90 "🤖 Planning mode complete!");
                         (jobId job,
                          {| status := Some completed; progress := Some 100;
                             currentStep := Some "✅ Complete!";
                             outputContent :=
                               Some (Orchestrator.OrchestratorResult.summary result);
                             files := Some (Orchestrator.OrchestratorResult.files result);
                             errorMessage := None |})])%list |}, inr ())
            ∧ status first = Some processing)
    as (first & lg & Hrun & Hstatus).
  { unfold processJob. erewrite bind_returns by reflexivity.
    eexists _, _. split; [|shelve].
    erewrite catch_returns; [reflexivity|].
    erewrite bind_returns by (by apply sendUpdate_returns).
    rewrite Hmode.
    erewrite bind_returns by (by apply executePlanningMode_returns).
    erewrite bind_returns by (by apply sendUpdate_returns).
    unfold traced. cbn [initialized logger updates fst snd].
    rewrite <- !app_assoc. cbn [app]. rewrite <- !app_assoc. cbn [app]. reflexivity.
    Unshelve. done. }
  rewrite Hrun. split; [done|]. split.
  - exists first. split; [done|]. split; [done|].
    pose proof (statuses_app (jobId job)
                  [(jobId job, first);
                   (jobId job, progressUpdate 20 "🤖 Planning mode: Decomposing task...")])
      as Happ.
    cbn [app] in Happ. rewrite Happ, statuses_app.
    unfold sent. rewrite statuses_reports.
    unfold statuses. cbn [omap list_omap fst snd app]. rewrite String.eqb_refl, Hstatus.
    done.
  - intros e He. unfold result, Orchestrator.orchestrate. rewrite He. done.
Qed.

Lemma planning_job_is_completed_witness :
  (processJob
     (reporting
        (platformOf true true
           (Orchestrator.worldOf false None (λ _, Orchestrator.Answered "Halo!" 1200)
              (λ _, true)))
        [(30, "Decomposing task into agent sub-tasks...")])
     {| jobId := "job-1"; message := "todo app"; mode := TraceLogger.planning;
        selectedModel := "auto"; sessionId := None; userId := "user-1";
        agentType := "codegen" |} fresh_state).2 = inr ().
Proof.
  apply (planning_job_is_completed
           (reporting
              (platformOf true true
                 (Orchestrator.worldOf false None (λ _, Orchestrator.Answered "Halo!" 1200)
                    (λ _, true)))
              [(30, "Decomposing task into agent sub-tasks...")])
           {| jobId := "job-1"; message := "todo app"; mode := TraceLogger.planning;
              selectedModel := "auto"; sessionId := None; userId := "user-1";
              agentType := "codegen" |} fresh_state eq_refl).
  intros jobId0 u. reflexivity.
Defined.

Lemma bind_inv {A B : Type} (m : M A) (k : A → M B) st st' b :
  bind m k st = (st', inr b) →
  ∃ st1 a, m st = (st1, inr a) ∧ k a st1 = (st', inr b).
Proof.
  unfold bind. destruct (m st) as [st1 [e|a]]; [done|]. intros H. by exists st1, a.
Qed.

Lemma sendUpdate_inv p jobId0 u st st' :
  sendUpdate p jobId0 u st = (st', inr ()) →
  updates st' = (updates st ++ [(jobId0, u)])%list ∧ logger st' = logger st.
Proof.
  unfold sendUpdate. destruct (updateJob p jobId0 u); [done|]. by intros [= <-].
Qed.

(** X27. How a job ends, in either mode.  When the update that marks a
    job as failed returns: if [processJob] returns, the last update it wrote
    has status 'completed'; if it throws, the last update it wrote has
    status 'failed' and carries the message of the error it throws, the
    error that escaped from the work; in both cases the trace it started is
    ended and no longer active. *)
Theorem processJob_settles_the_job (p : Platform) (job : Payload) (st : State) :
  (∀ u, status u = Some failed → updateJob p (jobId job) u = None) →
  TraceLogger.getTrace (logger (processJob p job st).1) (randomUUID p) = None
  ∧ match (processJob p job st).2 with
    | inr _ =>
        ∃ u, last (updates (processJob p job st).1) = Some (jobId job, u)
             ∧ status u = Some completed
    | inl e =>
        ∃ u, last (updates (processJob p job st).1) = Some (jobId job, u)
             ∧ status u = Some failed
             ∧ errorMessage u = Some (messageOr e "Unknown error")
    end.
Proof.
  intros Hfailed. unfold processJob. erewrite bind_returns by reflexivity.
  match goal with
  | |- context [catch ?t ?h ?s] => set (work := t); set (handler := h); set (st1 := s)
  end.
  destruct (work st1) as [st2 [e|[]]] eqn:Hwork.
  - rewrite (catch_throws work handler st1 st2 e Hwork). unfold handler.
    erewrite bind_returns by (by apply sendUpdate_returns, Hfailed).
    erewrite bind_returns by reflexivity.
    unfold throw. cbn [fst snd logger updates]. split.
    + apply TraceLoggerMore.endTrace_gone.
    + eexists. rewrite last_snoc. done.
  - rewrite (catch_returns work handler st1 st2 () Hwork). cbn [fst snd].
    unfold work in Hwork.
    apply bind_inv in Hwork as (sta & [] & _ & Hwork).
    apply bind_inv in Hwork as (stb & out & _ & Hwork).
    apply bind_inv in Hwork as (stc & [] & Hdone & Hwork).
    apply sendUpdate_inv in Hdone as [Hupdates _].
    unfold traced in Hwork. injection Hwork as <-. cbn [logger updates]. split.
    + apply TraceLoggerMore.endTrace_gone.
    + eexists. rewrite Hupdates, last_snoc. done.
Qed.

Lemma processJob_settles_the_job_witness :
  TraceLogger.getTrace
    (logger
       (processJob (platformOf true true (Orchestrator.cacheWorld []))
          {| jobId := "job-1"; message := "todo app"; mode := TraceLogger.fast;
             selectedModel := "auto"; sessionId := None; userId := "user-1";
             agentType := "chat" |} fresh_state).1)
    "trace-1" = None.
Proof.
  apply (processJob_settles_the_job (platformOf true true (Orchestrator.cacheWorld []))
           {| jobId := "job-1"; message := "todo app"; mode := TraceLogger.fast;
              selectedModel := "auto"; sessionId := None; userId := "user-1";
              agentType := "chat" |} fresh_state).
  intros u _. reflexivity.
Defined.

End ProcessJobMore.

(** ** The Upstash cache: the window of incrementRateLimit, round trips *)

Module RedisCacheMore.

Import RedisCache.

Lemma ceil_seconds x :
  0 < x → 0 < JS.ceil_div x 1000 ∧ x ≤ JS.ceil_div x 1000 * 1000.
Proof.
  intros Hx. unfold JS.ceil_div.
  pose proof (Z.div_mod (- x) 1000 ltac:(lia)) as Hdiv.
  pose proof (Z.mod_pos_bound (- x) 1000 ltac:(lia)) as Hmod. lia.
Qed.

(** A read inside an open window gives its state, whatever the client. *)
Lemma window_open_read parse r provider windowMs w c t :
  window_open r provider windowMs w c → t - w < windowMs →
  rateLimitRead parse r provider t = Some (VState c w).
Proof.
  intros (t' & Hkey & Ht) Hnow. unfold rateLimitRead, redis_get. rewrite Hkey.
  unfold live. cbn [expireAt value reply].
  by destruct (Z.ltb_spec t t'); [|lia].
Qed.

Lemma increment_in_window parse r provider limit windowMs w c now :
  window_open r provider windowMs w c → now - w < windowMs →
  (incrementRateLimit parse r provider limit windowMs now (atOnce now)).2 = (c <? limit)
  ∧ window_open (incrementRateLimit parse r provider limit windowMs now (atOnce now)).1
      provider windowMs w (if c <? limit then c + 1 else c).
Proof.
  intros Hopen Hnow. unfold incrementRateLimit.
  cbn [atOnce reachable readAt writeAt written negb].
  rewrite (window_open_read parse _ _ _ _ _ _ Hopen Hnow).
  destruct Hopen as (t & Hkey & Ht). unfold rateLimitWrite.
  destruct (Z.ltb_spec windowMs (now - w)); [lia|].
  destruct (Z.leb_spec limit c); destruct (Z.ltb_spec c limit); try lia.
  - split; [done|]. by exists t.
  - destruct (ceil_seconds (windowMs - (now - w)) ltac:(lia)) as [Hpos Hceil].
    cbn [fst snd rateLimitStore]. unfold redis_set_ex.
    destruct (Z.ltb_spec 0 (JS.ceil_div (windowMs - (now - w)) 1000)); [|lia].
    cbn [from_option id]. split; [done|]. eexists.
    rewrite lookup_insert_eq. split; [done|]. lia.
Qed.

Lemma attempts_in_window parse ts : ∀ r provider limit windowMs w c,
  window_open r provider windowMs w c →
  Forall (λ t, t - w < windowMs) ts →
  (attempts parse r provider limit windowMs ts).2
  = Z.min (Z.of_nat (length ts)) (Z.max 0 (limit - c))
  ∧ window_open (attempts parse r provider limit windowMs ts).1 provider windowMs w
      (c + Z.min (Z.of_nat (length ts)) (Z.max 0 (limit - c))).
Proof.
  induction ts as [|t ts IH]; intros r provider limit windowMs w c Hopen Hall.
  - cbn [attempts length fst snd].
    replace (Z.of_nat 0 `min` (0 `max` (limit - c))) with 0 by lia.
    by rewrite Z.add_0_r.
  - apply Forall_cons in Hall as [Ht Hall]. cbn [attempts].
    destruct (increment_in_window parse r provider limit windowMs w c t Hopen Ht)
      as [Hok Hopen1].
    destruct (incrementRateLimit parse r provider limit windowMs t (atOnce t)) as [r1 ok].
    cbn [fst snd] in Hok, Hopen1. subst ok.
    destruct (IH r1 provider limit windowMs w _ Hopen1 Hall) as [Hn Hopen2].
    destruct (attempts parse r1 provider limit windowMs ts) as [r2 n].
    cbn [fst snd length] in *. subst n.
    destruct (Z.ltb_spec c limit).
    + replace (1 + Z.of_nat (length ts) `min` (0 `max` (limit - (c + 1))))
        with (Z.of_nat (S (length ts)) `min` (0 `max` (limit - c))) by lia.
      split; [done|].
      replace (c + Z.of_nat (S (length ts)) `min` (0 `max` (limit - c)))
        with (c + 1 + Z.of_nat (length ts) `min` (0 `max` (limit - (c + 1)))) by lia.
      done.
    + replace (0 + Z.of_nat (length ts) `min` (0 `max` (limit - c)))
        with (Z.of_nat (S (length ts)) `min` (0 `max` (limit - c))) by lia.
      split; [done|].
      replace (c + Z.of_nat (S (length ts)) `min` (0 `max` (limit - c)))
        with (c + Z.of_nat (length ts) `min` (0 `max` (limit - c))) by lia.
      done.
Qed.

(** Two calls that overlap inside an open window both act on the count
    that both have read. *)
Lemma overlapping_in_window parse r provider limit windowMs w c now1 now2 c1 c2 :
  window_open r provider windowMs w c →
  readAt c1 - w < windowMs → readAt c2 - w < windowMs →
  now1 - w < windowMs → now2 - w < windowMs →
  written c1 = true → written c2 = true →
  c < limit →
  let out :=
    incrementRateLimitOverlapping parse r provider limit windowMs now1 now2 c1 c2 in
  out.2 = (true, true)
  ∧ ∃ t, out.1 !! rateLimitKey provider
         = Some {| value := VState (c + 1) w; expireAt := Some t |}.
Proof.
  intros Hopen Hr1 Hr2 Hn1 Hn2 Hw1 Hw2 Hc. cbv zeta.
  unfold incrementRateLimitOverlapping. rewrite Hw1, Hw2.
  rewrite (window_open_read parse _ _ _ _ _ _ Hopen Hr1),
          (window_open_read parse _ _ _ _ _ _ Hopen Hr2).
  unfold rateLimitWrite.
  destruct (Z.ltb_spec windowMs (now1 - w)); [lia|].
  destruct (Z.ltb_spec windowMs (now2 - w)); [lia|].
  destruct (Z.leb_spec limit c); [lia|]. cbn [fst snd]. split; [done|].
  destruct (ceil_seconds (windowMs - (now1 - w)) ltac:(lia)) as [Hpos1 _].
  destruct (ceil_seconds (windowMs - (now2 - w)) ltac:(lia)) as [Hpos2 _].
  unfold rateLimitStore, redis_set_ex.
  destruct (Z.ltb_spec 0 (JS.ceil_div (windowMs - (now1 - w)) 1000)); [|lia].
  destruct (Z.ltb_spec 0 (JS.ceil_div (windowMs - (now2 - w)) 1000)); [|lia].
  cbn [from_option id]. eexists. by rewrite lookup_insert_eq.
Qed.

(** X28. The window of [incrementRateLimit], for calls that do not
    overlap.  Let a call for a provider at [t0] find no live state and start
    a window, and let [n] more calls for it follow one after another, less
    than [windowMs] after [t0], the store answering.  Then [min(n + 1, limit)]
    of the calls are let through, and one when the limit is below 1: the
    call that starts a window is never refused.  A call that cannot reach
    the store is let through and counts nothing.  The limit does not hold
    for calls that overlap: when two calls read the store before either
    writes, inside the window and with the count below the limit, and the
    store performs both writes, both are let through and the count goes up
    by one. *)
Theorem increment_window_limit (parse : string → option Value) (r : Store)
    (provider : string) (limit windowMs t0 : Z) (ts : list Z) :
  0 < windowMs →
  redis_get parse t0 (rateLimitKey provider) r = None →
  Forall (λ t, t - t0 < windowMs) ts →
  let after := attempts parse r provider limit windowMs (t0 :: ts) in
  after.2 = Z.max 1 (Z.min (Z.of_nat (length ts) + 1) limit)
  ∧ (∀ now c, reachable c = false →
       incrementRateLimit parse after.1 provider limit windowMs now c = (after.1, true))
  ∧ (∀ now1 now2 c1 c2,
       readAt c1 - t0 < windowMs → readAt c2 - t0 < windowMs →
       now1 - t0 < windowMs → now2 - t0 < windowMs →
       written c1 = true → written c2 = true →
       after.2 < limit →
       let out :=
         incrementRateLimitOverlapping parse after.1 provider limit windowMs
           now1 now2 c1 c2 in
       out.2 = (true, true)
       ∧ ∃ t, out.1 !! rateLimitKey provider
              = Some {| value := VState (after.2 + 1) t0; expireAt := Some t |}).
Proof.
  intros Hw Hnone Hall. cbv zeta.
  destruct (ceil_seconds windowMs Hw) as [Hpos Hceil].
  assert (incrementRateLimit parse r provider limit windowMs t0 (atOnce t0)
          = (<[rateLimitKey provider :=
                 {| value := VState 1 t0;
                    expireAt := Some (t0 + JS.ceil_div windowMs 1000 * 1000) |}]> r,
             true)) as Hfirst.
  { unfold incrementRateLimit, rateLimitRead.
    cbn [atOnce reachable readAt writeAt written negb].
    rewrite Hnone. cbn [rateLimitWrite newWindow fst snd rateLimitStore].
    unfold redis_set_ex.
    by destruct (Z.ltb_spec 0 (JS.ceil_div windowMs 1000)); [|lia]. }
  cbn [attempts]. rewrite Hfirst.
  match goal with
  | |- context [attempts parse ?r1 provider limit windowMs ts] =>
      destruct (attempts_in_window parse ts r1 provider limit windowMs t0 1)
        as [Hn Hopen];
      [|done|destruct (attempts parse r1 provider limit windowMs ts) as [r2 n]]
  end.
  - eexists. rewrite lookup_insert_eq. split; [done|]. lia.
  - cbn [fst snd] in *. subst n. split; [lia|]. split.
    + intros now c Hc. unfold incrementRateLimit. by rewrite Hc.
    + intros now1 now2 c1 c2 Hr1 Hr2 Hn1 Hn2 Hw1 Hw2 Hbelow.
      by apply (overlapping_in_window parse r2 provider limit windowMs t0).
Qed.

Lemma increment_window_limit_witness :
  (attempts verbatim ∅ "groq" 3 60000 [1000; 1001; 20000; 59000; 60999]).2 = 3.
Proof.
  apply (increment_window_limit verbatim ∅ "groq" 3 60000 1000
           [1001; 20000; 59000; 60999]).
  - lia.
  - reflexivity.
  - repeat constructor; lia.
Defined.

(** *** Round trips *)

Lemma tierKey_inj u u' : tierKey u = tierKey u' → u = u'.
Proof. unfold tierKey. cbn. by intros [=]. Qed.

(** X29. The tier cache.  For five minutes after a tier was set, a read
    gives what the client makes of the stored text (the tier itself when the
    client hands that text back as it is), and nothing after; setting the
    tier of one user does not change what is read for another user, nor a
    cached limit, cost limit, usage count or rate-limit state, whatever their
    names; and when the store cannot be reached a read finds nothing and a
    write changes nothing. *)
Theorem tier_round_trip (parse : string → option Value) (r : Store)
    (userId tier : string) (now later : Z) :
  let r' := setCachedUserTier r userId tier now true in
  getCachedUserTier parse r' userId later true
  = (if later <? now + 300000 then parse tier else None)
  ∧ (parse tier = Some (VStr tier) → later < now + 300000 →
     getCachedUserTier parse r' userId later true = Some (VStr tier))
  ∧ (∀ other up, other ≠ userId →
       getCachedUserTier parse r' other later up
       = getCachedUserTier parse r other later up)
  ∧ (∀ a b up,
       getCachedTierLimits parse r' a b later up = getCachedTierLimits parse r a b later up
       ∧ getCachedCostLimits parse r' a b later up
         = getCachedCostLimits parse r a b later up
       ∧ getCachedDailyUsage parse r' a b later up
         = getCachedDailyUsage parse r a b later up
       ∧ getRateLimitState parse r' a later up = getRateLimitState parse r a later up)
  ∧ getCachedUserTier parse r' userId later false = None
  ∧ setCachedUserTier r userId tier now false = r.
Proof.
  cbv zeta.
  assert (setCachedUserTier r userId tier now true
          = <[tierKey userId := {| value := VStr tier;
                                   expireAt := Some (now + 300 * 1000) |}]> r) as ->
    by reflexivity.
  assert (∀ k, k ≠ tierKey userId →
            ∀ t, redis_get parse t k
                   (<[tierKey userId := {| value := VStr tier;
                                           expireAt := Some (now + 300 * 1000) |}]> r)
                 = redis_get parse t k r) as Hother.
  { intros k Hk t. unfold redis_get. by rewrite lookup_insert_ne. }
  assert (getCachedUserTier parse
            (<[tierKey userId := {| value := VStr tier;
                                    expireAt := Some (now + 300 * 1000) |}]> r)
            userId later true
          = (if later <? now + 300000 then parse tier else None)) as Hread.
  { unfold getCachedUserTier, redis_get. rewrite lookup_insert_eq. unfold live.
    cbn [expireAt value reply]. by replace (now + 300 * 1000) with (now + 300000) by lia. }
  split; [done|]. split; [|split; [|split; [|done]]].
  - intros Hplain Hlater. rewrite Hread, Hplain.
    by destruct (Z.ltb_spec later (now + 300000)); [|lia].
  - intros other up Hne. unfold getCachedUserTier. destruct up; [|done].
    apply Hother. intros E. by apply tierKey_inj in E.
  - intros a b up. unfold getCachedTierLimits, getCachedCostLimits,
      getCachedDailyUsage, getRateLimitState.
    destruct up; [|done]. by rewrite !Hother by done.
Qed.

(** *** The usage counter *)

Lemma increment_usage r userId category m t t' :
  r !! usageKey userId category
  = Some {| value := VNum m; expireAt := Some (t + 120000) |} →
  t' < t + 120000 →
  incrementCachedDailyUsage r userId category 1 t' true !! usageKey userId category
  = Some {| value := VNum (m + 1); expireAt := Some (t' + 120000) |}.
Proof.
  intros Hkey Ht. unfold incrementCachedDailyUsage, redis_incrby. rewrite Hkey.
  unfold live. cbn [expireAt value]. destruct (Z.ltb_spec t' (t + 120000)); [|lia].
  unfold redis_expire. rewrite lookup_insert_eq. unfold live. cbn [expireAt value].
  destruct (Z.ltb_spec t' (t + 120000)); [|lia].
  rewrite lookup_insert_eq. do 3 f_equal; unfold TTL_DAILY_USAGE; lia.
Qed.

Lemma last_cons_default (l : list Z) : ∀ x d, List.last (x :: l) d = List.last l x.
Proof.
  induction l as [|y l IH]; intros x d; [done|].
  change (List.last (x :: y :: l) d) with (List.last (y :: l) d).
  change (List.last (y :: l) x) with (List.last (y :: l) x).
  by rewrite !IH.
Qed.

Lemma increments_usage ts : ∀ r userId category m t,
  r !! usageKey userId category
  = Some {| value := VNum m; expireAt := Some (t + 120000) |} →
  paced 120000 t ts →
  increments r userId category ts !! usageKey userId category
  = Some {| value := VNum (m + Z.of_nat (length ts));
            expireAt := Some (List.last ts t + 120000) |}.
Proof.
  induction ts as [|t' ts IH]; intros r userId category m t Hkey Hpaced.
  - cbn. by rewrite Z.add_0_r.
  - destruct Hpaced as (Hle & Hlt & Hpaced). unfold increments. cbn [fold_left].
    fold (increments (incrementCachedDailyUsage r userId category 1 t' true)
            userId category ts).
    rewrite (IH _ userId category (m + 1) t');
      [|by apply (increment_usage r userId category m t t')|done].
    rewrite last_cons_default. do 3 f_equal. cbn [length]. lia.
Qed.

(** X30. A usage count that keeps being incremented is never dropped.
    After [setCachedDailyUsage] wrote the count [n] at [t0], let increments
    of one follow, each less than two minutes after the one before it.  Then
    for two minutes after the last of them [getCachedDailyUsage] reads [n]
    plus their number: every increment sets the expiry anew, so the cached
    count lives on for as long as the increments keep coming, and is not
    read afresh from the database. *)
Theorem usage_count_stays_cached (parse : string → option Value) (r : Store)
    (userId category : string) (n t0 : Z) (ts : list Z) (later : Z) :
  paced 120000 t0 ts →
  later < List.last ts t0 + 120000 →
  getCachedDailyUsage parse
    (increments (setCachedDailyUsage r userId category n t0 true) userId category ts)
    userId category later true
  = Some (VNum (n + Z.of_nat (length ts))).
Proof.
  intros Hpaced Hlater. unfold getCachedDailyUsage, redis_get.
  rewrite (increments_usage ts _ userId category n t0); [| |done].
  - unfold live. cbn [expireAt value reply].
    by destruct (Z.ltb_spec later (List.last ts t0 + 120000)); [|lia].
  - assert (setCachedDailyUsage r userId category n t0 true
            = <[usageKey userId category :=
                  {| value := VNum n; expireAt := Some (t0 + 120 * 1000) |}]> r) as ->
      by reflexivity.
    rewrite lookup_insert_eq. do 3 f_equal.
Qed.

Lemma usage_count_stays_cached_witness :
  getCachedDailyUsage verbatim
    (increments (setCachedDailyUsage ∅ "user-1" "code" 5 1000 true) "user-1" "code"
       [100000; 200000; 300000])
    "user-1" "code" 400000 true
  = Some (VNum (5 + Z.of_nat (length [100000; 200000; 300000]))).
Proof.
  apply (usage_count_stays_cached verbatim ∅ "user-1" "code" 5 1000
           [100000; 200000; 300000] 400000).
  - cbn. lia.
  - cbn. lia.
Defined.

End RedisCacheMore.
